(** * SOQL parser: the AST builder (visitor) and the two facades

    A shallow embedding of the chevrotain CST visitor [SOQLVisitor] with its
    facade ([parseQuery], [isQueryValid]) and of the ANTLR facade
    [SoqlParser.ts] ([configureDefaults], [parseQuery]).

    Conventions of the embedding.
    - A chevrotain CST context [ctx] is a record; a child [ctx.X] is a list,
      the empty list standing for an absent key (chevrotain creates a key of
      the children dictionary when its first element is recorded, so a key
      that is present holds a non-empty array).  A child that every node
      of the rule has, which the visitor dereferences without a test
      ([ctx.X[0]]), is a plain field.
    - [this.visit(x)] on an array visits its first element; on [undefined]
      it returns [undefined].
    - Calling a method of an absent child ([ctx.X.map], [ctx.X.length],
      [ctx.X[0]] under a test of another key) raises a [TypeError].
    - A JavaScript [throw] is a [Throw] of the [Completion] monad. *)

From stdpp Require Import gmap strings list.
From Stdlib Require Import String Ascii NArith.

Set Warnings "-register-all".

Local Open Scope string_scope.

(** ** JavaScript values used by the builder *)

(** A thrown value.  [TypeError] is what dereferencing [undefined] raises;
    [ParseError] stands for whatever the lexer and the parser throw. *)
Inductive Exn : Type :=
| TypeError (msg : string)
| ParseError (msg : string).

Inductive Completion (A : Type) : Type :=
| Normal (a : A)
| Throw (e : Exn).
Arguments Normal {A} a.
Arguments Throw {A} e.

Definition bind {A B} (m : Completion A) (f : A -> Completion B) : Completion B :=
  match m with
  | Normal a => f a
  | Throw e => Throw e
  end.

Notation "x <- m ;; k" := (bind m (fun x => k))
  (at level 100, m at next level, right associativity).

#[export] Instance Completion_fmap : FMap Completion :=
  fun A B f m => match m with Normal a => Normal (f a) | Throw e => Throw e end.

(** From [x <- m ;; k = Normal b]: the value [a] of [m], and [k a = Normal b]. *)
Ltac inv_bind H :=
  let a := fresh "a" in
  let Ha := fresh "Ha" in
  let H' := fresh "H" in
  match type of H with
  | bind ?m ?f = Normal ?b =>
      assert (exists a, m = Normal a /\ f a = Normal b) as (a & Ha & H')
        by (destruct m; [eauto | discriminate H]);
      clear H; rename H' into H; cbv beta in H
  end.

(** [try { body } catch (ex) { handler }] *)
Definition try_catch {A} (body : Completion A) (handler : Exn -> Completion A)
  : Completion A :=
  match body with
  | Normal a => Normal a
  | Throw e => handler e
  end.

Definition returns {A} (m : Completion A) : Prop := exists a, m = Normal a.

(** A token: [image] and [tokenType.name]. *)
Record IToken : Type := mkToken { image : string; tokenTypeName : string }.

(** Truthiness of a string: the empty string is falsy. *)
Definition truthy_string (s : string) : bool :=
  match s with EmptyString => false | _ => true end.

(** [s.includes(c)] for a one-character needle. *)
Fixpoint includes (c : ascii) (s : string) : bool :=
  match s with
  | EmptyString => false
  | String a r => if Ascii.eqb a c then true else includes c r
  end.

(** [s.split(c)] for a one-character separator: one more segment than there
    are separators, empty segments kept. *)
Fixpoint split (c : ascii) (s : string) : list string :=
  match s with
  | EmptyString => [EmptyString]
  | String a r =>
      if Ascii.eqb a c then EmptyString :: split c r
      else match split c r with
           | h :: t => String a h :: t
           | [] => [String a EmptyString]
           end
  end.

(** [s.replace(c, d)]: the first occurrence only. *)
Fixpoint replace_first (c d : ascii) (s : string) : string :=
  match s with
  | EmptyString => EmptyString
  | String a r => if Ascii.eqb a c then String d r else String a (replace_first c d r)
  end.

Definition dot : ascii := "."%char.

(** [a[a.length - 1]] and [a.slice(0, a.length - 1)].  The arrays they are
    applied to come from [split] and are never empty. *)
Definition last_segment (l : list string) : string := default "" (last l).
Definition init_segments (l : list string) : list string := removelast l.

(** *** Numbers

    [Number(image)] is applied to the images of unsigned-integer tokens
    (LIMIT, OFFSET, the N of a date-N literal).  A double holds an integer
    exactly up to 2^53; above, [Number] rounds, which [JsRounded] records
    without computing the rounded value.  The empty string converts to 0.
    Images that are not digit strings are outside the token language and
    are mapped to [JsNaN]. *)
Inductive JsNumber : Type :=
| JsInt (n : N)
| JsRounded (n : N)
| JsNaN.

Definition digit_value (a : ascii) : option N :=
  let n := N_of_ascii a in
  if ((48 <=? n) && (n <=? 57))%N then Some (n - 48)%N else None.

Fixpoint digits_value (acc : N) (s : string) : option N :=
  match s with
  | EmptyString => Some acc
  | String a r =>
      match digit_value a with
      | Some d => digits_value (10 * acc + d)%N r
      | None => None
      end
  end.

Definition MAX_EXACT : N := 9007199254740992%N.

Definition Number_ (s : string) : JsNumber :=
  match digits_value 0%N s with
  | Some n => if (n <=? MAX_EXACT)%N then JsInt n else JsRounded n
  | None => JsNaN
  end.

(** Truthiness of a number: 0 and NaN are falsy. *)
Definition truthy_number (n : JsNumber) : bool :=
  match n with
  | JsInt 0%N => false
  | JsNaN => false
  | _ => true
  end.

(** ** Function expressions *)

(** *** AST: [FunctionExp | FieldFunctionExpression] *)

Inductive FunctionExp : Type :=
| mkFunctionExp (fn_type : option string) (fn_functionName : string)
    (fn_parameters : list FnParam) (fn_isAggregateFn : option bool)
    (fn_rawValue : string) (fn_alias : option string)
with FnParam : Type :=
| PString (s : string)
| PFunction (f : FunctionExp).

Definition fn_type (f : FunctionExp) : option string :=
  let '(mkFunctionExp t _ _ _ _ _) := f in t.
Definition fn_functionName (f : FunctionExp) : string :=
  let '(mkFunctionExp _ n _ _ _ _) := f in n.
Definition fn_parameters (f : FunctionExp) : list FnParam :=
  let '(mkFunctionExp _ _ p _ _ _) := f in p.
Definition fn_isAggregateFn (f : FunctionExp) : option bool :=
  let '(mkFunctionExp _ _ _ a _ _) := f in a.
Definition fn_rawValue (f : FunctionExp) : string :=
  let '(mkFunctionExp _ _ _ _ r _) := f in r.
Definition fn_alias (f : FunctionExp) : option string :=
  let '(mkFunctionExp _ _ _ _ _ a) := f in a.

(** [output.alias = a] *)
Definition fn_set_alias (a : string) (f : FunctionExp) : FunctionExp :=
  let '(mkFunctionExp t n p g r _) := f in mkFunctionExp t n p g r (Some a).

(** [typeof arg === 'string' ? arg : arg.rawValue] *)
Definition param_text (p : FnParam) : string :=
  match p with
  | PString s => s
  | PFunction f => fn_rawValue f
  end.

(** *** CST of function calls *)

Inductive FnKind : Type :=
| dateFunctionK | aggregateFunctionK | otherFunctionK | cubeFunctionK | rollupFunctionK.

(** [TokOrFn] is an element that is either a token or a function node;
    [isToken] of [../utils] tells the two apart. *)
Inductive FnNode : Type :=
| FieldFunctionNode (kind : FnKind) (fn : IToken) (functionExpression : list FnExprCtx)
| LocationFunctionNode (location1 : IToken) (location2 : TokOrFn) (unit_ : IToken)
| GeolocationFunctionNode (latitude longitude : IToken)
with FnExprCtx : Type :=
| mkFnExprCtx (params : list TokOrFn)
with TokOrFn : Type :=
| IsTok (t : IToken)
| IsFn (n : FnNode).

Record Options : Type := mkOptions { includeType : bool }.

(** The default value of the [options] parameter of the function visitors:
    [{ includeType: true }]. *)
Definition options_or_default (o : option Options) : Options :=
  default (mkOptions true) o.

(** The object built by [$_getFieldFunction] once [args] is known. *)
Definition getFieldFunction_output (fn : IToken) (args : list FnParam)
    (isAggregateFn includeType_ : bool) : FunctionExp :=
  mkFunctionExp
    (if includeType_ then Some "FieldFunctionExpression" else None)
    (tokenTypeName fn)
    args
    (if includeType_ && isAggregateFn then Some isAggregateFn else None)
    (image fn ++ "(" ++ String.concat ", " (map param_text args) ++ ")")
    None.

(** The object built by [locationFunction] once its second parameter is
    known. *)
Definition locationFunction_output (location1 : IToken) (p1 : FnParam) (unit_ : IToken)
    (o : Options) : FunctionExp :=
  mkFunctionExp
    (if includeType o then Some "FieldFunctionExpression" else None)
    "DISTANCE"
    [PString (image location1); p1; PString (image unit_)]
    (if includeType o then Some true else None)
    ("DISTANCE(" ++ image location1 ++ ", " ++ param_text p1 ++ ", " ++ image unit_ ++ ")")
    None.

Definition geolocationFunction (latitude longitude : IToken) (o : Options) : FunctionExp :=
  mkFunctionExp
    (if includeType o then Some "FieldFunctionExpression" else None)
    "GEOLOCATION"
    [PString (image latitude); PString (image longitude)]
    None
    ("GEOLOCATION(" ++ image latitude ++ ", " ++ image longitude ++ ")")
    None.

(** [this.visit(node, options)] on a function node: the dispatch on the
    node's rule name, with [$_getFieldFunction], [functionExpression] and
    [locationFunction] inlined where they recurse.

    In [$_getFieldFunction] the callback of [ctx.functionExpression.map]
    ignores its argument and visits the array [ctx.functionExpression]
    itself, that is its first element, once per element; [flat()] then
    concatenates the results. *)
Fixpoint visitFn (o : option Options) (n : FnNode) {struct n} : FunctionExp :=
  match n with
  | FieldFunctionNode kind fn fes =>
      let '(isAggregateFn, includeType_) :=
        match kind with
        | dateFunctionK => (false, includeType (options_or_default o))
        | aggregateFunctionK => (true, includeType (options_or_default o))
        | otherFunctionK => (false, includeType (options_or_default o))
        | cubeFunctionK => (false, false)
        | rollupFunctionK => (false, false)
        end in
      let args :=
        match fes with
        | [] => []
        | fe0 :: _ =>
            List.concat (map (fun _ => functionExpression (mkOptions includeType_) fe0) fes)
        end in
      getFieldFunction_output fn args isAggregateFn includeType_
  | LocationFunctionNode location1 location2 unit_ =>
      let p1 :=
        match location2 with
        | IsTok t => PString (image t)
        | IsFn g => PFunction (visitFn (Some (options_or_default o)) g)
        end in
      locationFunction_output location1 p1 unit_ (options_or_default o)
  | GeolocationFunctionNode latitude longitude =>
      geolocationFunction latitude longitude (options_or_default o)
  end
with functionExpression (o : Options) (ctx : FnExprCtx) {struct ctx} : list FnParam :=
  match ctx with
  | mkFnExprCtx params =>
      map (fun item =>
             match item with
             | IsTok t => PString (image t)
             | IsFn g => PFunction (visitFn (Some o) g)
             end) params
  end.

(** ** The AST ([../api/api-models])

    The builder fills plain objects; an optional property is an [option].
    The node types are parameterised by the type [Q] of nested queries and
    closed by [Query] below. *)

(** The [LiteralType] enumeration, as the strings the builder writes. *)
Definition LiteralType_values : list string :=
  ["STRING"; "INTEGER"; "DECIMAL"; "INTEGER_WITH_CURRENCY_PREFIX";
   "DECIMAL_WITH_CURRENCY_PREFIX"; "BOOLEAN"; "DATE"; "DATETIME"; "NULL";
   "DATE_LITERAL"; "DATE_N_LITERAL"; "APEX_BIND_VARIABLE"; "SUBQUERY"].

(** [literalType]: one tag, or an array of tags. *)
Inductive LiteralTypeValue : Type :=
| LT_one (tag : string)
| LT_many (tags : list string).

(** [dateLiteralVariable]: a number, or an array of number-or-null. *)
Inductive DateLiteralVariable : Type :=
| DLV_number (n : JsNumber)
| DLV_array (l : list (option JsNumber)).

(** The [value] of a right-hand side: a string, an array of strings or a
    nested query. *)
Inductive RhsValue (Q : Type) : Type :=
| V_string (s : string)
| V_array (l : list string)
| V_query (q : Q).
Arguments V_string {Q} s.
Arguments V_array {Q} l.
Arguments V_query {Q} q.

Record Condition (Q : Type) : Type := mkCondition {
  c_logicalPrefix : option string;
  c_field : option string;
  c_fn : option FunctionExp;
  c_operator : option string;
  c_valueQuery : option (RhsValue Q);
  c_value : option (RhsValue Q);
  c_literalType : option LiteralTypeValue;
  c_dateLiteralVariable : option DateLiteralVariable;
  c_openParen : option nat;
  c_closeParen : option nat }.
Arguments mkCondition {Q}.
Arguments c_logicalPrefix {Q}.
Arguments c_field {Q}.
Arguments c_fn {Q}.
Arguments c_operator {Q}.
Arguments c_valueQuery {Q}.
Arguments c_value {Q}.
Arguments c_literalType {Q}.
Arguments c_dateLiteralVariable {Q}.
Arguments c_openParen {Q}.
Arguments c_closeParen {Q}.

(** [WhereClause] and [HavingClause]: [{ left, operator?, right? }]. *)
Inductive WhereClause (Q : Type) : Type :=
| mkWhere (w_left : Condition Q) (w_operator : option string)
    (w_right : option (WhereClause Q)).
Arguments mkWhere {Q}.

(** The objects of type ['Field'] and ['FieldRelationship']; the alias pass
    of [selectStatement] rewrites one into the other in place. *)
Record FieldNode : Type := mkFieldNode {
  f_type : string;
  f_field : string;
  f_relationships : option (list string);
  f_objectPrefix : option string;
  f_alias : option string;
  f_rawValue : option string }.

Record FieldTypeOfCondition : Type := mkFieldTypeOfCondition {
  toc_type : string;
  toc_objectType : option string;
  toc_fieldList : list string }.

Inductive FieldType (Q : Type) : Type :=
| FieldOrRelationship (n : FieldNode)
| FieldFunction (f : FunctionExp)
| FieldSubquery (subquery : Q)
| FieldTypeof (field : string) (conditions : list FieldTypeOfCondition).
Arguments FieldOrRelationship {Q} n.
Arguments FieldFunction {Q} f.
Arguments FieldSubquery {Q} subquery.
Arguments FieldTypeof {Q} field conditions.

(** What [groupByFieldList] returns, and what [groupByClause] stores. *)
Inductive GroupByField : Type :=
| GBF_string (s : string)
| GBF_strings (l : list string).

Inductive GroupByFieldValue : Type :=
| GB_single (f : GroupByField)
| GB_sequence (l : list GroupByField).

Record GroupByClause (Q : Type) : Type := mkGroupByClause {
  gb_field : option GroupByFieldValue;
  gb_fn : option FunctionExp;
  gb_having : option (WhereClause Q) }.
Arguments mkGroupByClause {Q}.
Arguments gb_field {Q}.
Arguments gb_fn {Q}.
Arguments gb_having {Q}.

Record OrderByClause : Type := mkOrderByClause {
  ob_field : option string;
  ob_fn : option FunctionExp;
  ob_order : option string;
  ob_nulls : option string }.

(** [orderBy]: one [OrderByClause] or an array of them. *)
Inductive OrderByValue : Type :=
| OB_single (c : OrderByClause)
| OB_sequence (l : list OrderByClause).

Record WithDataCategoryCondition : Type := mkWithDataCategoryCondition {
  groupName : string;
  selector : string;
  parameters : list string }.

(** [withDataCategory: { conditions }]; [conditions] is [undefined] when
    the visited child is absent. *)
Record WithDataCategory : Type := mkWithDataCategory {
  conditions : option (list WithDataCategoryCondition) }.

(** [Partial<Query | Subquery>]: the [output] object of [selectStatement]. *)
Record QueryShape (Q : Type) : Type := mkQueryShape {
  fields : list (FieldType Q);
  sObject : option string;
  relationshipName : option string;
  sObjectAlias : option string;
  sObjectPrefix : option (list string);
  usingScope : option string;
  where_ : option (WhereClause Q);
  withSecurityEnforced : option bool;
  withDataCategory : option WithDataCategory;
  groupBy : option (GroupByClause Q);
  orderBy : option OrderByValue;
  limit : option JsNumber;
  offset : option JsNumber;
  for_ : option string;
  update : option string }.
Arguments mkQueryShape {Q}.
Arguments fields {Q}.
Arguments sObject {Q}.
Arguments relationshipName {Q}.
Arguments sObjectAlias {Q}.
Arguments sObjectPrefix {Q}.
Arguments usingScope {Q}.
Arguments where_ {Q}.
Arguments withSecurityEnforced {Q}.
Arguments withDataCategory {Q}.
Arguments groupBy {Q}.
Arguments orderBy {Q}.
Arguments limit {Q}.
Arguments offset {Q}.
Arguments for_ {Q}.
Arguments update {Q}.

Inductive Query : Type :=
| mkQuery (shape : QueryShape Query).

Definition shape (q : Query) : QueryShape Query :=
  let '(mkQuery s) := q in s.

(** ** The CST contexts ([../models])

    Contexts that can hold a nested [selectStatement] are parameterised by
    the type [S] of that node and closed by [SelectStatementContext]. *)

Record DateNLiteralContext : Type := mkDateNLiteralContext {
  dn_dateNLiteral : IToken;
  dn_variable : IToken }.

(** An element of [ctx.value] in [arrayExpression]: a token or a
    [dateNLiteral] node. *)
Inductive ArrayItem : Type :=
| ArrayToken (t : IToken)
| ArrayNode (n : DateNLiteralContext).

Record ArrayExpressionContext : Type := mkArrayExpressionContext {
  ae_value : list ArrayItem }.

Record AtomicExpressionContext (S : Type) : Type := mkAtomicExpressionContext {
  a_apexBindVariableExpression : list IToken;
  a_NumberIdentifier : list IToken;
  a_UnsignedInteger : list IToken;
  a_SignedInteger : list IToken;
  a_RealNumber : list IToken;
  a_DateIdentifier : list IToken;
  a_CurrencyPrefixedInteger : list IToken;
  a_CurrencyPrefixedDecimal : list IToken;
  a_DateTime : list IToken;
  a_date : list IToken;
  a_DateToken : list IToken;
  a_NULL : list IToken;
  a_StringIdentifier : list IToken;
  a_Identifier : list IToken;
  a_booleanValue : list IToken;
  a_DateLiteral : list IToken;
  a_dateNLiteral : list DateNLiteralContext;
  a_arrayExpression : list ArrayExpressionContext;
  a_whereClauseSubqueryIdentifier : list S }.
Arguments mkAtomicExpressionContext {S}.
Arguments a_apexBindVariableExpression {S}.
Arguments a_NumberIdentifier {S}.
Arguments a_UnsignedInteger {S}.
Arguments a_SignedInteger {S}.
Arguments a_RealNumber {S}.
Arguments a_DateIdentifier {S}.
Arguments a_CurrencyPrefixedInteger {S}.
Arguments a_CurrencyPrefixedDecimal {S}.
Arguments a_DateTime {S}.
Arguments a_date {S}.
Arguments a_DateToken {S}.
Arguments a_NULL {S}.
Arguments a_StringIdentifier {S}.
Arguments a_Identifier {S}.
Arguments a_booleanValue {S}.
Arguments a_DateLiteral {S}.
Arguments a_dateNLiteral {S}.
Arguments a_arrayExpression {S}.
Arguments a_whereClauseSubqueryIdentifier {S}.

(** [a_apexBindVariableExpression] holds the [Identifier] token of each
    [apexBindVariableExpression] node, [a_booleanValue] the [boolean] token
    of each [booleanValue] node, and [a_whereClauseSubqueryIdentifier] the
    [selectStatement] of each [whereClauseSubqueryIdentifier] node: these
    nodes have that single child. *)

(** The context of [expressionWithRelationalOperator] and of
    [expressionWithSetOperator]; [eo_relationalOperator] and
    [eo_setOperator] hold the [operator] token of each operator node. *)
Record ExpressionOperatorContext (S : Type) : Type := mkExpressionOperatorContext {
  eo_relationalOperator : list IToken;
  eo_setOperator : list IToken;
  eo_rhs : AtomicExpressionContext S }.
Arguments mkExpressionOperatorContext {S}.
Arguments eo_relationalOperator {S}.
Arguments eo_setOperator {S}.
Arguments eo_rhs {S}.

Record ExpressionContext (S : Type) : Type := mkExpressionContext {
  e_logicalPrefix : list IToken;
  e_lhs : TokOrFn;
  e_operator : ExpressionOperatorContext S;
  e_L_PAREN : list IToken;
  e_R_PAREN : list IToken }.
Arguments mkExpressionContext {S}.
Arguments e_logicalPrefix {S}.
Arguments e_lhs {S}.
Arguments e_operator {S}.
Arguments e_L_PAREN {S}.
Arguments e_R_PAREN {S}.

Record ConditionExpressionContext (S : Type) : Type := mkConditionExpressionContext {
  ce_logicalOperator : list IToken;
  ce_expression : ExpressionContext S }.
Arguments mkConditionExpressionContext {S}.
Arguments ce_logicalOperator {S}.
Arguments ce_expression {S}.

(** [WhereClauseContext] and [HavingClauseContext]. *)
Record ConditionsContext (S : Type) : Type := mkConditionsContext {
  cs_conditionExpression : list (ConditionExpressionContext S) }.
Arguments mkConditionsContext {S}.
Arguments cs_conditionExpression {S}.

Record GroupByFieldListContext : Type := mkGroupByFieldListContext {
  gfl_field : list IToken }.

Record GroupByClauseContext (S : Type) : Type := mkGroupByClauseContext {
  g_groupByFieldList : list GroupByFieldListContext;
  g_fn : list FnNode;
  g_havingClause : list (ConditionsContext S) }.
Arguments mkGroupByClauseContext {S}.
Arguments g_groupByFieldList {S}.
Arguments g_fn {S}.
Arguments g_havingClause {S}.

(** An element of [ctx.orderByExpressionOrFn]: the three rules that carry
    this label. *)
Inductive OrderByItem : Type :=
| orderByExpressionNode (Identifier : IToken) (order nulls : list IToken)
| orderByFunctionExpressionNode (fn : IToken) (functionExpression : list FnExprCtx)
    (order nulls : list IToken)
| orderByLocationExpressionNode (locationFunction : FnNode) (order nulls : list IToken).

Record OrderByClauseContext : Type := mkOrderByClauseContext {
  o_orderByExpressionOrFn : list OrderByItem }.

Record WithDataCategoryArrContext : Type := mkWithDataCategoryArrContext {
  wa_dataCategoryGroupName : IToken;
  wa_filteringSelector : IToken;
  wa_dataCategoryName : list IToken }.

Record WithDateCategoryContext : Type := mkWithDateCategoryContext {
  wd_withDataCategoryArr : list WithDataCategoryArrContext }.

Record WithClauseContext : Type := mkWithClauseContext {
  wc_withSecurityEnforced : list IToken;
  wc_withDataCategory : list WithDateCategoryContext }.

Record SelectClauseTypeOfThenContext : Type := mkSelectClauseTypeOfThenContext {
  tt_typeOfField : IToken;
  tt_field : list IToken }.

Record SelectClauseTypeOfElseContext : Type := mkSelectClauseTypeOfElseContext {
  te_field : list IToken }.

Record SelectClauseTypeOfContext : Type := mkSelectClauseTypeOfContext {
  to_typeOfField : IToken;
  to_selectClauseTypeOfThen : list SelectClauseTypeOfThenContext;
  to_selectClauseTypeOfElse : list SelectClauseTypeOfElseContext }.

(** An element of [ctx.field] in [selectClause]: a token, or a node of one
    of the four rules that carry this label. *)
Inductive SelectItem (S : Type) : Type :=
| SelectToken (t : IToken)
| selectClauseFunctionIdentifierNode (fn : FnNode) (alias : list IToken)
| selectClauseSubqueryIdentifierNode (selectStatement : S)
| selectClauseTypeOfNode (ctx : SelectClauseTypeOfContext)
| selectClauseIdentifierNode (field : IToken) (alias : list IToken).
Arguments SelectToken {S} t.
Arguments selectClauseFunctionIdentifierNode {S} fn alias.
Arguments selectClauseSubqueryIdentifierNode {S} selectStatement.
Arguments selectClauseTypeOfNode {S} ctx.
Arguments selectClauseIdentifierNode {S} field alias.

Record SelectClauseContext (S : Type) : Type := mkSelectClauseContext {
  sc_field : list (SelectItem S) }.
Arguments mkSelectClauseContext {S}.
Arguments sc_field {S}.

Record FromClauseContext : Type := mkFromClauseContext {
  fc_Identifier : IToken;
  fc_alias : list IToken }.

(** [ValueContext] of the rules with the single token child [value]
    ([limitClause], [offsetClause], [forViewOrReference],
    [updateTrackingViewstat]) is that token; [usingScopeClause] is its
    [UsingScopeEnumeration] token. *)
Record SelectStatementShape (S : Type) : Type := mkSelectStatementShape {
  ss_selectClause : SelectClauseContext S;
  ss_fromClause : FromClauseContext;
  ss_usingScopeClause : list IToken;
  ss_whereClause : list (ConditionsContext S);
  ss_withClause : list WithClauseContext;
  ss_groupByClause : list (GroupByClauseContext S);
  ss_orderByClause : list OrderByClauseContext;
  ss_limitClause : list IToken;
  ss_offsetClause : list IToken;
  ss_forViewOrReference : list IToken;
  ss_updateTrackingViewstat : list IToken }.
Arguments mkSelectStatementShape {S}.
Arguments ss_selectClause {S}.
Arguments ss_fromClause {S}.
Arguments ss_usingScopeClause {S}.
Arguments ss_whereClause {S}.
Arguments ss_withClause {S}.
Arguments ss_groupByClause {S}.
Arguments ss_orderByClause {S}.
Arguments ss_limitClause {S}.
Arguments ss_offsetClause {S}.
Arguments ss_forViewOrReference {S}.
Arguments ss_updateTrackingViewstat {S}.

Inductive SelectStatementContext : Type :=
| mkSelectStatementContext (ctx : SelectStatementShape SelectStatementContext).

(** ** The visitor [SOQLVisitor] *)

Definition BOOLEANS : list string := ["TRUE"; "FALSE"].

Definition DATE_LITERALS : list string :=
  ["YESTERDAY"; "TODAY"; "TOMORROW"; "LAST_WEEK"; "THIS_WEEK"; "NEXT_WEEK";
   "LAST_MONTH"; "THIS_MONTH"; "NEXT_MONTH"; "LAST_90_DAYS"; "NEXT_90_DAYS";
   "THIS_QUARTER"; "LAST_QUARTER"; "NEXT_QUARTER"; "THIS_YEAR"; "LAST_YEAR";
   "NEXT_YEAR"; "THIS_FISCAL_QUARTER"; "LAST_FISCAL_QUARTER";
   "NEXT_FISCAL_QUARTER"; "THIS_FISCAL_YEAR"; "LAST_FISCAL_YEAR";
   "NEXT_FISCAL_YEAR"].

Definition DATE_N_LITERALS : list string :=
  ["NEXT_N_DAYS"; "LAST_N_DAYS"; "N_DAYS_AGO"; "NEXT_N_WEEKS"; "LAST_N_WEEKS";
   "N_WEEKS_AGO"; "NEXT_N_MONTHS"; "LAST_N_MONTHS"; "N_MONTHS_AGO";
   "NEXT_N_QUARTERS"; "LAST_N_QUARTERS"; "N_QUARTERS_AGO"; "NEXT_N_YEARS";
   "LAST_N_YEARS"; "N_YEARS_AGO"; "NEXT_N_FISCAL_QUARTERS";
   "LAST_N_FISCAL_QUARTERS"; "N_FISCAL_QUARTERS_AGO"; "NEXT_N_FISCAL_YEARS";
   "LAST_N_FISCAL_YEARS"; "N_FISCAL_YEARS_AGO"].

(** [array.includes(x)] on an array of strings. *)
Definition array_includes (l : list string) (x : string) : bool :=
  existsb (String.eqb x) l.

(** [$_getLiteralTypeFromTokenType] *)
Definition getLiteralTypeFromTokenType (tokenTypeName_ : string) : string :=
  if String.eqb tokenTypeName_ "REAL_NUMBER" then "DECIMAL"
  else if String.eqb tokenTypeName_ "CURRENCY_PREFIXED_DECIMAL" then "DECIMAL_WITH_CURRENCY_PREFIX"
  else if String.eqb tokenTypeName_ "CURRENCY_PREFIXED_INTEGER" then "INTEGER_WITH_CURRENCY_PREFIX"
  else if String.eqb tokenTypeName_ "SIGNED_DECIMAL" then "DECIMAL"
  else if String.eqb tokenTypeName_ "UNSIGNED_DECIMAL" then "DECIMAL"
  else if String.eqb tokenTypeName_ "UNSIGNED_INTEGER" then "INTEGER"
  else if String.eqb tokenTypeName_ "SIGNED_INTEGER" then "INTEGER"
  else if String.eqb tokenTypeName_ "DATETIME" then "DATETIME"
  else if String.eqb tokenTypeName_ "DATE" then "DATE"
  else if String.eqb tokenTypeName_ "NULL" then "NULL"
  else if String.eqb tokenTypeName_ "StringIdentifier" then "STRING"
  else if String.eqb tokenTypeName_ "Identifier" then "STRING"
  else if array_includes BOOLEANS tokenTypeName_ then "BOOLEAN"
  else if array_includes DATE_LITERALS tokenTypeName_ then "DATE_LITERAL"
  else if array_includes DATE_N_LITERALS tokenTypeName_ then "DATE_N_LITERAL"
  else "STRING".

(** The same on a [type] property that may be [undefined]: every
    comparison fails and the last branch answers. *)
Definition getLiteralTypeFromType (type : option string) : string :=
  match type with
  | Some n => getLiteralTypeFromTokenType n
  | None => "STRING"
  end.

(** [ArrayExpressionWithType], also the object [dateNLiteral] returns:
    [{ type?, value, variable? }]. *)
Record ArrayExpressionWithType : Type := mkArrayExpressionWithType {
  aet_type : option string;
  aet_value : string;
  aet_variable : option JsNumber }.

(** [dateNLiteral(ctx, options?)]; [options] is [undefined] or
    [{ includeType: true }]. *)
Definition dateNLiteral (ctx : DateNLiteralContext) (o : option Options)
  : ArrayExpressionWithType :=
  {| aet_type :=
       match o with
       | Some o' => if includeType o' then Some (tokenTypeName (dn_dateNLiteral ctx)) else None
       | None => None
       end;
     aet_value := image (dn_dateNLiteral ctx) ++ ":" ++ image (dn_variable ctx);
     aet_variable := Some (Number_ (image (dn_variable ctx))) |}.

(** Calling a method of an absent child, as in [ctx.value.map(...)]. *)
Definition undefined_deref {A} : Completion A :=
  Throw (TypeError "Cannot read property of undefined").

(** [xs.map(f)] for a callback that may throw. *)
Definition mapC {A B} (f : A -> Completion B) : list A -> Completion (list B) :=
  fix go (l : list A) : Completion (list B) :=
    match l with
    | [] => Normal []
    | x :: l' => y <- f x;; ys <- go l';; Normal (y :: ys)
    end.

(** [xs.map(f)] on a child that must be present. *)
Definition map_present {A B} (f : A -> B) (l : list A) : Completion (list B) :=
  match l with
  | [] => undefined_deref
  | _ => Normal (map f l)
  end.

(** The callback of [ctx.value.map] in [arrayExpression]. *)
Definition arrayExpression_item (item : ArrayItem) : ArrayExpressionWithType :=
  match item with
  | ArrayToken t =>
      {| aet_type := Some (tokenTypeName t); aet_value := image t; aet_variable := None |}
  | ArrayNode n => dateNLiteral n (Some (mkOptions true))
  end.

Definition arrayExpression (ctx : ArrayExpressionContext)
  : Completion (list ArrayExpressionWithType) :=
  map_present arrayExpression_item (ae_value ctx).

(** [item.variable || null] *)
Definition variable_or_null (v : option JsNumber) : option JsNumber :=
  match v with
  | Some n => if truthy_number n then Some n else None
  | None => None
  end.

(** [!isNull(item)] *)
Definition not_null (item : option JsNumber) : bool :=
  match item with Some _ => true | None => false end.

(** [new Set(xs).size] *)
Definition Set_size (xs : list (option string)) : nat :=
  List.length (remove_dups xs).

(** [literalType || 'STRING'] *)
Definition literalType_or_STRING (lt : LiteralTypeValue) : LiteralTypeValue :=
  match lt with
  | LT_one tag => if truthy_string tag then LT_one tag else LT_one "STRING"
  | LT_many tags => LT_many tags
  end.

(** What [atomicExpression] returns when [options.returnLiteralType] holds,
    as it does at its call sites. *)
Record AtomicResult (Q : Type) : Type := mkAtomicResult {
  ar_value : option (RhsValue Q);
  ar_literalType : option LiteralTypeValue;
  ar_dateLiteralVariable : option DateLiteralVariable }.
Arguments mkAtomicResult {Q}.
Arguments ar_value {Q}.
Arguments ar_literalType {Q}.
Arguments ar_dateLiteralVariable {Q}.

(** The array branch of [atomicExpression]. *)
Definition atomicExpression_array {Q} (arrayValues : list ArrayExpressionWithType)
  : AtomicResult Q :=
  let value := map aet_value arrayValues in
  let dateLiteralTemp := map (fun item => variable_or_null (aet_variable item)) arrayValues in
  let hasDateLiterals := existsb not_null dateLiteralTemp in
  let literalType :=
    if Nat.eqb (Set_size (map aet_type arrayValues)) 1
    then LT_one (getLiteralTypeFromType
                   (match arrayValues with item :: _ => aet_type item | [] => None end))
    else LT_many (map (fun item => getLiteralTypeFromType (aet_type item)) arrayValues) in
  {| ar_value := Some (V_array value);
     ar_literalType := Some (literalType_or_STRING literalType);
     ar_dateLiteralVariable :=
       if hasDateLiterals then Some (DLV_array dateLiteralTemp) else None |}.

(** A branch of [atomicExpression] that sets [value] and [literalType]. *)
Definition scalar {Q} (value tag : string) : Completion (AtomicResult Q) :=
  Normal {| ar_value := Some (V_string value); ar_literalType := Some (LT_one tag);
            ar_dateLiteralVariable := None |}.

Section Builder.
Context {S Q : Type}.

(** [this.visit(ctx.selectStatement, { isSubquery })] *)
Variable visitSelect : bool -> S -> Completion Q.

Definition atomicExpression (ctx : AtomicExpressionContext S)
  : Completion (AtomicResult Q) :=
  match a_apexBindVariableExpression ctx with
  | t :: _ => scalar (image t) "APEX_BIND_VARIABLE"
  | [] =>
  match a_NumberIdentifier ctx with
  | t :: _ => scalar (image t) (getLiteralTypeFromTokenType (tokenTypeName t))
  | [] =>
  match a_UnsignedInteger ctx with
  | t :: _ => scalar (image t) "INTEGER"
  | [] =>
  match a_SignedInteger ctx with
  | t :: _ => scalar (image t) "INTEGER"
  | [] =>
  match a_RealNumber ctx with
  | t :: _ => scalar (image t) "DECIMAL"
  | [] =>
  match a_DateIdentifier ctx with
  | t :: _ => scalar (image t) (getLiteralTypeFromTokenType (tokenTypeName t))
  | [] =>
  match a_CurrencyPrefixedInteger ctx with
  | t :: _ => scalar (image t) "INTEGER_WITH_CURRENCY_PREFIX"
  | [] =>
  match a_CurrencyPrefixedDecimal ctx with
  | t :: _ => scalar (image t) "DECIMAL_WITH_CURRENCY_PREFIX"
  | [] =>
  match a_DateTime ctx with
  | t :: _ => scalar (image t) "DATETIME"
  | [] =>
  match a_date ctx with
  | _ :: _ =>
      match a_DateToken ctx with
      | t :: _ => scalar (image t) "DATE"
      | [] => undefined_deref
      end
  | [] =>
  match a_NULL ctx with
  | _ :: _ => scalar "NULL" "NULL"
  | [] =>
  match a_StringIdentifier ctx with
  | t :: _ => scalar (image t) "STRING"
  | [] =>
  match a_Identifier ctx with
  | t :: _ => scalar (image t) "STRING"
  | [] =>
  match a_booleanValue ctx with
  | t :: _ => scalar (tokenTypeName t) "BOOLEAN"
  | [] =>
  match a_DateLiteral ctx with
  | t :: _ => scalar (image t) "DATE_LITERAL"
  | [] =>
  match a_dateNLiteral ctx with
  | n :: _ =>
      let valueAndVariable := dateNLiteral n None in
      Normal {| ar_value := Some (V_string (aet_value valueAndVariable));
                ar_literalType := Some (LT_one "DATE_N_LITERAL");
                ar_dateLiteralVariable :=
                  DLV_number <$> aet_variable valueAndVariable |}
  | [] =>
  match a_arrayExpression ctx with
  | arr :: _ =>
      arrayValues <- arrayExpression arr;;
      Normal (atomicExpression_array arrayValues)
  | [] =>
  match a_whereClauseSubqueryIdentifier ctx with
  | s :: _ =>
      q <- visitSelect false s;;
      Normal {| ar_value := Some (V_query q); ar_literalType := Some (LT_one "SUBQUERY");
                ar_dateLiteralVariable := None |}
  | [] =>
      Normal {| ar_value := None; ar_literalType := None;
                ar_dateLiteralVariable := None |}
  end end end end end end end end end end end end end end end end end end.

(** [relationalOperator] returns the image, [setOperator] the token type
    name with its first underscore replaced by a space. *)
Definition relationalOperator (operator : IToken) : string := image operator.

Definition setOperator (operator : IToken) : string :=
  replace_first "_"%char " "%char (tokenTypeName operator).

(** [this.visit(ctx.relationalOperator) || this.visit(ctx.setOperator)] *)
Definition visit_operator (ctx : ExpressionOperatorContext S) : option string :=
  let b := match eo_setOperator ctx with
           | t :: _ => Some (setOperator t)
           | [] => None
           end in
  match eo_relationalOperator ctx with
  | t :: _ => if truthy_string (relationalOperator t) then Some (relationalOperator t) else b
  | [] => b
  end.

(** [expressionWithRelationalOperator] and [expressionWithSetOperator]
    have the same body: [{ operator, ...atomic }]. *)
Definition expressionWithOperator (ctx : ExpressionOperatorContext S)
  : Completion (option string * AtomicResult Q) :=
  let operator := visit_operator ctx in
  r <- atomicExpression (eo_rhs ctx);;
  Normal (operator, r).

(** [literalType === 'SUBQUERY'] *)
Definition is_SUBQUERY (lt : option LiteralTypeValue) : bool :=
  match lt with
  | Some (LT_one tag) => String.eqb tag "SUBQUERY"
  | _ => false
  end.

(** Truthiness of [dateLiteralVariable]: an array is truthy. *)
Definition truthy_dateLiteralVariable (v : option DateLiteralVariable) : bool :=
  match v with
  | Some (DLV_number n) => truthy_number n
  | Some (DLV_array _) => true
  | None => false
  end.

(** [if (ctx.X) { output.p = ctx.X.length }] *)
Definition paren_count (parens : list IToken) : option nat :=
  match parens with
  | [] => None
  | _ => Some (List.length parens)
  end.

Definition expression (ctx : ExpressionContext S) : Completion (Condition Q) :=
  res <- expressionWithOperator (e_operator ctx);;
  let '(operator, r) := res in
  let value := ar_value r in
  let literalType := ar_literalType r in
  let dateLiteralVariable := ar_dateLiteralVariable r in
  Normal
    {| c_logicalPrefix :=
         match e_logicalPrefix ctx with t :: _ => Some (image t) | [] => None end;
       c_field := match e_lhs ctx with IsTok t => Some (image t) | IsFn _ => None end;
       c_fn := match e_lhs ctx with
               | IsTok _ => None
               | IsFn n => Some (visitFn (Some (mkOptions false)) n)
               end;
       c_operator := operator;
       c_valueQuery := if is_SUBQUERY literalType then value else None;
       c_value := if is_SUBQUERY literalType then None else value;
       c_literalType := if is_SUBQUERY literalType then None else literalType;
       c_dateLiteralVariable :=
         if truthy_dateLiteralVariable dateLiteralVariable then dateLiteralVariable
         else None;
       c_openParen := paren_count (e_L_PAREN ctx);
       c_closeParen := paren_count (e_R_PAREN ctx) |}.

(** *** The chain of [whereClause] and [havingClause]

    The accumulator of the [reduce] holds [expressionTree] and
    [prevExpression], a reference into the same tree: to its last node,
    the one without [right] (a node just built by [conditionExpression]
    has no [right], and [prevExpression] moves to each node as it is
    linked).  An assignment through [prevExpression] is an update of the
    last node of [expressionTree]. *)

(** [prevExpression.operator = op] *)
Fixpoint set_last_operator (op : string) (tree : WhereClause Q) : WhereClause Q :=
  match tree with
  | mkWhere l o None => mkWhere l (Some op) None
  | mkWhere l o (Some r) => mkWhere l o (Some (set_last_operator op r))
  end.

(** [prevExpression.right = node] *)
Fixpoint set_last_right (node : WhereClause Q) (tree : WhereClause Q) : WhereClause Q :=
  match tree with
  | mkWhere l o None => mkWhere l o (Some node)
  | mkWhere l o (Some r) => mkWhere l o (Some (set_last_right node r))
  end.

(** [conditionExpression(ctx, { prevExpression })]: the tree after the
    assignment to [prevExpression.operator], and the node returned. *)
Definition conditionExpression (ctx : ConditionExpressionContext S)
    (expressionTree : option (WhereClause Q))
  : Completion (option (WhereClause Q) * WhereClause Q) :=
  let tree :=
    match expressionTree, ce_logicalOperator ctx with
    | Some t, op :: _ => Some (set_last_operator (tokenTypeName op) t)
    | _, _ => expressionTree
    end in
  left <- expression (ce_expression ctx);;
  Normal (tree, mkWhere left None None).

(** The callback of the [reduce]. *)
Definition reduce_step (acc : Completion (option (WhereClause Q)))
    (currExpression : ConditionExpressionContext S)
  : Completion (option (WhereClause Q)) :=
  expressions <- acc;;
  match expressions with
  | None =>
      res <- conditionExpression currExpression None;;
      let '(_, node) := res in
      Normal (Some node)
  | Some _ =>
      res <- conditionExpression currExpression expressions;;
      let '(tree, node) := res in
      Normal (set_last_right node <$> tree)
  end.

(** [whereClause] and [havingClause] have the same body. *)
Definition whereClause (ctx : ConditionsContext S) : Completion (option (WhereClause Q)) :=
  match cs_conditionExpression ctx with
  | [] => undefined_deref
  | conditions => fold_left reduce_step conditions (Normal None)
  end.

Definition havingClause (ctx : ConditionsContext S) : Completion (option (WhereClause Q)) :=
  whereClause ctx.

End Builder.

(** *** FROM *)

Record FromClauseResult : Type := mkFromClauseResult {
  fr_sObjectPrefix : option (list string);
  fr_sObject : string;
  fr_alias : option string }.

Definition fromClause (ctx : FromClauseContext) : FromClauseResult :=
  let sObject := image (fc_Identifier ctx) in
  let alias := match fc_alias ctx with t :: _ => Some (image t) | [] => None end in
  if includes dot sObject then
    let sObjectPrefix := split dot sObject in
    {| fr_sObjectPrefix := Some (init_segments sObjectPrefix);
       fr_sObject := last_segment sObjectPrefix;
       fr_alias := alias |}
  else
    {| fr_sObjectPrefix := None; fr_sObject := sObject; fr_alias := alias |}.

(** *** WITH *)

Definition withDataCategoryArr (ctx : WithDataCategoryArrContext)
  : Completion WithDataCategoryCondition :=
  parameters_ <- map_present image (wa_dataCategoryName ctx);;
  Normal {| groupName := image (wa_dataCategoryGroupName ctx);
            selector := image (wa_filteringSelector ctx);
            parameters := parameters_ |}.

Definition withDataCategory_ (ctx : WithDateCategoryContext)
  : Completion (list WithDataCategoryCondition) :=
  match wd_withDataCategoryArr ctx with
  | [] => undefined_deref
  | arr => mapC withDataCategoryArr arr
  end.

Record WithClauseResult : Type := mkWithClauseResult {
  wr_withSecurityEnforced : option bool;
  wr_withDataCategory : option WithDataCategory }.

Definition withClause (ctx : WithClauseContext) : Completion WithClauseResult :=
  match wc_withSecurityEnforced ctx with
  | _ :: _ =>
      Normal {| wr_withSecurityEnforced := Some true; wr_withDataCategory := None |}
  | [] =>
      match wc_withDataCategory ctx with
      | c :: _ =>
          conditions_ <- withDataCategory_ c;;
          Normal {| wr_withSecurityEnforced := None;
                    wr_withDataCategory := Some {| conditions := Some conditions_ |} |}
      | [] =>
          Normal {| wr_withSecurityEnforced := None;
                    wr_withDataCategory := Some {| conditions := None |} |}
      end
  end.

(** *** ORDER BY *)

(** [$_getFieldFunction(ctx, isAggregateFn, includeType)] on the children
    [fn] and [functionExpression] of [ctx]. *)
Definition getFieldFunction (fn : IToken) (fes : list FnExprCtx)
    (isAggregateFn includeType_ : bool) : FunctionExp :=
  getFieldFunction_output fn
    (match fes with
     | [] => []
     | fe0 :: _ =>
         List.concat (map (fun _ => functionExpression (mkOptions includeType_) fe0) fes)
     end)
    isAggregateFn includeType_.

(** [ctx.order && ctx.order[0]] then [tokenType.name] *)
Definition first_tokenTypeName (l : list IToken) : option string :=
  match l with t :: _ => Some (tokenTypeName t) | [] => None end.

Definition visitOrderByItem (item : OrderByItem) : OrderByClause :=
  match item with
  | orderByExpressionNode Identifier order nulls =>
      {| ob_field := Some (image Identifier); ob_fn := None;
         ob_order := first_tokenTypeName order; ob_nulls := first_tokenTypeName nulls |}
  | orderByFunctionExpressionNode fn fes order nulls =>
      {| ob_field := None; ob_fn := Some (getFieldFunction fn fes false false);
         ob_order := first_tokenTypeName order; ob_nulls := first_tokenTypeName nulls |}
  | orderByLocationExpressionNode locationFunction order nulls =>
      {| ob_field := None;
         ob_fn := Some (visitFn (Some (mkOptions false)) locationFunction);
         ob_order := first_tokenTypeName order; ob_nulls := first_tokenTypeName nulls |}
  end.

Definition orderByClause (ctx : OrderByClauseContext) : Completion OrderByValue :=
  match o_orderByExpressionOrFn ctx with
  | [] => undefined_deref
  | [item] => Normal (OB_single (visitOrderByItem item))
  | items => Normal (OB_sequence (map visitOrderByItem items))
  end.

(** *** GROUP BY field lists *)

Definition groupByFieldList (ctx : GroupByFieldListContext) : Completion GroupByField :=
  match gfl_field ctx with
  | [] => undefined_deref
  | [t] => Normal (GBF_string (image t))
  | ts => Normal (GBF_strings (map image ts))
  end.

(** Truthiness of [field] in [groupByClause]: an array is truthy, a string
    unless it is empty. *)
Definition truthy_groupByField (f : GroupByFieldValue) : bool :=
  match f with
  | GB_single (GBF_string s) => truthy_string s
  | _ => true
  end.

(** *** SELECT items without subqueries *)

(** The object built from the image of a projected identifier. *)
Definition field_of_image (field : string) : FieldNode :=
  if negb (includes dot field) then
    {| f_type := "Field"; f_field := field; f_relationships := None;
       f_objectPrefix := None; f_alias := None; f_rawValue := None |}
  else
    let splitFields := split dot field in
    {| f_type := "FieldRelationship"; f_field := last_segment splitFields;
       f_relationships := Some (init_segments splitFields);
       f_objectPrefix := None; f_alias := None; f_rawValue := Some field |}.

Definition set_alias (a : string) (n : FieldNode) : FieldNode :=
  {| f_type := f_type n; f_field := f_field n; f_relationships := f_relationships n;
     f_objectPrefix := f_objectPrefix n; f_alias := Some a; f_rawValue := f_rawValue n |}.

Definition selectClauseIdentifier (field : IToken) (alias : list IToken) : FieldNode :=
  let output := field_of_image (image field) in
  match alias with
  | t :: _ => if truthy_string (image t) then set_alias (image t) output else output
  | [] => output
  end.

Definition selectClauseFunctionIdentifier (fn : FnNode) (alias : list IToken) : FunctionExp :=
  let output := visitFn None fn in
  match alias with
  | t :: _ => fn_set_alias (image t) output
  | [] => output
  end.

Definition selectClauseTypeOfThen (ctx : SelectClauseTypeOfThenContext)
  : Completion FieldTypeOfCondition :=
  fieldList <- map_present image (tt_field ctx);;
  Normal {| toc_type := "WHEN"; toc_objectType := Some (image (tt_typeOfField ctx));
            toc_fieldList := fieldList |}.

Definition selectClauseTypeOfElse (ctx : SelectClauseTypeOfElseContext)
  : Completion FieldTypeOfCondition :=
  fieldList <- map_present image (te_field ctx);;
  Normal {| toc_type := "ELSE"; toc_objectType := None; toc_fieldList := fieldList |}.

Definition selectClauseTypeOf {Q} (ctx : SelectClauseTypeOfContext)
  : Completion (FieldType Q) :=
  match to_selectClauseTypeOfThen ctx with
  | [] => undefined_deref
  | thens =>
      conditions_ <- mapC selectClauseTypeOfThen thens;;
      match to_selectClauseTypeOfElse ctx with
      | e :: _ =>
          c <- selectClauseTypeOfElse e;;
          Normal (FieldTypeof (image (to_typeOfField ctx)) (conditions_ ++ [c])%list)
      | [] => Normal (FieldTypeof (image (to_typeOfField ctx)) conditions_)
      end
  end.

(** *** The alias pass of [selectStatement]

    The callback of [output.fields.forEach]; only an object with a
    [relationships] property is touched. *)
Definition resolve_alias_node (sObjectAlias_ : string) (field : FieldNode) : FieldNode :=
  let field1 :=
    match f_relationships field with
    | Some (r0 :: rest) =>
        if String.eqb r0 sObjectAlias_ then
          {| f_type := f_type field; f_field := f_field field;
             f_relationships := Some rest; f_objectPrefix := Some sObjectAlias_;
             f_alias := f_alias field; f_rawValue := f_rawValue field |}
        else field
    | _ => field
    end in
  match f_relationships field1 with
  | Some [] =>
      {| f_type := "Field"; f_field := f_field field1; f_relationships := None;
         f_objectPrefix := f_objectPrefix field1; f_alias := f_alias field1;
         f_rawValue := f_rawValue field1 |}
  | _ => field1
  end.

Definition resolve_alias {Q} (sObjectAlias_ : string) (field : FieldType Q) : FieldType Q :=
  match field with
  | FieldOrRelationship n => FieldOrRelationship (resolve_alias_node sObjectAlias_ n)
  | other => other
  end.

Section Statement.
Context {S Q : Type}.

(** [this.visit(ctx.selectStatement, { isSubquery })] *)
Variable visitSelect : bool -> S -> Completion Q.

Definition groupByClause (ctx : GroupByClauseContext S) : Completion (GroupByClause Q) :=
  field <- match g_groupByFieldList ctx with
           | [] => Normal None
           | lists =>
               visited <- mapC groupByFieldList lists;;
               Normal (Some match visited with
                            | [f] => GB_single f
                            | fs => GB_sequence fs
                            end)
           end;;
  let fn := match g_fn ctx with
            | n :: _ => Some (visitFn (Some (mkOptions false)) n)
            | [] => None
            end in
  having <- match g_havingClause ctx with
            | h :: _ => havingClause visitSelect h
            | [] => Normal None
            end;;
  Normal {| gb_field := match field with
                        | Some f => if truthy_groupByField f then Some f else None
                        | None => None
                        end;
            gb_fn := fn;
            gb_having := having |}.

(** [this.visit(item)] on an element of [ctx.field], or the object built
    in place when the element is a token. *)
Definition selectItem (item : SelectItem S) : Completion (FieldType Q) :=
  match item with
  | SelectToken t => Normal (FieldOrRelationship (field_of_image (image t)))
  | selectClauseFunctionIdentifierNode fn alias =>
      Normal (FieldFunction (selectClauseFunctionIdentifier fn alias))
  | selectClauseSubqueryIdentifierNode s =>
      subquery <- visitSelect true s;;
      Normal (FieldSubquery subquery)
  | selectClauseTypeOfNode ctx => selectClauseTypeOf ctx
  | selectClauseIdentifierNode field alias =>
      Normal (FieldOrRelationship (selectClauseIdentifier field alias))
  end.

(** When [ctx.field] is absent the result is the empty array. *)
Definition selectClause (ctx : SelectClauseContext S) : Completion (list (FieldType Q)) :=
  mapC selectItem (sc_field ctx).

(** [if (alias) { output.sObjectAlias = alias }] *)
Definition truthy_alias (alias : option string) : option string :=
  match alias with
  | Some a => if truthy_string a then Some a else None
  | None => None
  end.

(** [if (!!output.sObjectAlias) { output.fields.forEach(...) }] *)
Definition alias_pass (sObjectAlias_ : option string) (fs : list (FieldType Q))
  : list (FieldType Q) :=
  match truthy_alias sObjectAlias_ with
  | Some a => map (resolve_alias a) fs
  | None => fs
  end.

(** The [forEach] over [ctx.withClause]: a later clause overwrites. *)
Definition apply_withClauses (rs : list WithClauseResult)
  : option bool * option WithDataCategory :=
  fold_left
    (fun acc r =>
       (match wr_withSecurityEnforced r with
        | Some true => Some true
        | _ => fst acc
        end,
        match wr_withDataCategory r with
        | Some d => Some d
        | None => snd acc
        end))
    rs (None, None).

Definition first_image (l : list IToken) : option string :=
  match l with t :: _ => Some (image t) | [] => None end.

(** The body of [selectStatement(ctx, options)], [isSubquery] being
    [(options || { isSubquery: false }).isSubquery];
    [isSubqueryFromFlag(output, isSubquery)] of [../utils] is the flag. *)
Definition selectStatement_body (isSubquery : bool) (ctx : SelectStatementShape S)
  : Completion (QueryShape Q) :=
  fields0 <- selectClause (ss_selectClause ctx);;
  let from := fromClause (ss_fromClause ctx) in
  let sObjectAlias_ := truthy_alias (fr_alias from) in
  let fields_ := alias_pass sObjectAlias_ fields0 in
  let usingScope_ := first_image (ss_usingScopeClause ctx) in
  where' <- match ss_whereClause ctx with
            | w :: _ => whereClause visitSelect w
            | [] => Normal None
            end;;
  withs <- mapC withClause (ss_withClause ctx);;
  groupBy_ <- match ss_groupByClause ctx with
              | g :: _ => Some <$> groupByClause g
              | [] => Normal None
              end;;
  orderBy_ <- match ss_orderByClause ctx with
              | o :: _ => Some <$> orderByClause o
              | [] => Normal None
              end;;
  Normal
    {| fields := fields_;
       sObject := if isSubquery then None else Some (fr_sObject from);
       relationshipName := if isSubquery then Some (fr_sObject from) else None;
       sObjectAlias := sObjectAlias_;
       sObjectPrefix := if isSubquery then fr_sObjectPrefix from else None;
       usingScope := usingScope_;
       where_ := where';
       withSecurityEnforced := fst (apply_withClauses withs);
       withDataCategory := snd (apply_withClauses withs);
       groupBy := groupBy_;
       orderBy := orderBy_;
       limit := Number_ <$> first_image (ss_limitClause ctx);
       offset := Number_ <$> first_image (ss_offsetClause ctx);
       for_ := first_tokenTypeName (ss_forViewOrReference ctx);
       update := first_tokenTypeName (ss_updateTrackingViewstat ctx) |}.

End Statement.

(** [selectStatement]: the recursion through nested [selectStatement]
    nodes (subquery projections and subqueries of conditions). *)
Fixpoint selectStatement (isSubquery : bool) (node : SelectStatementContext)
  : Completion Query :=
  match node with
  | mkSelectStatementContext ctx =>
      mkQuery <$> selectStatement_body selectStatement isSubquery ctx
  end.

(** ** The facade of the visitor

    [parse] of [./parser] (the lexer and the grammar) is not part of the
    development: it is a parameter, returning the CST of the top-level
    [selectStatement] or throwing. *)
Section Facade.
Variable ParseQueryConfig : Type.
Variable parse : string -> option ParseQueryConfig -> Completion SelectStatementContext.

(** [visitor.visit(parse(soql, options))]: [visit] calls
    [selectStatement(ctx)] without options. *)
Definition parseQuery (soql : string) (options : option ParseQueryConfig)
  : Completion Query :=
  cst <- parse soql options;;
  selectStatement false cst.

Definition isQueryValid (soql : string) (options : option ParseQueryConfig)
  : Completion bool :=
  try_catch (_ <- parse soql options;; Normal true) (fun ex => Normal false).

End Facade.

(** ** Well-formed CSTs

    Modelled from the spec: the parser ([./parser]) and the context types
    ([../models]) are absent.  Section 4.2 of the specification gives the
    repeated children below at least one element (a WHERE or HAVING clause
    has a condition, an array literal an element, a TYPEOF a WHEN branch
    and each branch a field, an ORDER BY a criterion, a GROUP BY field list
    a field, a data category filter a category), and section 7 excludes
    builder errors on accepted input; the one child read under the test of
    another key, [DateToken] under [date], is then present with it.  [P] is
    the same requirement on the nested [selectStatement] nodes. *)
Section WellFormed.
Context {S : Type} (P : S -> Prop).

Definition wf_atomic (ctx : AtomicExpressionContext S) : Prop :=
  (a_date ctx <> [] -> a_DateToken ctx <> [])
  /\ Forall (fun arr => ae_value arr <> []) (a_arrayExpression ctx)
  /\ Forall P (a_whereClauseSubqueryIdentifier ctx).

Definition wf_condition (c : ConditionExpressionContext S) : Prop :=
  wf_atomic (eo_rhs (e_operator (ce_expression c))).

Definition wf_conditions (ctx : ConditionsContext S) : Prop :=
  cs_conditionExpression ctx <> []
  /\ Forall wf_condition (cs_conditionExpression ctx).

Definition wf_groupBy (ctx : GroupByClauseContext S) : Prop :=
  Forall (fun l => gfl_field l <> []) (g_groupByFieldList ctx)
  /\ Forall wf_conditions (g_havingClause ctx).

Definition wf_typeOf (ctx : SelectClauseTypeOfContext) : Prop :=
  to_selectClauseTypeOfThen ctx <> []
  /\ Forall (fun t => tt_field t <> []) (to_selectClauseTypeOfThen ctx)
  /\ Forall (fun e => te_field e <> []) (to_selectClauseTypeOfElse ctx).

Definition wf_selectItem (item : SelectItem S) : Prop :=
  match item with
  | selectClauseSubqueryIdentifierNode s => P s
  | selectClauseTypeOfNode ctx => wf_typeOf ctx
  | _ => True
  end.

Definition wf_dataCategory (d : WithDateCategoryContext) : Prop :=
  wd_withDataCategoryArr d <> []
  /\ Forall (fun a => wa_dataCategoryName a <> []) (wd_withDataCategoryArr d).

Definition wf_with (ctx : WithClauseContext) : Prop :=
  Forall wf_dataCategory (wc_withDataCategory ctx).

Definition wf_orderBy (ctx : OrderByClauseContext) : Prop :=
  o_orderByExpressionOrFn ctx <> [].

Definition wf_statement (ctx : SelectStatementShape S) : Prop :=
  Forall wf_selectItem (sc_field (ss_selectClause ctx))
  /\ Forall wf_conditions (ss_whereClause ctx)
  /\ Forall wf_with (ss_withClause ctx)
  /\ Forall wf_groupBy (ss_groupByClause ctx)
  /\ Forall wf_orderBy (ss_orderByClause ctx).

End WellFormed.

(** Well-formedness of a statement whose subqueries nest at most [n]
    deep, and of any statement. *)
Fixpoint well_formed_upto (n : nat) (node : SelectStatementContext) : Prop :=
  match n with
  | O => False
  | Datatypes.S n' =>
      match node with
      | mkSelectStatementContext ctx => wf_statement (well_formed_upto n') ctx
      end
  end.

Definition well_formed (node : SelectStatementContext) : Prop :=
  exists n, well_formed_upto n node.

(** ** The ANTLR facade ([src/app/SoqlParser.ts])

    [config] is an object the caller shares with [parseQuery]: objects live
    in a heap and are passed by reference.  An object is a finite map from
    property names to values, an absent key reading as [undefined]. *)
Module SoqlParser.

Inductive JsValue : Type :=
| VUndefined
| VNull
| VBool (b : bool)
| VNumber (n : JsNumber)
| VString (s : string).

Abbreviation Obj := (gmap string JsValue).
Abbreviation Heap := (gmap nat (gmap string JsValue)).

(** [o.k] *)
Definition get (o : Obj) (k : string) : JsValue := default VUndefined (o !! k).

(** [_.isBoolean] *)
Definition isBoolean (v : JsValue) : bool :=
  match v with VBool _ => true | _ => false end.

(** [config.k = _.isBoolean(config.k) ? config.k : d] *)
Definition assign_default (k : string) (d : bool) (config : Obj) : Obj :=
  <[k := if isBoolean (get config k) then get config k else VBool d]> config.

(** The three assignments of [configureDefaults], on the object. *)
Definition configureDefaults_obj (config : Obj) : Obj :=
  assign_default "includeSubqueryAsField" true
    (assign_default "logging" false
       (assign_default "continueIfErrors" false config)).

(** The boolean held by [config.k], or [d] when it is missing or not a
    boolean. *)
Definition bool_or_default (config : Obj) (k : string) (d : bool) : bool :=
  match config !! k with
  | Some (VBool b) => b
  | _ => d
  end.

(** A parameter that is [undefined] takes the default [{}], a new object;
    otherwise it is the caller's reference. *)
Definition default_param (config : option nat) (h : Heap) : nat * Heap :=
  match config with
  | Some l => (l, h)
  | None => let l := fresh (dom h) in (l, <[l := ∅]> h)
  end.

(** [configureDefaults(config = {})]: the heap after the call. *)
Definition configureDefaults (config : option nat) (h : Heap) : Heap :=
  let '(l, h0) := default_param config h in
  match h0 !! l with
  | Some o => <[l := configureDefaults_obj o]> h0
  | None => h0
  end.

Section ParseQuery.
(** The rest of the pipeline ([SOQLLexer], [SOQLParser], the error
    listener, [Listener] and the tree walk) is not part of the
    development; it is a parameter that reads the configuration and
    returns [listener.soqlQuery] or throws.  The console calls made
    when [config.logging] holds do not touch the heap. *)
Variable SoqlQuery : Type.
Variable walk : string -> Obj -> Completion SoqlQuery.

(** [parseQuery(soql, config = {})]: the heap after the call and its
    completion. *)
Definition parseQuery (soql : string) (config : option nat) (h : Heap)
  : Heap * Completion SoqlQuery :=
  let '(l, h0) := default_param config h in
  let h1 := configureDefaults (Some l) h0 in
  (h1, walk soql (default ∅ (h1 !! l))).

End ParseQuery.

End SoqlParser.

(** ** Properties of the built AST *)

(** The tag of a projected field and its first relationship segment. *)
Definition field_type_tag {Q} (f : FieldType Q) : string :=
  match f with
  | FieldOrRelationship n => f_type n
  | FieldFunction _ => "FieldFunctionExpression"
  | FieldSubquery _ => "FieldSubquery"
  | FieldTypeof _ _ => "FieldTypeof"
  end.

Definition first_relationship {Q} (f : FieldType Q) : option string :=
  match f with
  | FieldOrRelationship n =>
      match f_relationships n with
      | Some (r :: _) => Some r
      | _ => None
      end
  | _ => None
  end.

(** No projected field is a [FieldRelationship] whose first relationship
    segment is the alias. *)
Definition no_alias_segment (q : QueryShape Query) : Prop :=
  forall A f, sObjectAlias q = Some A -> f ∈ fields q ->
    ~ (field_type_tag f = "FieldRelationship" /\ first_relationship f = Some A).

(** The image of a projected identifier: the dotted path as written. *)
Definition item_image {S} (item : SelectItem S) : option string :=
  match item with
  | SelectToken t => Some (image t)
  | selectClauseIdentifierNode t _ => Some (image t)
  | _ => None
  end.

(** The rule of the specification for [literalType] of an array whose
    elements have the tags [tags] ("if all tags agree the enclosing
    [literalType] is the scalar tag, otherwise it is the sequence of
    per-element tags"), and the rule by agreement of the token types
    [types]. *)
Definition literalType_by_tags (tags : list string) (lt : option LiteralTypeValue) : Prop :=
  ((forall x y, x ∈ tags -> y ∈ tags -> x = y) ->
   exists t, head tags = Some t /\ lt = Some (LT_one t))
  /\ (~ (forall x y, x ∈ tags -> y ∈ tags -> x = y) -> lt = Some (LT_many tags)).

Definition literalType_by_types (types : list (option string))
    (lt : option LiteralTypeValue) : Prop :=
  ((forall x y, x ∈ types -> y ∈ types -> x = y) ->
   exists t, head types = Some t /\ lt = Some (LT_one (getLiteralTypeFromType t)))
  /\ (~ (forall x y, x ∈ types -> y ∈ types -> x = y) ->
      lt = Some (LT_many (map getLiteralTypeFromType types))).

(** The tag of one element of an array literal, from its token type. *)
Definition element_tag (item : ArrayExpressionWithType) : string :=
  getLiteralTypeFromType (aet_type item).

(** [literalType] is one value of the enumeration. *)
Definition literalType_is_enum_value {Q} (r : AtomicResult Q) : Prop :=
  exists tag, ar_literalType r = Some (LT_one tag) /\ tag ∈ LiteralType_values.

(** [literalType] is the sequence of the tags of the elements of an array
    literal whose elements have more than one token type. *)
Definition literalType_of_mixed_array {Q} (r : AtomicResult Q) : Prop :=
  exists arrayValues,
    ar_value r = Some (V_array (map aet_value arrayValues))
    /\ ar_literalType r = Some (LT_many (map element_tag arrayValues))
    /\ Set_size (map aet_type arrayValues) <> 1.

(** [literalType] is one value of the enumeration or a sequence of them. *)
Definition literalType_defined {Q} (r : AtomicResult Q) : Prop :=
  match ar_literalType r with
  | Some (LT_one tag) => tag ∈ LiteralType_values
  | Some (LT_many tags) => Forall (fun tag => tag ∈ LiteralType_values) tags
  | None => False
  end.

(** Some alternative of the [atomicExpression] rule is present. *)
Definition has_alternative {S} (ctx : AtomicExpressionContext S) : Prop :=
  a_apexBindVariableExpression ctx <> [] \/ a_NumberIdentifier ctx <> []
  \/ a_UnsignedInteger ctx <> [] \/ a_SignedInteger ctx <> []
  \/ a_RealNumber ctx <> [] \/ a_DateIdentifier ctx <> []
  \/ a_CurrencyPrefixedInteger ctx <> [] \/ a_CurrencyPrefixedDecimal ctx <> []
  \/ a_DateTime ctx <> [] \/ a_date ctx <> [] \/ a_NULL ctx <> []
  \/ a_StringIdentifier ctx <> [] \/ a_Identifier ctx <> []
  \/ a_booleanValue ctx <> [] \/ a_DateLiteral ctx <> []
  \/ a_dateNLiteral ctx <> [] \/ a_arrayExpression ctx <> []
  \/ a_whereClauseSubqueryIdentifier ctx <> [].

(** Sums of the parenthesis counts along the [right] links, an absent
    count being zero. *)
Fixpoint sum_openParen {Q} (w : WhereClause Q) : nat :=
  match w with
  | mkWhere l _ r =>
      default 0 (c_openParen l)
      + match r with Some r' => sum_openParen r' | None => 0 end
  end.

Fixpoint sum_closeParen {Q} (w : WhereClause Q) : nat :=
  match w with
  | mkWhere l _ r =>
      default 0 (c_closeParen l)
      + match r with Some r' => sum_closeParen r' | None => 0 end
  end.

(** The two sums of a chain that may be absent. *)
Definition sums {Q} (w : option (WhereClause Q)) : nat * nat :=
  match w with
  | Some tree => (sum_openParen tree, sum_closeParen tree)
  | None => (0, 0)
  end.

Definition balanced {Q} (w : option (WhereClause Q)) : Prop :=
  match w with
  | Some tree => sum_openParen tree = sum_closeParen tree
  | None => True
  end.

(** The parenthesis tokens of the conditions of a clause. *)
Definition count_L_PAREN {S} (cs : list (ConditionExpressionContext S)) : nat :=
  list_sum (map (fun c => List.length (e_L_PAREN (ce_expression c))) cs).

Definition count_R_PAREN {S} (cs : list (ConditionExpressionContext S)) : nat :=
  list_sum (map (fun c => List.length (e_R_PAREN (ce_expression c))) cs).

(** Modelled from the spec: the parser ([./parser]) is absent.  Section 4.3
    of the specification: "the total opens must equal total closes in a
    well-formed input"; an accepted WHERE or HAVING clause has as many
    [L_PAREN] as [R_PAREN] tokens over its condition expressions. *)
Definition parens_accepted {S} (ctx : ConditionsContext S) : Prop :=
  count_L_PAREN (cs_conditionExpression ctx) = count_R_PAREN (cs_conditionExpression ctx).

(** The same for the WHERE clause and the HAVING clauses of a statement. *)
Definition statement_parens_accepted {S} (ctx : SelectStatementShape S) : Prop :=
  Forall parens_accepted (ss_whereClause ctx)
  /\ Forall (fun g => Forall parens_accepted (g_havingClause g)) (ss_groupByClause ctx).

(** The chains of [where] and of [groupBy.having] are balanced. *)
Definition query_balanced {Q} (q : QueryShape Q) : Prop :=
  balanced (where_ q)
  /\ match groupBy q with
     | Some gb => balanced (gb_having gb)
     | None => True
     end.

(** ** Sample syntax trees *)

Definition ident (s : string) : IToken := mkToken s "Identifier".

Definition atom_dateNLiteral (name n : string)
  : AtomicExpressionContext SelectStatementContext :=
  mkAtomicExpressionContext [] [] [] [] [] [] [] [] [] [] [] [] [] [] [] []
    [mkDateNLiteralContext (mkToken name name) (mkToken n "UNSIGNED_INTEGER")] [] [].

Definition atom_array (items : list ArrayItem)
  : AtomicExpressionContext SelectStatementContext :=
  mkAtomicExpressionContext [] [] [] [] [] [] [] [] [] [] [] [] [] [] [] [] []
    [mkArrayExpressionContext items] [].

Definition atom_string (s : string) : AtomicExpressionContext SelectStatementContext :=
  mkAtomicExpressionContext [] [] [] [] [] [] [] [] [] [] [] []
    [mkToken s "StringIdentifier"] [] [] [] [] [] [].

(** A right-hand side with the child [date] and no child [DateToken]. *)
Definition atom_date_without_DateToken : AtomicExpressionContext SelectStatementContext :=
  mkAtomicExpressionContext [] [] [] [] [] [] [] [] [] [mkToken "2020-01-01" "DATE"] []
    [] [] [] [] [] [] [] [].

(** [field op rhs] with [opens] and [closes] parentheses around it. *)
Definition condition_cst (logicalOperator : list IToken) (field : string)
    (relational set : list IToken) (rhs : AtomicExpressionContext SelectStatementContext)
    (opens closes : nat) : ConditionExpressionContext SelectStatementContext :=
  mkConditionExpressionContext logicalOperator
    (mkExpressionContext [] (IsTok (ident field))
       (mkExpressionOperatorContext relational set rhs)
       (repeat (mkToken "(" "L_PAREN") opens) (repeat (mkToken ")" "R_PAREN") closes)).

Definition statement_cst (items : list (SelectItem SelectStatementContext))
    (from : FromClauseContext) (conditions : list (ConditionsContext SelectStatementContext))
    (orderBy_ : list OrderByClauseContext) : SelectStatementContext :=
  mkSelectStatementContext
    (mkSelectStatementShape (mkSelectClauseContext items) from [] conditions [] []
       orderBy_ [] [] [] []).

(** [SELECT Id FROM Account] *)
Definition cst_simple : SelectStatementContext :=
  statement_cst [SelectToken (ident "Id")] (mkFromClauseContext (ident "Account") []) [] [].

(** [SELECT a.a.Name FROM Account a] *)
Definition cst_alias_repeated : SelectStatementContext :=
  statement_cst [SelectToken (ident "a.a.Name")]
    (mkFromClauseContext (ident "Account") [ident "a"]) [] [].

(** [SELECT a.Id, a.Owner.Name, Id FROM Account a] *)
Definition cst_alias : SelectStatementContext :=
  statement_cst
    [SelectToken (ident "a.Id"); SelectToken (ident "a.Owner.Name"); SelectToken (ident "Id")]
    (mkFromClauseContext (ident "Account") [ident "a"]) [] [].

(** [SELECT Id FROM ns.Account] *)
Definition cst_dotted_from : SelectStatementContext :=
  statement_cst [SelectToken (ident "Id")] (mkFromClauseContext (ident "ns.Account") []) [] [].

(** [SELECT Id FROM Account WHERE CreatedDate = LAST_N_DAYS:n] *)
Definition cst_dateN (n : string) : SelectStatementContext :=
  statement_cst [SelectToken (ident "Id")] (mkFromClauseContext (ident "Account") [])
    [mkConditionsContext
       [condition_cst [] "CreatedDate" [mkToken "=" "EQUAL"] []
          (atom_dateNLiteral "LAST_N_DAYS" n) 0 0]] [].

(** The array literals [(TRUE, FALSE)], [('a', 1)] and
    [(LAST_N_DAYS:3, 'x', TODAY)]. *)
Definition array_TRUE_FALSE : list ArrayItem :=
  [ArrayToken (mkToken "TRUE" "TRUE"); ArrayToken (mkToken "FALSE" "FALSE")].

Definition array_string_integer : list ArrayItem :=
  [ArrayToken (mkToken "'a'" "StringIdentifier"); ArrayToken (mkToken "1" "UNSIGNED_INTEGER")].

Definition array_with_dateN : list ArrayItem :=
  [ArrayNode (mkDateNLiteralContext (mkToken "LAST_N_DAYS" "LAST_N_DAYS")
                (mkToken "3" "UNSIGNED_INTEGER"));
   ArrayToken (mkToken "'x'" "StringIdentifier");
   ArrayToken (mkToken "TODAY" "TODAY")].

(** [Stage IN rhs] *)
Definition in_expression_cst (rhs : AtomicExpressionContext SelectStatementContext)
  : ExpressionContext SelectStatementContext :=
  mkExpressionContext [] (IsTok (ident "Stage"))
    (mkExpressionOperatorContext [] [mkToken "IN" "IN"] rhs) [] [].

(** [DISTANCE(Location__c, GEOLOCATION(37.775, -122.418), 'mi')] *)
Definition distance_cst : FnNode :=
  LocationFunctionNode (ident "Location__c")
    (IsFn (GeolocationFunctionNode (mkToken "37.775" "REAL_NUMBER")
             (mkToken "-122.418" "REAL_NUMBER")))
    (mkToken "'mi'" "StringIdentifier").

(** [WHERE (A = 'x' AND (B = 'y' OR C = 'z'))] *)
Definition conditions_cst : ConditionsContext SelectStatementContext :=
  mkConditionsContext
    [condition_cst [] "A" [mkToken "=" "EQUAL"] [] (atom_string "'x'") 1 0;
     condition_cst [mkToken "AND" "AND"] "B" [mkToken "=" "EQUAL"] [] (atom_string "'y'") 1 0;
     condition_cst [mkToken "OR" "OR"] "C" [mkToken "=" "EQUAL"] [] (atom_string "'z'") 0 2].

(** [SELECT Id FROM Account ORDER BY Name, CreatedDate DESC] *)
Definition cst_order_by_two : SelectStatementContext :=
  statement_cst [SelectToken (ident "Id")] (mkFromClauseContext (ident "Account") []) []
    [mkOrderByClauseContext
       [orderByExpressionNode (ident "Name") [] [];
        orderByExpressionNode (ident "CreatedDate") [mkToken "DESC" "DESC"] []]].

(** [SELECT Id FROM Account WHERE (A = 'x' AND (B = 'y' OR C = 'z'))] *)
Definition cst_where : SelectStatementContext :=
  statement_cst [SelectToken (ident "Id")] (mkFromClauseContext (ident "Account") [])
    [conditions_cst] [].

(** [WHERE (A = 'x'], were the parser to accept it. *)
Definition conditions_unbalanced_cst : ConditionsContext SelectStatementContext :=
  mkConditionsContext
    [condition_cst [] "A" [mkToken "=" "EQUAL"] [] (atom_string "'x'") 1 0].

(** A parser that accepts [SELECT Id FROM Account] alone. *)
Definition parse_sample (soql : string) (options : option unit)
  : Completion SelectStatementContext :=
  if String.eqb soql "SELECT Id FROM Account" then Normal cst_simple
  else Throw (ParseError "unexpected input").

(** The CST context of a statement node and its projected items. *)
Definition statement_ctx (node : SelectStatementContext)
  : SelectStatementShape SelectStatementContext :=
  match node with mkSelectStatementContext ctx => ctx end.

Definition select_items (node : SelectStatementContext)
  : list (SelectItem SelectStatementContext) :=
  sc_field (ss_selectClause (statement_ctx node)).

(** A node is the object built from [raw], its [alias] apart. *)
Definition built_from (raw : string) (n : FieldNode) : Prop :=
  n = field_of_image raw \/ exists a, n = set_alias a (field_of_image raw).

(** ** Observations on the built AST *)

(** The dotted path of a projected node: the alias prefix, the
    relationship segments and the field name. *)
Definition field_path (n : FieldNode) : list string :=
  (match f_objectPrefix n with Some p => [p] | None => [] end
   ++ default [] (f_relationships n) ++ [f_field n])%list.

(** [segments.join('.')] *)
Definition join_dot (segments : list string) : string := String.concat "." segments.

(** The nodes of a chain along its [right] links: the condition and the
    logical operator of each node. *)
Fixpoint chain_nodes {Q} (w : WhereClause Q) : list (Condition Q * option string) :=
  match w with
  | mkWhere l o r =>
      (l, o) :: match r with Some r' => chain_nodes r' | None => [] end
  end.

(** A function expression, or one nested in its parameters at any depth,
    has the property [type] or the property [isAggregateFn]. *)
Fixpoint typed_anywhere (f : FunctionExp) : bool :=
  match f with
  | mkFunctionExp t _ ps a _ _ =>
      match t with Some _ => true | None => false end
      || match a with Some _ => true | None => false end
      || existsb (fun p => match p with
                           | PString _ => false
                           | PFunction g => typed_anywhere g
                           end) ps
  end.

(** The criteria of [orderBy], whichever its shape. *)
Definition orderBy_list (v : OrderByValue) : list OrderByClause :=
  match v with
  | OB_single c => [c]
  | OB_sequence l => l
  end.

(** A chain holds the conditions of a clause in source order: node [i]
    holds the condition built from condition expression [i] and the
    logical operator written before condition expression [i + 1]; the last
    node has none. *)
Definition chain_built_from {S Q} (visit : bool -> S -> Completion Q)
    (ctx : ConditionsContext S) (tree : WhereClause Q) : Prop :=
  mapC (fun c => expression visit (ce_expression c)) (cs_conditionExpression ctx)
  = Normal (chain_nodes tree).*1
  /\ (chain_nodes tree).*2
     = (map (fun c => first_tokenTypeName (ce_logicalOperator c))
          (tail (cs_conditionExpression ctx)) ++ [None])%list.

(** The GROUP BY fields in one list, whichever the shape of [field]. *)
Definition groupByField_list (f : GroupByField) : list string :=
  match f with
  | GBF_string s => [s]
  | GBF_strings l => l
  end.

Definition groupBy_fields (v : option GroupByFieldValue) : list string :=
  match v with
  | Some (GB_single f) => groupByField_list f
  | Some (GB_sequence fs) => List.concat (map groupByField_list fs)
  | None => []
  end.

(** A WITH clause is [WITH SECURITY_ENFORCED]. *)
Definition is_securityEnforced (w : WithClauseContext) : bool :=
  match wc_withSecurityEnforced w with
  | [] => false
  | _ :: _ => true
  end.

(** A function expression without the properties [type] and
    [isAggregateFn], at every depth. *)
Fixpoint erase_types (f : FunctionExp) : FunctionExp :=
  match f with
  | mkFunctionExp _ n ps _ r a =>
      mkFunctionExp None n
        (map (fun p => match p with
                       | PString s => PString s
                       | PFunction g => PFunction (erase_types g)
                       end) ps)
        None r a
  end.

(** ** More sample syntax trees *)

(** A right-hand side that is a subquery. *)
Definition atom_subquery (s : SelectStatementContext)
  : AtomicExpressionContext SelectStatementContext :=
  mkAtomicExpressionContext [] [] [] [] [] [] [] [] [] [] [] [] [] [] [] [] [] [] [s].

(** [SELECT Id, (SELECT Id FROM Contacts) FROM Account
     WHERE Id IN (SELECT AccountId FROM Opportunity)] *)
Definition cst_nested : SelectStatementContext :=
  statement_cst
    [SelectToken (ident "Id");
     selectClauseSubqueryIdentifierNode
       (statement_cst [SelectToken (ident "Id")]
          (mkFromClauseContext (ident "Contacts") []) [] [])]
    (mkFromClauseContext (ident "Account") [])
    [mkConditionsContext
       [condition_cst [] "Id" [] [mkToken "IN" "IN"]
          (atom_subquery
             (statement_cst [SelectToken (ident "AccountId")]
                (mkFromClauseContext (ident "Opportunity") []) [] []))
          0 0]]
    [].

(** [SELECT Id FROM Account WITH DATA CATEGORY Geography__c AT usa__c
     WITH SECURITY_ENFORCED LIMIT 0] *)
Definition cst_with : SelectStatementContext :=
  mkSelectStatementContext
    (mkSelectStatementShape
       (mkSelectClauseContext [SelectToken (ident "Id")])
       (mkFromClauseContext (ident "Account") [])
       []
       []
       [mkWithClauseContext []
          [mkWithDateCategoryContext
             [mkWithDataCategoryArrContext (ident "Geography__c") (mkToken "AT" "AT")
                [ident "usa__c"]]];
        mkWithClauseContext [mkToken "SECURITY_ENFORCED" "SECURITY_ENFORCED"] []]
       [] []
       [mkToken "0" "UNSIGNED_INTEGER"]
       [] [] []).

(** * Verification *)

(** ** The completion monad *)

Lemma bind_Normal {A B} (m : Completion A) (f : A -> Completion B) (b : B) :
  bind m f = Normal b <-> exists a, m = Normal a /\ f a = Normal b.
Proof.
  split.
  - destruct m as [a|e]; simpl; intros H; [eauto | discriminate].
  - intros (a & -> & H). exact H.
Qed.

Lemma fmap_Normal {A B} (g : A -> B) (m : Completion A) (b : B) :
  g <$> m = Normal b <-> exists a, m = Normal a /\ b = g a.
Proof.
  split.
  - destruct m as [a|e]; cbn; intros H; [injection H as <-; eauto | discriminate].
  - intros (a & -> & ->). reflexivity.
Qed.

Lemma returns_Normal {A} (a : A) : returns (Normal a).
Proof. exists a. reflexivity. Qed.

Lemma returns_bind {A B} (m : Completion A) (f : A -> Completion B) :
  returns m -> (forall a, m = Normal a -> returns (f a)) -> returns (bind m f).
Proof.
  intros [a ->] Hf. simpl. apply Hf. reflexivity.
Qed.

Lemma returns_fmap {A B} (g : A -> B) (m : Completion A) :
  returns m -> returns (g <$> m).
Proof. intros [a ->]. exists (g a). reflexivity. Qed.

Lemma returns_Throw {A} (e : Exn) : ~ returns (@Throw A e).
Proof. intros [a H]. discriminate. Qed.

Lemma mapC_Normal {A B} (f : A -> Completion B) (l : list A) (l' : list B) :
  mapC f l = Normal l' ->
  List.length l' = List.length l
  /\ forall i x, l !! i = Some x -> exists y, l' !! i = Some y /\ f x = Normal y.
Proof.
  revert l'. induction l as [|x l IH]; intros l' H; simpl in H.
  - injection H as <-. split; [reflexivity|]. intros i y Hy. discriminate.
  - inv_bind H. inv_bind H. injection H as <-.
    destruct (IH _ Ha0) as [Hlen Hnth]. split; [simpl; congruence|].
    intros [|i] z Hz; simpl in *.
    + injection Hz as <-. eauto.
    + apply Hnth. exact Hz.
Qed.

Lemma mapC_elem_of {A B} (f : A -> Completion B) (l : list A) (l' : list B) (y : B) :
  mapC f l = Normal l' -> y ∈ l' -> exists x, x ∈ l /\ f x = Normal y.
Proof.
  revert l'. induction l as [|x l IH]; intros l' H Hy; simpl in H.
  - injection H as <-. inversion Hy.
  - inv_bind H. inv_bind H. injection H as <-.
    apply elem_of_cons in Hy as [->|Hy].
    + exists x. split; [left | assumption].
    + destruct (IH _ Ha0 Hy) as (x' & Hx' & Hf). exists x'. split; [right|]; assumption.
Qed.

Lemma mapC_returns {A B} (f : A -> Completion B) (l : list A) :
  Forall (fun x => returns (f x)) l -> returns (mapC f l).
Proof.
  induction 1 as [|x l [y Hy] _ [ys Hys]]; simpl.
  - apply returns_Normal.
  - rewrite Hy. simpl. rewrite Hys. simpl. apply returns_Normal.
Qed.

(** ** Strings: [split] and [includes] *)

Lemma split_not_nil (c : ascii) (s : string) : split c s <> [].
Proof.
  destruct s as [|a r]; simpl; [discriminate|].
  destruct (Ascii.eqb a c); [discriminate|].
  destruct (split c r); discriminate.
Qed.

Lemma includes_split (c : ascii) (s : string) :
  includes c s = true <-> 2 <= List.length (split c s).
Proof.
  induction s as [|a r IH]; simpl.
  - split; [discriminate | lia].
  - destruct (Ascii.eqb a c).
    + split; [|reflexivity]. intros _. simpl.
      pose proof (split_not_nil c r). destruct (split c r); [congruence | simpl; lia].
    + rewrite IH. pose proof (split_not_nil c r) as Hne.
      destruct (split c r) as [|h t]; [congruence|]. simpl. reflexivity.
Qed.

Lemma init_segments_snoc (l : list string) (x : string) :
  init_segments (l ++ [x]) = l.
Proof. unfold init_segments. apply removelast_last. Qed.

Lemma last_segment_snoc (l : list string) (x : string) :
  last_segment (l ++ [x]) = x.
Proof. unfold last_segment. rewrite last_snoc. reflexivity. Qed.

Lemma snoc_decompose (l : list string) :
  l <> [] -> l = (init_segments l ++ [last_segment l])%list.
Proof.
  intros Hne. destruct (exists_last Hne) as (l' & x & ->).
  rewrite init_segments_snoc, last_segment_snoc. reflexivity.
Qed.

(** ** Projected fields and the alias pass *)

Lemma field_of_image_dotted (raw name : string) (segs : list string) :
  split dot raw = (segs ++ [name])%list -> segs <> [] ->
  field_of_image raw =
    {| f_type := "FieldRelationship"; f_field := name; f_relationships := Some segs;
       f_objectPrefix := None; f_alias := None; f_rawValue := Some raw |}.
Proof.
  intros Hs Hne. unfold field_of_image.
  assert (includes dot raw = true) as ->.
  { apply includes_split. rewrite Hs, length_app. simpl.
    destruct segs; [congruence | simpl; lia]. }
  simpl. rewrite Hs, init_segments_snoc, last_segment_snoc. reflexivity.
Qed.

Lemma field_of_image_relationships (raw : string) (segs : list string) :
  f_relationships (field_of_image raw) = Some segs ->
  split dot raw = (segs ++ [f_field (field_of_image raw)])%list
  /\ segs <> [] /\ f_rawValue (field_of_image raw) = Some raw
  /\ f_type (field_of_image raw) = "FieldRelationship".
Proof.
  unfold field_of_image. destruct (includes dot raw) eqn:Hi; simpl; [|discriminate].
  intros [= <-]. apply includes_split in Hi.
  pose proof (snoc_decompose (split dot raw) (split_not_nil dot raw)) as Hd.
  repeat split; [exact Hd|].
  intros Hnil. rewrite Hd, Hnil in Hi. simpl in Hi. lia.
Qed.

Lemma built_from_fields (raw : string) (n : FieldNode) :
  built_from raw n ->
  f_type n = f_type (field_of_image raw)
  /\ f_field n = f_field (field_of_image raw)
  /\ f_relationships n = f_relationships (field_of_image raw)
  /\ f_objectPrefix n = None
  /\ f_rawValue n = f_rawValue (field_of_image raw).
Proof.
  assert (f_objectPrefix (field_of_image raw) = None) as Hp.
  { unfold field_of_image. destruct (negb (includes dot raw)); reflexivity. }
  intros [->|[a ->]]; simpl; auto.
Qed.

Lemma selectItem_identifier {S Q} (visit : bool -> S -> Completion Q)
    (item : SelectItem S) (raw : string) (f : FieldType Q) :
  item_image item = Some raw -> selectItem visit item = Normal f ->
  exists n, f = FieldOrRelationship n /\ built_from raw n.
Proof.
  destruct item as [t|fn al|s|c|t al]; simpl; try discriminate.
  - intros [= <-] [= <-]. eexists. split; [reflexivity | left; reflexivity].
  - intros [= <-] [= <-]. eexists. split; [reflexivity|].
    unfold selectClauseIdentifier. destruct al as [|a al]; [left; reflexivity|].
    destruct (truthy_string (image a)); [right; eauto | left; reflexivity].
Qed.

Lemma selectItem_node {S Q} (visit : bool -> S -> Completion Q)
    (item : SelectItem S) (n : FieldNode) :
  selectItem visit item = Normal (FieldOrRelationship n) ->
  exists raw, item_image item = Some raw /\ built_from raw n.
Proof.
  destruct item as [t|fn al|s|c|t al]; simpl.
  - intros [= <-]. eexists. split; [reflexivity | left; reflexivity].
  - discriminate.
  - intros H. inv_bind H. discriminate.
  - unfold selectClauseTypeOf. destruct (to_selectClauseTypeOfThen c); [discriminate|].
    intros H. inv_bind H. destruct (to_selectClauseTypeOfElse c).
    + discriminate.
    + inv_bind H. discriminate.
  - intros [= <-]. eexists. split; [reflexivity|].
    unfold selectClauseIdentifier. destruct al as [|a al]; [left; reflexivity|].
    destruct (truthy_string (image a)); [right; eauto | left; reflexivity].
Qed.

(** What [selectStatement] stores from the SELECT and FROM clauses. *)
Lemma selectStatement_body_Normal {S Q} (visit : bool -> S -> Completion Q)
    (isSubquery : bool) (ctx : SelectStatementShape S) (q : QueryShape Q) :
  selectStatement_body visit isSubquery ctx = Normal q ->
  let from := fromClause (ss_fromClause ctx) in
  exists fields0,
    selectClause visit (ss_selectClause ctx) = Normal fields0
    /\ fields q = alias_pass (truthy_alias (fr_alias from)) fields0
    /\ sObjectAlias q = truthy_alias (fr_alias from)
    /\ sObject q = (if isSubquery then None else Some (fr_sObject from))
    /\ relationshipName q = (if isSubquery then Some (fr_sObject from) else None)
    /\ sObjectPrefix q = (if isSubquery then fr_sObjectPrefix from else None).
Proof.
  unfold selectStatement_body. intros H.
  inv_bind H. inv_bind H. inv_bind H. inv_bind H. inv_bind H.
  injection H as <-. simpl. exists a. auto 10.
Qed.

Lemma selectStatement_unfold (isSubquery : bool)
    (ctx : SelectStatementShape SelectStatementContext) :
  selectStatement isSubquery (mkSelectStatementContext ctx)
  = mkQuery <$> selectStatement_body selectStatement isSubquery ctx.
Proof. reflexivity. Qed.

Lemma selectStatement_Normal (isSubquery : bool) (node : SelectStatementContext)
    (q : Query) :
  selectStatement isSubquery node = Normal q ->
  selectStatement_body selectStatement isSubquery (statement_ctx node) = Normal (shape q).
Proof.
  destruct node as [ctx]. rewrite selectStatement_unfold.
  intros H. apply fmap_Normal in H as (qs & Hqs & ->). exact Hqs.
Qed.

Lemma truthy_alias_Some (alias : option string) (A : string) :
  truthy_alias alias = Some A -> alias = Some A /\ truthy_string A = true.
Proof.
  destruct alias as [a|]; simpl; [|discriminate].
  destruct (truthy_string a) eqn:Ht; [|discriminate]. intros [= <-]. auto.
Qed.

Lemma alias_pass_Some {Q} (alias : option string) (A : string) (fs : list (FieldType Q)) :
  truthy_alias alias = Some A ->
  alias_pass (truthy_alias alias) fs = resolve_alias A <$> fs.
Proof.
  intros H. unfold alias_pass. rewrite H.
  apply truthy_alias_Some in H as [_ Ht]. simpl. rewrite Ht. reflexivity.
Qed.

(** The alias pass on a node whose path begins with the alias. *)
Lemma resolve_alias_node_head (A : string) (n : FieldNode) (rest : list string) :
  f_relationships n = Some (A :: rest) ->
  let n' := resolve_alias_node A n in
  f_objectPrefix n' = Some A /\ f_field n' = f_field n /\ f_rawValue n' = f_rawValue n
  /\ ((rest = [] /\ f_type n' = "Field" /\ f_relationships n' = None)
      \/ (rest <> [] /\ f_type n' = f_type n /\ f_relationships n' = Some rest)).
Proof.
  intros Hr. unfold resolve_alias_node. rewrite Hr, String.eqb_refl. simpl.
  destruct rest as [|r rest]; simpl.
  - repeat split; auto.
  - repeat split; try reflexivity. right. repeat split. discriminate.
Qed.


(** A node whose first segment is the alias after the pass had the alias
    twice before it. *)
Lemma resolve_alias_node_residual (A : string) (n : FieldNode) (rest : list string) :
  f_relationships (resolve_alias_node A n) = Some (A :: rest) ->
  f_relationships n = Some (A :: A :: rest).
Proof.
  unfold resolve_alias_node.
  destruct (f_relationships n) as [[|r0 rs]|] eqn:Hr; simpl.
  - rewrite Hr. simpl. discriminate.
  - destruct (String.eqb r0 A) eqn:He; simpl.
    + apply String.eqb_eq in He as ->.
      destruct rs as [|r1 rs]; simpl; [discriminate|]. intros H.
      injection H as -> ->. reflexivity.
    + rewrite Hr. simpl. rewrite Hr. intros H. injection H as -> ->.
      rewrite String.eqb_refl in He. discriminate.
  - rewrite Hr. simpl. rewrite Hr. discriminate.
Qed.

(** ** C1: alias resolution *)

(** C1 (amended).  For a statement with FROM alias [A], the alias pass
    strips the leading relationship segment once.  Every projected
    identifier whose dotted path is [A.segs.name] yields, at the same
    position, a node with [objectPrefix = A] and field [name]: a [Field]
    without [relationships] when [segs] is empty, otherwise a
    [FieldRelationship] with [relationships = segs].  A projected field of
    the result has [A] as first relationship segment only when its dotted
    path, kept in [rawValue], began with [A.A]. *)
Theorem C1_alias_segment_stripped_once (isSubquery : bool)
    (node : SelectStatementContext) (q : Query) (A : string) :
  selectStatement isSubquery node = Normal q ->
  sObjectAlias (shape q) = Some A ->
  (forall i item raw segs name,
      select_items node !! i = Some item ->
      item_image item = Some raw ->
      split dot raw = (A :: segs ++ [name])%list ->
      exists n,
        fields (shape q) !! i = Some (FieldOrRelationship n)
        /\ f_objectPrefix n = Some A /\ f_field n = name
        /\ ((segs = [] /\ f_type n = "Field" /\ f_relationships n = None)
            \/ (segs <> [] /\ f_type n = "FieldRelationship"
                /\ f_relationships n = Some segs)))
  /\ (forall f,
        f ∈ fields (shape q) -> first_relationship f = Some A ->
        exists n raw rest,
          f = FieldOrRelationship n /\ f_rawValue n = Some raw
          /\ split dot raw = (A :: A :: rest ++ [f_field n])%list).
Proof.
  intros Hq HA. apply selectStatement_Normal in Hq.
  apply selectStatement_body_Normal in Hq as (fs0 & Hsel & Hf & Hal & _).
  rewrite Hal in HA. rewrite (alias_pass_Some _ A _ HA) in Hf.
  unfold selectClause in Hsel. split.
  - intros i item raw segs name Hi Himg Hsplit.
    destruct (mapC_Normal _ _ _ Hsel) as [_ Hnth].
    destruct (Hnth i item Hi) as (f0 & Hf0 & Hitem).
    destruct (selectItem_identifier _ _ _ _ Himg Hitem) as (n0 & -> & Hb).
    apply built_from_fields in Hb as (Ht & Hfd & Hr & _ & _).
    rewrite (field_of_image_dotted raw name (A :: segs)) in Ht, Hfd, Hr
      by (assumption || discriminate).
    simpl in Ht, Hfd, Hr.
    exists (resolve_alias_node A n0). split.
    { rewrite Hf, list_lookup_fmap, Hf0. reflexivity. }
    destruct (resolve_alias_node_head A n0 segs Hr) as (Hp & Hfd' & _ & Hcase).
    split; [exact Hp|]. split; [congruence|].
    destruct Hcase as [(? & ? & ?)|(? & Ht' & ?)]; [left | right]; repeat split; auto.
    congruence.
  - intros f Hin Hfirst. rewrite Hf in Hin.
    apply list_elem_of_fmap in Hin as (f0 & -> & Hin0).
    destruct (mapC_elem_of _ _ _ _ Hsel Hin0) as (item & _ & Hitem).
    destruct f0 as [n0| | |]; simpl in Hfirst; try discriminate.
    destruct (f_relationships (resolve_alias_node A n0)) as [[|r rest]|] eqn:Hr;
      try discriminate.
    injection Hfirst as ->.
    pose proof (resolve_alias_node_residual A n0 rest Hr) as Hr0.
    destruct (selectItem_node _ _ _ Hitem) as (raw & _ & Hb).
    apply built_from_fields in Hb as (_ & Hfd & Hrel & _ & Hraw).
    rewrite Hr0 in Hrel. symmetry in Hrel.
    apply field_of_image_relationships in Hrel as (Hsplit & _ & Hraw' & _).
    destruct (resolve_alias_node_head A n0 (A :: rest) Hr0) as (_ & Hfd' & Hraw'' & _).
    exists (resolve_alias_node A n0), raw, rest. split; [reflexivity|].
    split; [congruence|]. rewrite Hfd', Hfd. exact Hsplit.
Qed.

(** C1, witness: [SELECT a.Id, a.Owner.Name, Id FROM Account a]. *)
Lemma C1_alias_segment_stripped_once_witness :
  exists q,
    selectStatement false cst_alias = Normal q
    /\ sObjectAlias (shape q) = Some "a"
    /\ (forall i item raw segs name,
          select_items cst_alias !! i = Some item ->
          item_image item = Some raw ->
          split dot raw = ("a" :: segs ++ [name])%list ->
          exists n,
            fields (shape q) !! i = Some (FieldOrRelationship n)
            /\ f_objectPrefix n = Some "a" /\ f_field n = name
            /\ ((segs = [] /\ f_type n = "Field" /\ f_relationships n = None)
                \/ (segs <> [] /\ f_type n = "FieldRelationship"
                    /\ f_relationships n = Some segs)))
    /\ (forall f,
          f ∈ fields (shape q) -> first_relationship f = Some "a" ->
          exists n raw rest,
            f = FieldOrRelationship n /\ f_rawValue n = Some raw
            /\ split dot raw = ("a" :: "a" :: rest ++ [f_field n])%list).
Proof.
  eexists. split; [reflexivity|]. split; [reflexivity|].
  apply (C1_alias_segment_stripped_once false cst_alias); reflexivity.
Defined.

(** C1, counterexample: for [SELECT a.a.Name FROM Account a] the projected
    field is still a [FieldRelationship] whose first segment is [a]. *)
Lemma C1_counterexample :
  exists q,
    selectStatement false cst_alias_repeated = Normal q
    /\ ~ no_alias_segment (shape q).
Proof.
  eexists. split; [reflexivity|]. intros H.
  eapply (H "a"); [reflexivity | left | split; reflexivity].
Qed.

(** ** C2: the builder returns on well-formed syntax trees *)

Section Totality.
Context {S Q : Type} (visit : bool -> S -> Completion Q) (P : S -> Prop).
Hypothesis visit_returns : forall s b, P s -> returns (visit b s).

Lemma arrayExpression_returns (ctx : ArrayExpressionContext) :
  ae_value ctx <> [] -> returns (arrayExpression ctx).
Proof.
  unfold arrayExpression. destruct (ae_value ctx); [congruence|].
  intros _. apply returns_Normal.
Qed.

Lemma atomicExpression_returns (ctx : AtomicExpressionContext S) :
  wf_atomic P ctx -> returns (atomicExpression visit ctx).
Proof.
  intros (Hdate & Harr & Hsub). unfold atomicExpression, scalar.
  repeat match goal with
         | |- returns (match ?l with [] => _ | _ :: _ => _ end) =>
             destruct l eqn:?
         | |- returns (Normal _) => apply returns_Normal
         end.
  all: first
    [ exfalso; apply Hdate; [discriminate | reflexivity]
    | apply returns_bind; [|intros; apply returns_Normal];
      first [ apply arrayExpression_returns; inversion Harr; assumption
            | apply visit_returns; inversion Hsub; assumption ] ].
Qed.

Lemma expression_returns (ctx : ExpressionContext S) :
  wf_atomic P (eo_rhs (e_operator ctx)) -> returns (expression visit ctx).
Proof.
  intros Hwf. unfold expression, expressionWithOperator.
  destruct (atomicExpression_returns _ Hwf) as [r ->]. simpl.
  apply returns_Normal.
Qed.

Lemma conditionExpression_returns (c : ConditionExpressionContext S)
    (tree : option (WhereClause Q)) :
  wf_condition P c -> returns (conditionExpression visit c tree).
Proof.
  intros Hwf. unfold conditionExpression.
  destruct (expression_returns _ Hwf) as [l ->]. simpl. apply returns_Normal.
Qed.

Lemma reduce_returns (cs : list (ConditionExpressionContext S))
    (acc : Completion (option (WhereClause Q))) :
  Forall (wf_condition P) cs -> returns acc ->
  returns (fold_left (reduce_step visit) cs acc).
Proof.
  intros Hwf. revert acc. induction Hwf as [|c cs Hc _ IH]; intros acc Hacc; simpl.
  - exact Hacc.
  - apply IH. destruct Hacc as [tree ->]. unfold reduce_step. simpl.
    destruct tree as [t|].
    + destruct (conditionExpression_returns c (Some t) Hc) as [[tree' node] ->].
      simpl. apply returns_Normal.
    + destruct (conditionExpression_returns c None Hc) as [[tree' node] ->].
      simpl. apply returns_Normal.
Qed.

Lemma whereClause_returns (ctx : ConditionsContext S) :
  wf_conditions P ctx -> returns (whereClause visit ctx).
Proof.
  intros [Hne Hwf]. unfold whereClause.
  destruct (cs_conditionExpression ctx) as [|c cs] eqn:Hcs; [congruence|].
  apply reduce_returns; [assumption | apply returns_Normal].
Qed.

Lemma groupByFieldList_returns (ctx : GroupByFieldListContext) :
  gfl_field ctx <> [] -> returns (groupByFieldList ctx).
Proof.
  unfold groupByFieldList. destruct (gfl_field ctx) as [|t [|t' ts]]; [congruence| |];
    intros _; apply returns_Normal.
Qed.

Lemma groupByClause_returns (ctx : GroupByClauseContext S) :
  wf_groupBy P ctx -> returns (groupByClause visit ctx).
Proof.
  intros [Hf Hh]. unfold groupByClause.
  apply returns_bind.
  { destruct (g_groupByFieldList ctx) as [|l ls] eqn:Hl; [apply returns_Normal|].
    apply returns_bind; [|intros; apply returns_Normal].
    apply mapC_returns. eapply Forall_impl; [exact Hf|].
    intros x Hx. apply groupByFieldList_returns. exact Hx. }
  intros field _. apply returns_bind; [|intros; apply returns_Normal].
  destruct (g_havingClause ctx) as [|h hs]; [apply returns_Normal|].
  apply whereClause_returns. inversion Hh; assumption.
Qed.

Lemma map_present_returns {A B} (f : A -> B) (l : list A) :
  l <> [] -> returns (map_present f l).
Proof. destruct l; [congruence|]. intros _. apply returns_Normal. Qed.

Lemma selectClauseTypeOf_returns (ctx : SelectClauseTypeOfContext) :
  wf_typeOf ctx -> returns (selectClauseTypeOf (Q:=Q) ctx).
Proof.
  intros (Hne & Hthen & Helse). unfold selectClauseTypeOf.
  destruct (to_selectClauseTypeOfThen ctx) as [|t ts] eqn:Ht; [congruence|].
  apply returns_bind.
  { apply mapC_returns. eapply Forall_impl; [exact Hthen|].
    intros x Hx. unfold selectClauseTypeOfThen.
    apply returns_bind; [apply map_present_returns; exact Hx|].
    intros; apply returns_Normal. }
  intros cs _. destruct (to_selectClauseTypeOfElse ctx) as [|e es]; [apply returns_Normal|].
  apply returns_bind; [|intros; apply returns_Normal].
  unfold selectClauseTypeOfElse.
  apply returns_bind; [|intros; apply returns_Normal].
  apply map_present_returns. inversion Helse; assumption.
Qed.

Lemma selectItem_returns (item : SelectItem S) :
  wf_selectItem P item -> returns (selectItem visit item).
Proof.
  destruct item as [t|fn al|s|c|t al]; simpl; intros Hwf;
    try apply returns_Normal.
  - apply returns_bind; [apply visit_returns; exact Hwf|].
    intros; apply returns_Normal.
  - apply selectClauseTypeOf_returns. exact Hwf.
Qed.

Lemma withClause_returns (ctx : WithClauseContext) :
  wf_with ctx -> returns (withClause ctx).
Proof.
  unfold wf_with, withClause. intros Hwf.
  destruct (wc_withSecurityEnforced ctx); [|apply returns_Normal].
  destruct (wc_withDataCategory ctx) as [|d ds]; [apply returns_Normal|].
  apply returns_bind; [|intros; apply returns_Normal].
  inversion Hwf as [|? ? [Hne Harr] _]; subst.
  unfold withDataCategory_.
  destruct (wd_withDataCategoryArr d) as [|a arr] eqn:Ha; [congruence|].
  apply mapC_returns. eapply Forall_impl; [exact Harr|].
  intros x Hx. unfold withDataCategoryArr.
  apply returns_bind; [apply map_present_returns; exact Hx|].
  intros; apply returns_Normal.
Qed.

Lemma orderByClause_returns (ctx : OrderByClauseContext) :
  wf_orderBy ctx -> returns (orderByClause ctx).
Proof.
  unfold wf_orderBy, orderByClause.
  destruct (o_orderByExpressionOrFn ctx) as [|i [|i' rest]]; [congruence| |];
    intros _; apply returns_Normal.
Qed.

Lemma selectStatement_body_returns (isSubquery : bool) (ctx : SelectStatementShape S) :
  wf_statement P ctx -> returns (selectStatement_body visit isSubquery ctx).
Proof.
  intros (Hsel & Hwhere & Hwith & Hgroup & Horder). unfold selectStatement_body.
  apply returns_bind.
  { apply mapC_returns. eapply Forall_impl; [exact Hsel|].
    intros x Hx. apply selectItem_returns. exact Hx. }
  intros fs _. apply returns_bind.
  { destruct (ss_whereClause ctx) as [|w ws]; [apply returns_Normal|].
    apply whereClause_returns. inversion Hwhere; assumption. }
  intros wh _. apply returns_bind.
  { apply mapC_returns. eapply Forall_impl; [exact Hwith|].
    intros x Hx. apply withClause_returns. exact Hx. }
  intros ws _. apply returns_bind.
  { destruct (ss_groupByClause ctx) as [|g gs]; [apply returns_Normal|].
    apply returns_fmap, groupByClause_returns. inversion Hgroup; assumption. }
  intros gb _. apply returns_bind.
  { destruct (ss_orderByClause ctx) as [|o os]; [apply returns_Normal|].
    apply returns_fmap, orderByClause_returns. inversion Horder; assumption. }
  intros ob _. apply returns_Normal.
Qed.

End Totality.

(** The builder returns on every well-formed CST. *)
Lemma selectStatement_returns_upto (n : nat) :
  forall (node : SelectStatementContext) (isSubquery : bool),
    well_formed_upto n node -> returns (selectStatement isSubquery node).
Proof.
  induction n as [|n IH]; intros [ctx] isSubquery Hwf; simpl in Hwf; [contradiction|].
  rewrite selectStatement_unfold. apply returns_fmap.
  apply (selectStatement_body_returns selectStatement (well_formed_upto n)).
  - intros s b Hs. apply IH. exact Hs.
  - exact Hwf.
Qed.

Lemma selectStatement_returns (node : SelectStatementContext) (isSubquery : bool) :
  well_formed node -> returns (selectStatement isSubquery node).
Proof. intros [n Hn]. eapply selectStatement_returns_upto. exact Hn. Qed.

(** The hypothesis of well-formedness is needed: on an [atomicExpression]
    with [date] and without [DateToken] the builder throws. *)
Lemma atomicExpression_date_without_DateToken :
  ~ returns (atomicExpression (Q:=Query) selectStatement atom_date_without_DateToken).
Proof. apply returns_Throw. Qed.

(** C2.  For every input and options, [isQueryValid] returns a boolean and
    never throws; it returns [true] exactly when [parse] returns, and
    whenever [parseQuery] returns; and provided the CST that [parse]
    returns for this input, if any, is well formed, [isQueryValid] returns
    [true] exactly when [parseQuery] returns, although only [parseQuery]
    runs the builder. *)
Theorem C2_isQueryValid_iff_parseQuery_returns (ParseQueryConfig : Type)
    (parse : string -> option ParseQueryConfig -> Completion SelectStatementContext)
    (soql : string) (options : option ParseQueryConfig) :
  (exists b, isQueryValid ParseQueryConfig parse soql options = Normal b)
  /\ (isQueryValid ParseQueryConfig parse soql options = Normal true
      <-> returns (parse soql options))
  /\ (returns (parseQuery ParseQueryConfig parse soql options) ->
      isQueryValid ParseQueryConfig parse soql options = Normal true)
  /\ ((forall cst, parse soql options = Normal cst -> well_formed cst) ->
      (isQueryValid ParseQueryConfig parse soql options = Normal true
       <-> returns (parseQuery ParseQueryConfig parse soql options))).
Proof.
  unfold isQueryValid, parseQuery.
  destruct (parse soql options) as [cst|e] eqn:Hp; simpl.
  - split; [eauto|]. split; [split; [intros _; apply returns_Normal | reflexivity]|].
    split; [reflexivity|]. intros Hwf. split; [|reflexivity].
    intros _. apply selectStatement_returns, Hwf. reflexivity.
  - assert (forall A, ~ returns (@Throw A e)) as Hthrow by (intros A; apply returns_Throw).
    split; [eauto|]. split; [split; [discriminate | intros H; destruct (Hthrow _ H)]|].
    split; [intros H; destruct (Hthrow _ H)|]. intros _.
    split; [discriminate | intros H; destruct (Hthrow _ H)].
Qed.

(** C2, witness: a parser that accepts [SELECT Id FROM Account]. *)
Lemma C2_isQueryValid_iff_parseQuery_returns_witness :
  isQueryValid unit parse_sample "SELECT Id FROM Account" None = Normal true
  <-> returns (parseQuery unit parse_sample "SELECT Id FROM Account" None).
Proof.
  apply C2_isQueryValid_iff_parseQuery_returns.
  intros cst H. injection H as <-. exists 1. simpl.
  unfold wf_statement. simpl. repeat split; repeat constructor.
Defined.

(** ** C3: a dotted FROM target *)

Lemma fromClause_dotted (ctx : FromClauseContext) :
  includes dot (image (fc_Identifier ctx)) = true ->
  fr_sObject (fromClause ctx) = last_segment (split dot (image (fc_Identifier ctx)))
  /\ fr_sObjectPrefix (fromClause ctx)
     = Some (init_segments (split dot (image (fc_Identifier ctx)))).
Proof. intros Hi. unfold fromClause. rewrite Hi. simpl. auto. Qed.

(** C3 (amended).  For a statement whose FROM target is a dotted name, the
    builder returns on a well-formed CST; the target's last segment is
    [sObject] of a top-level query, which has no [sObjectPrefix], and
    [relationshipName] of a subquery, whose [sObjectPrefix] is the sequence
    of the preceding segments. *)
Theorem C3_dotted_from_target (isSubquery : bool) (node : SelectStatementContext) :
  well_formed node ->
  includes dot (image (fc_Identifier (ss_fromClause (statement_ctx node)))) = true ->
  let segments := split dot (image (fc_Identifier (ss_fromClause (statement_ctx node)))) in
  exists q,
    selectStatement isSubquery node = Normal q
    /\ segments = (init_segments segments ++ [last_segment segments])%list
    /\ init_segments segments <> []
    /\ if isSubquery
       then relationshipName (shape q) = Some (last_segment segments)
            /\ sObject (shape q) = None
            /\ sObjectPrefix (shape q) = Some (init_segments segments)
       else sObject (shape q) = Some (last_segment segments)
            /\ relationshipName (shape q) = None
            /\ sObjectPrefix (shape q) = None.
Proof.
  intros Hwf Hi segments.
  destruct (selectStatement_returns node isSubquery Hwf) as [q Hq].
  exists q. split; [exact Hq|].
  pose proof (snoc_decompose segments (split_not_nil _ _)) as Hd.
  split; [exact Hd|]. split.
  { intros Hnil. apply includes_split in Hi. fold segments in Hi.
    rewrite Hd, Hnil in Hi. simpl in Hi. lia. }
  apply selectStatement_Normal in Hq.
  apply selectStatement_body_Normal in Hq as (_ & _ & _ & _ & HsO & Hrel & Hpre).
  destruct (fromClause_dotted _ Hi) as [Hs Hp].
  rewrite HsO, Hrel, Hpre. destruct isSubquery; rewrite ?Hs, ?Hp; auto.
Qed.

(** C3, witness: [SELECT Id FROM ns.Account], at top level. *)
Lemma C3_dotted_from_target_witness :
  exists q,
    selectStatement false cst_dotted_from = Normal q
    /\ sObject (shape q) = Some "Account"
    /\ sObjectPrefix (shape q) = None.
Proof.
  destruct (C3_dotted_from_target false cst_dotted_from) as (q & Hq & _ & _ & Hs & _ & Hp).
  - exists 1. simpl. unfold wf_statement. simpl. repeat split; repeat constructor.
  - reflexivity.
  - exists q. split; [exact Hq|]. split; [exact Hs | exact Hp].
Defined.

(** C3, counterexample: the query built for [SELECT Id FROM ns.Account]
    does not carry the prefix [ns]. *)
Lemma C3_counterexample :
  exists q,
    selectStatement false cst_dotted_from = Normal q
    /\ sObject (shape q) = Some "Account"
    /\ sObjectPrefix (shape q) <> Some ["ns"].
Proof.
  eexists. split; [reflexivity|]. split; [reflexivity | discriminate].
Qed.

(** ** C4: a date-N literal on the right-hand side *)

(** The condition built for a right-hand side that is a date-N literal:
    [dateLiteralVariable] is stored when [Number(N)] is truthy. *)
Lemma expression_dateNLiteral {S Q} (visit : bool -> S -> Completion Q)
    (ctx : ExpressionContext S) (n : DateNLiteralContext)
    (ns : list DateNLiteralContext) (arr : list ArrayExpressionContext) (sub : list S) :
  eo_rhs (e_operator ctx)
  = mkAtomicExpressionContext [] [] [] [] [] [] [] [] [] [] [] [] [] [] [] []
      (n :: ns) arr sub ->
  exists c,
    expression visit ctx = Normal c
    /\ c_value c = Some (V_string (image (dn_dateNLiteral n) ++ ":" ++ image (dn_variable n)))
    /\ c_literalType c = Some (LT_one "DATE_N_LITERAL")
    /\ c_dateLiteralVariable c
       = (if truthy_number (Number_ (image (dn_variable n)))
          then Some (DLV_number (Number_ (image (dn_variable n))))
          else None).
Proof.
  intros Hrhs. unfold expression, expressionWithOperator, atomicExpression.
  rewrite Hrhs. simpl. eexists. split; [reflexivity|]. simpl. auto.
Qed.

(** C4, at the failing input [SELECT Id FROM Account WHERE CreatedDate =
    LAST_N_DAYS:0]: the condition has the expected value and literal type,
    and no [dateLiteralVariable]. *)
Theorem C4_dateN_zero_has_no_variable :
  exists q c,
    selectStatement false (cst_dateN "0") = Normal q
    /\ where_ (shape q) = Some (mkWhere c None None)
    /\ c_value c = Some (V_string "LAST_N_DAYS:0")
    /\ c_literalType c = Some (LT_one "DATE_N_LITERAL")
    /\ c_dateLiteralVariable c = None.
Proof.
  eexists. eexists. split; [reflexivity|]. simpl. repeat split; reflexivity.
Qed.

(** The same query with a positive N carries the variable. *)
Lemma dateN_seven_has_variable :
  exists q c,
    selectStatement false (cst_dateN "7") = Normal q
    /\ where_ (shape q) = Some (mkWhere c None None)
    /\ c_value c = Some (V_string "LAST_N_DAYS:7")
    /\ c_literalType c = Some (LT_one "DATE_N_LITERAL")
    /\ c_dateLiteralVariable c = Some (DLV_number (JsInt 7)).
Proof.
  eexists. eexists. split; [reflexivity|]. simpl. repeat split; reflexivity.
Qed.

(** ** C5: array literals *)

Lemma Set_size_one (xs : list (option string)) :
  Set_size xs = 1 <-> xs <> [] /\ (forall x y, x ∈ xs -> y ∈ xs -> x = y).
Proof.
  unfold Set_size. split.
  - intros Hlen.
    destruct (remove_dups xs) as [|a [|b l]] eqn:Hr; simpl in Hlen; try lia.
    split.
    + intros ->. discriminate.
    + intros x y Hx Hy. apply elem_of_remove_dups in Hx, Hy. rewrite Hr in Hx, Hy.
      apply list_elem_of_singleton in Hx, Hy. congruence.
  - intros [Hne Heq]. pose proof (NoDup_remove_dups xs) as Hnd.
    destruct (remove_dups xs) as [|a [|b l]] eqn:Hr; simpl.
    + destruct xs as [|x xs]; [congruence|].
      assert (x ∈ remove_dups (x :: xs)) as Hx by (apply elem_of_remove_dups; left).
      rewrite Hr in Hx. inversion Hx.
    + reflexivity.
    + exfalso. assert (a = b) as ->.
      { apply Heq; apply elem_of_remove_dups; rewrite Hr; [left | right; left]. }
      apply NoDup_cons in Hnd as [Hnotin _]. apply Hnotin. left.
Qed.

Lemma atomicExpression_array_literalType {Q} (arrayValues : list ArrayExpressionWithType) :
  arrayValues <> [] ->
  literalType_by_types (map aet_type arrayValues)
    (ar_literalType (atomicExpression_array (Q:=Q) arrayValues)).
Proof.
  intros Hne. unfold atomicExpression_array, literalType_by_types. simpl.
  assert (forall t, truthy_string (getLiteralTypeFromType t) = true) as Htruthy.
  { intros [n|]; [|reflexivity]. unfold getLiteralTypeFromType, getLiteralTypeFromTokenType.
    repeat match goal with |- context [if ?b then _ else _] => destruct b end; reflexivity. }
  destruct (Nat.eqb_spec (Set_size (map aet_type arrayValues)) 1) as [H1|H1].
  - apply Set_size_one in H1 as [_ Heq]. split; [|intros Hn; contradiction].
    intros _. destruct arrayValues as [|item rest]; [congruence|]. simpl.
    exists (aet_type item). split; [reflexivity|]. rewrite Htruthy. reflexivity.
  - split; [|intros _; simpl; rewrite map_map; reflexivity]. intros Heq. exfalso. apply H1, Set_size_one.
    split; [|exact Heq]. destruct arrayValues; [congruence | discriminate].
Qed.

Lemma getLiteralTypeFromType_cases (t : option string) :
  getLiteralTypeFromType t ∈ LiteralType_values
  /\ String.eqb (getLiteralTypeFromType t) "SUBQUERY" = false
  /\ truthy_string (getLiteralTypeFromType t) = true.
Proof.
  destruct t as [n|]; simpl.
  - unfold getLiteralTypeFromTokenType.
    repeat match goal with |- context [if ?b then _ else _] => destruct b end;
      (split; [apply list_elem_of_In; simpl; tauto | split; reflexivity]).
  - split; [apply list_elem_of_In; simpl; tauto | split; reflexivity].
Qed.

Lemma atomicExpression_array_not_SUBQUERY {Q} (arrayValues : list ArrayExpressionWithType) :
  is_SUBQUERY (ar_literalType (atomicExpression_array (Q:=Q) arrayValues)) = false.
Proof.
  unfold atomicExpression_array. simpl.
  destruct (Nat.eqb _ 1); simpl; [|reflexivity].
  destruct (getLiteralTypeFromType_cases
              (match arrayValues with item :: _ => aet_type item | [] => None end))
    as (_ & Hs & Ht).
  rewrite Ht. exact Hs.
Qed.

(** The variables of the elements of an array literal. *)
Lemma dateLiteralTemp_lookup (items : list ArrayItem) (i : nat) (item : ArrayItem) :
  items !! i = Some item ->
  map (fun v => variable_or_null (aet_variable v)) (map arrayExpression_item items) !! i
  = Some match item with
         | ArrayToken _ => None
         | ArrayNode n => variable_or_null (Some (Number_ (image (dn_variable n))))
         end.
Proof.
  intros Hi. rewrite map_map.
  change (map ?f items) with (f <$> items). rewrite list_lookup_fmap, Hi. simpl.
  destruct item; reflexivity.
Qed.

Lemma hasDateLiterals_true (items : list ArrayItem) (n : DateNLiteralContext) :
  ArrayNode n ∈ items ->
  truthy_number (Number_ (image (dn_variable n))) = true ->
  existsb not_null
    (map (fun v => variable_or_null (aet_variable v)) (map arrayExpression_item items))
  = true.
Proof.
  intros Hin Ht. apply existsb_exists.
  exists (Some (Number_ (image (dn_variable n)))). split; [|reflexivity].
  apply in_map_iff. exists (arrayExpression_item (ArrayNode n)). split.
  - simpl. rewrite Ht. reflexivity.
  - apply in_map. apply list_elem_of_In. exact Hin.
Qed.

(** C5 (amended).  For a condition whose right-hand side is the array
    literal [items]: the value is the array of the elements' images; each
    element is classified from its token type; when all elements have the
    same token type, [literalType] is the tag of that type, otherwise it is
    the sequence of the elements' tags in array order; and when some
    element is a date-N literal whose N converts to a truthy number,
    [dateLiteralVariable] is a sequence as long as the array, with [null]
    at every element that is not a date-N literal and N at every date-N
    element with such an N. *)
Theorem C5_array_literal_classification
    (ctx : ExpressionContext SelectStatementContext) (items : list ArrayItem) :
  eo_rhs (e_operator ctx) = atom_array items ->
  items <> [] ->
  exists c,
    expression selectStatement ctx = Normal c
    /\ c_value c = Some (V_array (map (fun item => aet_value (arrayExpression_item item)) items))
    /\ literalType_by_types (map (fun item => aet_type (arrayExpression_item item)) items)
         (c_literalType c)
    /\ ((exists n, ArrayNode n ∈ items
                   /\ truthy_number (Number_ (image (dn_variable n))) = true) ->
        exists l,
          c_dateLiteralVariable c = Some (DLV_array l)
          /\ List.length l = List.length items
          /\ forall i item, items !! i = Some item ->
               match item with
               | ArrayToken _ => l !! i = Some None
               | ArrayNode n =>
                   truthy_number (Number_ (image (dn_variable n))) = true ->
                   l !! i = Some (Some (Number_ (image (dn_variable n))))
               end).
Proof.
  intros Hrhs Hne.
  pose proof (atomicExpression_array_not_SUBQUERY (Q:=Query) (map arrayExpression_item items))
    as Hsub.
  assert (arrayExpression (mkArrayExpressionContext items)
          = Normal (map arrayExpression_item items)) as Harr.
  { unfold arrayExpression, map_present. simpl. destruct items; [congruence | reflexivity]. }
  unfold expression, expressionWithOperator, atomicExpression.
  rewrite Hrhs. cbn -[atomicExpression_array arrayExpression]. rewrite Harr.
  cbn -[atomicExpression_array]. eexists. split; [reflexivity|].
  cbn -[atomicExpression_array]. rewrite Hsub.
  assert (truthy_dateLiteralVariable
            (ar_dateLiteralVariable
               (atomicExpression_array (Q:=Query) (map arrayExpression_item items)))
          = match ar_dateLiteralVariable
                    (atomicExpression_array (Q:=Query) (map arrayExpression_item items))
            with Some _ => true | None => false end) as Htr.
  { unfold atomicExpression_array. simpl. destruct (existsb _ _); reflexivity. }
  rewrite Htr. split; [|split].
  - simpl. rewrite map_map. reflexivity.
  - rewrite <- (map_map arrayExpression_item aet_type).
    apply atomicExpression_array_literalType. destruct items; [congruence | discriminate].
  - intros (n & Hin & Ht). unfold atomicExpression_array.
    cbn [ar_dateLiteralVariable]. rewrite (hasDateLiterals_true items n Hin Ht).
    eexists. split; [reflexivity|]. split.
    + rewrite !length_map. reflexivity.
    + intros i item Hi. rewrite (dateLiteralTemp_lookup items i item Hi).
      destruct item as [t|m]; [reflexivity|].
      intros Hm. simpl. rewrite Hm. reflexivity.
Qed.

(** C5, witness: [Stage IN (LAST_N_DAYS:3, 'x', TODAY)]. *)
Lemma C5_array_literal_classification_witness :
  exists c,
    expression selectStatement (in_expression_cst (atom_array array_with_dateN)) = Normal c
    /\ c_value c = Some (V_array ["LAST_N_DAYS:3"; "'x'"; "TODAY"])
    /\ c_literalType c = Some (LT_many ["DATE_N_LITERAL"; "STRING"; "DATE_LITERAL"])
    /\ c_dateLiteralVariable c = Some (DLV_array [Some (JsInt 3); None; None]).
Proof.
  destruct (C5_array_literal_classification
              (in_expression_cst (atom_array array_with_dateN)) array_with_dateN)
    as (c & Hc & Hv & _ & _); [reflexivity | discriminate |].
  exists c. split; [exact Hc|]. split; [exact Hv|].
  injection Hc as <-. split; reflexivity.
Defined.

(** C5, counterexample: in [Stage IN (TRUE, FALSE)] the two elements have
    the same tag, BOOLEAN, and [literalType] is not that tag but the
    sequence of the two. *)
Lemma C5_counterexample :
  exists c,
    expression selectStatement (in_expression_cst (atom_array array_TRUE_FALSE)) = Normal c
    /\ ~ literalType_by_tags
           (map element_tag (map arrayExpression_item array_TRUE_FALSE))
           (c_literalType c).
Proof.
  eexists. split; [reflexivity|]. intros [Hagree _].
  destruct Hagree as (t & _ & Hlt).
  - intros x y Hx Hy. apply list_elem_of_In in Hx, Hy. simpl in Hx, Hy.
    destruct Hx as [<-|[<-|[]]], Hy as [<-|[<-|[]]]; reflexivity.
  - discriminate.
Qed.

(** ** C6: the literal type is defined *)

Lemma enum_value_elem (tag : string) :
  In tag LiteralType_values -> tag ∈ LiteralType_values.
Proof. apply list_elem_of_In. Qed.

Lemma atomicExpression_array_defined {Q} (arrayValues : list ArrayExpressionWithType) :
  literalType_defined (atomicExpression_array (Q:=Q) arrayValues)
  /\ (literalType_is_enum_value (atomicExpression_array (Q:=Q) arrayValues)
      \/ literalType_of_mixed_array (atomicExpression_array (Q:=Q) arrayValues)).
Proof.
  unfold literalType_defined, literalType_is_enum_value, literalType_of_mixed_array,
    atomicExpression_array.
  simpl. destruct (Nat.eqb_spec (Set_size (map aet_type arrayValues)) 1) as [H1|H1]; simpl.
  - destruct (getLiteralTypeFromType_cases
                (match arrayValues with item :: _ => aet_type item | [] => None end))
      as (Hin & _ & Ht).
    rewrite Ht. split; [exact Hin|]. left. eauto.
  - split.
    + apply Forall_forall. intros tag Htag. apply list_elem_of_In in Htag.
      apply in_map_iff in Htag as (item & <- & _).
      apply (getLiteralTypeFromType_cases (aet_type item)).
    + right. exists arrayValues. auto.
Qed.

(** C6 (amended).  For an [atomicExpression] node in which some
    alternative of the rule is present, on a well-formed CST the builder
    returns and [literalType] is defined: it is one value of the
    [LiteralType] enumeration, or, for an array literal whose elements
    have more than one token type, the sequence of the elements' tags,
    each a value of the enumeration. *)
Theorem C6_literalType_defined {S Q} (visit : bool -> S -> Completion Q) (P : S -> Prop)
    (ctx : AtomicExpressionContext S) :
  (forall s b, P s -> returns (visit b s)) ->
  wf_atomic P ctx ->
  has_alternative ctx ->
  exists r,
    atomicExpression visit ctx = Normal r
    /\ literalType_defined r
    /\ (literalType_is_enum_value r \/ literalType_of_mixed_array r).
Proof.
  intros Hvisit Hwf Halt.
  destruct (atomicExpression_returns visit P Hvisit ctx Hwf) as [r Hr].
  exists r. split; [exact Hr|].
  assert (forall tag, In tag LiteralType_values ->
            forall v d (r' : AtomicResult Q),
              r' = {| ar_value := v; ar_literalType := Some (LT_one tag);
                      ar_dateLiteralVariable := d |} ->
              literalType_defined r'
              /\ (literalType_is_enum_value r' \/ literalType_of_mixed_array r'))
    as Hscalar.
  { intros tag Hin v d r' ->. apply enum_value_elem in Hin. split; [exact Hin|].
    left. exists tag. auto. }
  assert (forall n, In (getLiteralTypeFromTokenType n) LiteralType_values) as Htok.
  { intros n. apply list_elem_of_In. apply (getLiteralTypeFromType_cases (Some n)). }
  unfold atomicExpression, scalar in Hr.
  repeat match type of Hr with
         | match ?l with [] => _ | _ :: _ => _ end = _ => destruct l eqn:?
         end.
  all: try discriminate.
  all: first
    [ exfalso; unfold has_alternative in Halt;
      repeat match goal with H : _ = [] |- _ => rewrite H in Halt; clear H end;
      intuition congruence
    | injection Hr as <-; eapply Hscalar; [|reflexivity];
      first [apply Htok | simpl; tauto]
    | inv_bind Hr; injection Hr as <-;
      first [ match goal with
              | H : arrayExpression _ = Normal ?vs |- _ =>
                  exact (atomicExpression_array_defined (Q:=Q) vs)
              end
            | eapply Hscalar; [|reflexivity]; simpl; tauto ] ].
Qed.

(** [expression] copies the literal type into the condition, except for a
    subquery, of which it stores [valueQuery] alone. *)
Lemma expression_stores_literalType {S Q} (visit : bool -> S -> Completion Q)
    (ctx : ExpressionContext S) (c : Condition Q) :
  expression visit ctx = Normal c ->
  exists r,
    atomicExpression visit (eo_rhs (e_operator ctx)) = Normal r
    /\ if is_SUBQUERY (ar_literalType r)
       then c_literalType c = None /\ c_value c = None /\ c_valueQuery c = ar_value r
       else c_literalType c = ar_literalType r /\ c_value c = ar_value r
            /\ c_valueQuery c = None.
Proof.
  unfold expression, expressionWithOperator. intros H.
  inv_bind H. destruct a as [operator r]. injection H as <-.
  inv_bind Ha. injection Ha as _ <-. exists a. split; [assumption|].
  simpl. destruct (is_SUBQUERY (ar_literalType a)); auto.
Qed.

(** C6, witness: the right-hand side [('a', 1)]. *)
Lemma C6_literalType_defined_witness :
  exists r,
    atomicExpression (Q:=Query) selectStatement (atom_array array_string_integer) = Normal r
    /\ literalType_defined r
    /\ (literalType_is_enum_value r \/ literalType_of_mixed_array r).
Proof.
  apply (C6_literalType_defined selectStatement well_formed).
  - intros s b Hs. apply selectStatement_returns. exact Hs.
  - unfold wf_atomic. simpl. split; [tauto|]. split; repeat constructor. discriminate.
  - unfold has_alternative. simpl. do 16 right. left. discriminate.
Defined.

(** C6, counterexample: for the right-hand side [('a', 1)], [literalType]
    is the sequence [STRING, INTEGER], not a value of the enumeration. *)
Lemma C6_counterexample :
  exists r,
    atomicExpression (Q:=Query) selectStatement (atom_array array_string_integer) = Normal r
    /\ has_alternative (atom_array array_string_integer)
    /\ ar_literalType r = Some (LT_many ["STRING"; "INTEGER"])
    /\ ~ literalType_is_enum_value r.
Proof.
  eexists. split; [reflexivity|]. split.
  { unfold has_alternative. simpl. do 16 right. left. discriminate. }
  split; [reflexivity|]. intros (tag & Htag & _). discriminate.
Qed.

(** ** C7: DISTANCE in its three contexts *)

(** [locationFunction(ctx, options)] *)
Lemma visitFn_location (o : option Options) (location1 : IToken) (location2 : TokOrFn)
    (unit_ : IToken) :
  let f := visitFn o (LocationFunctionNode location1 location2 unit_) in
  let included := includeType (options_or_default o) in
  fn_functionName f = "DISTANCE"
  /\ fn_parameters f
     = [PString (image location1);
        match location2 with
        | IsTok t => PString (image t)
        | IsFn g => PFunction (visitFn (Some (options_or_default o)) g)
        end;
        PString (image unit_)]
  /\ fn_type f = (if included then Some "FieldFunctionExpression" else None)
  /\ fn_isAggregateFn f = (if included then Some true else None).
Proof. simpl. auto. Qed.

(** C7 (amended).  A DISTANCE invocation builds, in every context, a
    function expression named DISTANCE whose parameters are the field, the
    nested GEOLOCATION expression or field, and the unit.  In the
    projection list it is a [FieldFunctionExpression] with
    [isAggregateFn = true]; in ORDER BY and on the left-hand side of a
    condition it has neither [type] nor [isAggregateFn]. *)
Theorem C7_DISTANCE_by_context (location1 : IToken) (location2 : TokOrFn) (unit_ : IToken) :
  let node := LocationFunctionNode location1 location2 unit_ in
  let parameters_ (included : bool) :=
    [PString (image location1);
     match location2 with
     | IsTok t => PString (image t)
     | IsFn g => PFunction (visitFn (Some (mkOptions included)) g)
     end;
     PString (image unit_)] in
  (forall alias,
      let f := selectClauseFunctionIdentifier node alias in
      fn_functionName f = "DISTANCE" /\ fn_parameters f = parameters_ true
      /\ fn_type f = Some "FieldFunctionExpression" /\ fn_isAggregateFn f = Some true)
  /\ (forall order nulls,
        exists f,
          ob_fn (visitOrderByItem (orderByLocationExpressionNode node order nulls)) = Some f
          /\ fn_functionName f = "DISTANCE" /\ fn_parameters f = parameters_ false
          /\ fn_type f = None /\ fn_isAggregateFn f = None)
  /\ (forall (S Q : Type) (visit : bool -> S -> Completion Q) (ctx : ExpressionContext S)
             (c : Condition Q),
        e_lhs ctx = IsFn node ->
        expression visit ctx = Normal c ->
        exists f,
          c_fn c = Some f /\ c_field c = None
          /\ fn_functionName f = "DISTANCE" /\ fn_parameters f = parameters_ false
          /\ fn_type f = None /\ fn_isAggregateFn f = None).
Proof.
  intros node parameters_. split; [|split].
  - intros alias. unfold selectClauseFunctionIdentifier.
    destruct alias as [|a al]; simpl; auto.
  - intros order nulls. eexists. split; [reflexivity|]. simpl. auto.
  - intros S Q visit ctx c Hlhs Hc. unfold expression in Hc.
    inv_bind Hc. destruct a as [operator r]. injection Hc as <-.
    rewrite Hlhs. simpl. eexists. split; [reflexivity|]. simpl. auto 6.
Qed.

(** C7, witness: [DISTANCE(Location__c, GEOLOCATION(37.775, -122.418), 'mi')]
    on the left-hand side of a condition. *)
Lemma C7_DISTANCE_by_context_witness :
  exists c f,
    expression (Q:=Query) selectStatement
      (mkExpressionContext [] (IsFn distance_cst)
         (mkExpressionOperatorContext [mkToken "<" "LESS_THAN"] []
            (atom_string "'10'")) [] [])
    = Normal c
    /\ c_fn c = Some f /\ c_field c = None
    /\ fn_functionName f = "DISTANCE" /\ fn_type f = None /\ fn_isAggregateFn f = None.
Proof.
  destruct (C7_DISTANCE_by_context (ident "Location__c")
              (IsFn (GeolocationFunctionNode (mkToken "37.775" "REAL_NUMBER")
                       (mkToken "-122.418" "REAL_NUMBER")))
              (mkToken "'mi'" "StringIdentifier")) as (_ & _ & Hlhs).
  eexists.
  edestruct (Hlhs SelectStatementContext Query selectStatement
               (mkExpressionContext [] (IsFn distance_cst)
                  (mkExpressionOperatorContext [mkToken "<" "LESS_THAN"] []
                     (atom_string "'10'")) [] []))
    as (f & Hf & Hfield & Hname & _ & Htype & Hagg); [reflexivity | reflexivity |].
  exists f. split; [reflexivity|]. repeat split; assumption.
Defined.

(** C7, counterexample: in [ORDER BY DISTANCE(Location__c,
    GEOLOCATION(37.775, -122.418), 'mi')] the function expression has no
    [isAggregateFn] and no [type]. *)
Lemma C7_counterexample :
  exists f,
    ob_fn (visitOrderByItem (orderByLocationExpressionNode distance_cst [] [])) = Some f
    /\ fn_functionName f = "DISTANCE"
    /\ fn_isAggregateFn f <> Some true
    /\ fn_type f <> Some "FieldFunctionExpression".
Proof.
  eexists. split; [reflexivity|]. simpl. repeat split; discriminate.
Qed.

(** ** C8: parenthesis counts along the chain *)

(** Induction along the [right] links of a chain. *)
Lemma WhereClause_chain_ind {Q} (P : WhereClause Q -> Prop) :
  (forall l o, P (mkWhere l o None)) ->
  (forall l o r, P r -> P (mkWhere l o (Some r))) ->
  forall tree, P tree.
Proof.
  intros Hlast Hlink. fix IH 1. intros [l o [r|]].
  - apply Hlink, IH.
  - apply Hlast.
Qed.

Section Chain.
Context {S Q : Type} (visit : bool -> S -> Completion Q).

Lemma sum_set_last_operator (op : string) (tree : WhereClause Q) :
  sum_openParen (set_last_operator op tree) = sum_openParen tree
  /\ sum_closeParen (set_last_operator op tree) = sum_closeParen tree.
Proof.
  induction tree as [l o|l o r [IHo IHc]] using WhereClause_chain_ind; simpl; auto.
Qed.

Lemma sum_set_last_right (node tree : WhereClause Q) :
  sum_openParen (set_last_right node tree) = sum_openParen tree + sum_openParen node
  /\ sum_closeParen (set_last_right node tree) = sum_closeParen tree + sum_closeParen node.
Proof.
  induction tree as [l o|l o r [IHo IHc]] using WhereClause_chain_ind; simpl.
  - split; lia.
  - rewrite IHo, IHc. split; lia.
Qed.

(** The counts stored by [expression] are the numbers of parenthesis
    tokens of its context. *)
Lemma expression_parens (ctx : ExpressionContext S) (c : Condition Q) :
  expression visit ctx = Normal c ->
  default 0 (c_openParen c) = List.length (e_L_PAREN ctx)
  /\ default 0 (c_closeParen c) = List.length (e_R_PAREN ctx).
Proof.
  unfold expression. intros H. inv_bind H. destruct a as [operator r].
  injection H as <-. simpl. unfold paren_count.
  destruct (e_L_PAREN ctx), (e_R_PAREN ctx); simpl; auto.
Qed.

Lemma reduce_step_sums (acc : option (WhereClause Q))
    (c : ConditionExpressionContext S) (res : option (WhereClause Q)) :
  reduce_step visit (Normal acc) c = Normal res ->
  res <> None
  /\ fst (sums res) = fst (sums acc) + List.length (e_L_PAREN (ce_expression c))
  /\ snd (sums res) = snd (sums acc) + List.length (e_R_PAREN (ce_expression c)).
Proof.
  unfold reduce_step, conditionExpression. simpl. destruct acc as [tree|]; intros H.
  - inv_bind H. destruct a as [tree' node]. injection H as <-.
    inv_bind Ha. injection Ha as <- <-.
    destruct (expression_parens _ _ Ha0) as [Ho Hc].
    assert (exists t', (match ce_logicalOperator c with
                        | [] => Some tree
                        | op :: _ => Some (set_last_operator (tokenTypeName op) tree)
                        end) = Some t'
                       /\ sum_openParen t' = sum_openParen tree
                       /\ sum_closeParen t' = sum_closeParen tree) as (t' & -> & Ho' & Hc').
    { destruct (ce_logicalOperator c) as [|op ops]; eexists; split; try reflexivity.
      - auto.
      - apply sum_set_last_operator. }
    simpl. destruct (sum_set_last_right (mkWhere a None None) t') as [-> ->].
    simpl. split; [discriminate|]. lia.
  - inv_bind H. destruct a as [tree' node]. injection H as <-.
    inv_bind Ha. injection Ha as _ <-.
    destruct (expression_parens _ _ Ha0) as [Ho Hc].
    simpl. split; [discriminate|]. lia.
Qed.

Lemma reduce_sums (cs : list (ConditionExpressionContext S))
    (acc res : option (WhereClause Q)) :
  fold_left (reduce_step visit) cs (Normal acc) = Normal res ->
  fst (sums res) = fst (sums acc) + count_L_PAREN cs
  /\ snd (sums res) = snd (sums acc) + count_R_PAREN cs
  /\ (cs <> [] -> res <> None).
Proof.
  revert acc. induction cs as [|c cs IH]; intros acc H; cbn [fold_left] in H.
  - injection H as <-. unfold count_L_PAREN, count_R_PAREN. simpl.
    split; [lia|]. split; [lia | congruence].
  - destruct (reduce_step visit (Normal acc) c) as [acc'|e] eqn:Hstep.
    + destruct (reduce_step_sums _ _ _ Hstep) as (Hne & Ho & Hc).
      destruct (IH _ H) as (Ho' & Hc' & Hne').
      unfold count_L_PAREN, count_R_PAREN in *. simpl.
      split; [lia|]. split; [lia|]. intros _.
      destruct cs as [|c' cs']; [|apply Hne'; discriminate].
      simpl in H. injection H as <-. exact Hne.
    + exfalso. clear -H.
      induction cs as [|c' cs' IH']; cbn [fold_left] in H; [discriminate|].
      apply IH'. exact H.
Qed.

End Chain.

(** A WHERE or HAVING clause of a well-formed CST is built into a chain
    whose two sums are the numbers of parenthesis tokens of the clause. *)
Lemma whereClause_parenthesis_sums {S Q} (visit : bool -> S -> Completion Q) (P : S -> Prop)
    (ctx : ConditionsContext S) :
  (forall s b, P s -> returns (visit b s)) ->
  wf_conditions P ctx ->
  exists tree,
    whereClause visit ctx = Normal (Some tree)
    /\ havingClause visit ctx = Normal (Some tree)
    /\ sum_openParen tree = count_L_PAREN (cs_conditionExpression ctx)
    /\ sum_closeParen tree = count_R_PAREN (cs_conditionExpression ctx).
Proof.
  intros Hvisit Hwf.
  destruct (whereClause_returns visit P Hvisit ctx Hwf) as [res Hres].
  unfold havingClause. rewrite Hres.
  unfold whereClause in Hres. destruct Hwf as [Hne _].
  destruct (cs_conditionExpression ctx) as [|c cs] eqn:Hcs; [congruence|].
  rewrite <- Hcs in Hres.
  destruct (reduce_sums visit _ None res Hres) as (Ho & Hc & Hsome).
  destruct res as [tree|]; [|exfalso; apply Hsome; congruence].
  simpl in Ho, Hc. rewrite <- Hcs. exists tree. auto.
Qed.

(** What [selectStatement] stores from the WHERE clause and from the
    HAVING clause of GROUP BY. *)
Lemma selectStatement_body_clauses {S Q} (visit : bool -> S -> Completion Q)
    (isSubquery : bool) (ctx : SelectStatementShape S) (q : QueryShape Q) :
  selectStatement_body visit isSubquery ctx = Normal q ->
  match ss_whereClause ctx with
  | w :: _ => whereClause visit w = Normal (where_ q)
  | [] => where_ q = None
  end
  /\ match ss_groupByClause ctx with
     | g :: _ =>
         exists gb,
           groupBy q = Some gb
           /\ match g_havingClause g with
              | h :: _ => havingClause visit h = Normal (gb_having gb)
              | [] => gb_having gb = None
              end
     | [] => groupBy q = None
     end.
Proof.
  unfold selectStatement_body. intros H.
  inv_bind H. inv_bind H. inv_bind H. inv_bind H. inv_bind H.
  injection H as <-. simpl. split.
  - destruct (ss_whereClause ctx); [injection Ha0 as <-; reflexivity | exact Ha0].
  - destruct (ss_groupByClause ctx) as [|g gs]; [injection Ha2 as <-; reflexivity|].
    apply fmap_Normal in Ha2 as (gb & Hgb & ->). exists gb. split; [reflexivity|].
    unfold groupByClause in Hgb. inv_bind Hgb. inv_bind Hgb. injection Hgb as <-. simpl.
    destruct (g_havingClause g); [injection Ha4 as <-; reflexivity | exact Ha4].
Qed.

(** C8.  For a statement of a well-formed CST whose WHERE clause and whose
    HAVING clause each hold as many opening as closing parenthesis tokens,
    the builder returns a query in which, for the chain of [where] and for
    the chain of [groupBy.having], the sum of [openParen] over the
    conditions reached through the [right] links equals the sum of
    [closeParen], an absent count being zero; the chain of a clause that is
    present is present, and its two sums are the numbers of opening and of
    closing tokens of the clause. *)
Theorem C8_parenthesis_balance (isSubquery : bool) (node : SelectStatementContext) :
  well_formed node ->
  statement_parens_accepted (statement_ctx node) ->
  exists q,
    selectStatement isSubquery node = Normal q
    /\ query_balanced (shape q)
    /\ (forall w ws,
          ss_whereClause (statement_ctx node) = w :: ws ->
          exists tree,
            where_ (shape q) = Some tree
            /\ sum_openParen tree = count_L_PAREN (cs_conditionExpression w)
            /\ sum_closeParen tree = count_R_PAREN (cs_conditionExpression w))
    /\ (forall g gs h hs,
          ss_groupByClause (statement_ctx node) = g :: gs ->
          g_havingClause g = h :: hs ->
          exists gb tree,
            groupBy (shape q) = Some gb /\ gb_having gb = Some tree
            /\ sum_openParen tree = count_L_PAREN (cs_conditionExpression h)
            /\ sum_closeParen tree = count_R_PAREN (cs_conditionExpression h)).
Proof.
  intros Hwf [Hw Hh].
  destruct (selectStatement_returns node isSubquery Hwf) as [q Hq].
  exists q. split; [exact Hq|].
  destruct Hwf as [n Hn]. destruct n as [|n]; [contradiction|].
  destruct node as [ctx]. simpl in Hn, Hw, Hh |- *.
  destruct Hn as (_ & Hwfw & _ & Hwfg & _).
  assert (forall s b, well_formed_upto n s -> returns (selectStatement b s)) as Hvisit
    by (intros s b Hs; eapply selectStatement_returns_upto; exact Hs).
  apply selectStatement_Normal in Hq. simpl in Hq.
  apply selectStatement_body_clauses in Hq as [Hwhere Hgroup].
  assert (forall w ws,
            ss_whereClause ctx = w :: ws ->
            exists tree,
              where_ (shape q) = Some tree
              /\ sum_openParen tree = count_L_PAREN (cs_conditionExpression w)
              /\ sum_closeParen tree = count_R_PAREN (cs_conditionExpression w)) as Hwsum.
  { intros w ws Hws. rewrite Hws in Hwhere, Hwfw. inversion Hwfw as [|? ? Hwfw1 _]; subst.
    destruct (whereClause_parenthesis_sums selectStatement _ w Hvisit Hwfw1)
      as (tree & Ht & _ & Ho & Hc).
    exists tree. rewrite Ht in Hwhere. injection Hwhere as <-. auto. }
  assert (forall g gs h hs,
            ss_groupByClause ctx = g :: gs ->
            g_havingClause g = h :: hs ->
            exists gb tree,
              groupBy (shape q) = Some gb /\ gb_having gb = Some tree
              /\ sum_openParen tree = count_L_PAREN (cs_conditionExpression h)
              /\ sum_closeParen tree = count_R_PAREN (cs_conditionExpression h)) as Hhsum.
  { intros g gs h hs Hgs Hhs. rewrite Hgs in Hgroup, Hwfg.
    inversion Hwfg as [|? ? [_ Hwfh] _]; subst.
    destruct Hgroup as (gb & Hgb & Hhav). rewrite Hhs in Hhav, Hwfh.
    inversion Hwfh as [|? ? Hwfh1 _]; subst.
    destruct (whereClause_parenthesis_sums selectStatement _ h Hvisit Hwfh1)
      as (tree & _ & Ht & Ho & Hc).
    exists gb, tree. rewrite Ht in Hhav. injection Hhav as <-. auto. }
  split; [|split; assumption].
  unfold query_balanced. split.
  - destruct (ss_whereClause ctx) as [|w ws] eqn:Hws.
    + rewrite Hwhere. exact I.
    + destruct (Hwsum w ws eq_refl) as (tree & -> & Ho & Hc).
      inversion Hw as [|? ? Hacc _]; subst. simpl. unfold parens_accepted in Hacc. congruence.
  - destruct (ss_groupByClause ctx) as [|g gs] eqn:Hgs.
    + rewrite Hgroup. exact I.
    + destruct Hgroup as (gb & Hgb & Hhav). rewrite Hgb.
      destruct (g_havingClause g) as [|h hs] eqn:Hhs.
      * rewrite Hhav. exact I.
      * destruct (Hhsum g gs h hs eq_refl Hhs) as (gb' & tree & Hgb' & Htree & Ho & Hc).
        rewrite Hgb in Hgb'. injection Hgb' as <-. rewrite Htree.
        inversion Hh as [|? ? Hg _]; subst. rewrite Hhs in Hg.
        inversion Hg as [|? ? Hacc _]; subst. simpl. unfold parens_accepted in Hacc.
        congruence.
Qed.

(** The builder copies the counts it is given: it does not balance them. *)
Lemma unbalanced_tokens_unbalanced_chain :
  exists tree,
    whereClause (Q:=Query) selectStatement conditions_unbalanced_cst = Normal (Some tree)
    /\ sum_openParen tree = 1 /\ sum_closeParen tree = 0.
Proof. eexists. split; [reflexivity|]. split; reflexivity. Qed.

(** C8, witness: [SELECT Id FROM Account WHERE (A = 'x' AND (B = 'y' OR
    C = 'z'))]. *)
Lemma C8_parenthesis_balance_witness :
  exists q tree,
    selectStatement false cst_where = Normal q
    /\ where_ (shape q) = Some tree
    /\ sum_openParen tree = 2 /\ sum_closeParen tree = 2.
Proof.
  destruct (C8_parenthesis_balance false cst_where) as (q & Hq & _ & Hwhere & _).
  - exists 1. simpl. unfold wf_statement. simpl. split; [repeat constructor|].
    split; [|repeat constructor].
    constructor; [|constructor]. split; [discriminate|]. repeat constructor; simpl; tauto.
  - split; repeat constructor.
  - destruct (Hwhere _ _ eq_refl) as (tree & Htree & Ho & Hc).
    exists q, tree. split; [exact Hq|]. split; [exact Htree|]. split; [exact Ho | exact Hc].
Defined.

(** ** C9: the shape of [orderBy] *)

Lemma selectStatement_body_orderBy {S Q} (visit : bool -> S -> Completion Q)
    (isSubquery : bool) (ctx : SelectStatementShape S) (q : QueryShape Q) :
  selectStatement_body visit isSubquery ctx = Normal q ->
  match ss_orderByClause ctx with
  | o :: _ => exists v, orderByClause o = Normal v /\ orderBy q = Some v
  | [] => orderBy q = None
  end.
Proof.
  unfold selectStatement_body. intros H.
  inv_bind H. inv_bind H. inv_bind H. inv_bind H. inv_bind H.
  injection H as <-. simpl.
  destruct (ss_orderByClause ctx) as [|o os].
  - injection Ha3 as <-. reflexivity.
  - apply fmap_Normal in Ha3 as (v & Hv & ->). eauto.
Qed.

(** C9.  [orderByClause] returns a single [OrderByClause] for a clause with
    exactly one criterion, and the sequence of the criteria's
    [OrderByClause] values, in source order, for a clause with more than
    one; [selectStatement] stores that value as [orderBy]. *)
Theorem C9_orderBy_single_or_sequence :
  (forall item,
      orderByClause (mkOrderByClauseContext [item])
      = Normal (OB_single (visitOrderByItem item)))
  /\ (forall item1 item2 items,
        orderByClause (mkOrderByClauseContext (item1 :: item2 :: items))
        = Normal (OB_sequence (map visitOrderByItem (item1 :: item2 :: items))))
  /\ (forall (isSubquery : bool) (node : SelectStatementContext) (q : Query)
             (o : OrderByClauseContext) (os : list OrderByClauseContext),
        selectStatement isSubquery node = Normal q ->
        ss_orderByClause (statement_ctx node) = o :: os ->
        match o_orderByExpressionOrFn o with
        | [] => False
        | [item] => orderBy (shape q) = Some (OB_single (visitOrderByItem item))
        | items => orderBy (shape q) = Some (OB_sequence (map visitOrderByItem items))
        end).
Proof.
  split; [reflexivity|]. split; [reflexivity|].
  intros isSubquery node q o os Hq Ho.
  apply selectStatement_Normal, selectStatement_body_orderBy in Hq.
  rewrite Ho in Hq. destruct Hq as (v & Hv & ->).
  unfold orderByClause in Hv.
  destruct (o_orderByExpressionOrFn o) as [|item1 [|item2 items]].
  - discriminate.
  - injection Hv as <-. reflexivity.
  - injection Hv as <-. reflexivity.
Qed.

(** C9, witness: [SELECT Id FROM Account ORDER BY Name, CreatedDate DESC]. *)
Lemma C9_orderBy_single_or_sequence_witness :
  exists q,
    selectStatement false cst_order_by_two = Normal q
    /\ orderBy (shape q)
       = Some (OB_sequence
                 [{| ob_field := Some "Name"; ob_fn := None; ob_order := None;
                     ob_nulls := None |};
                  {| ob_field := Some "CreatedDate"; ob_fn := None;
                     ob_order := Some "DESC"; ob_nulls := None |}]).
Proof.
  eexists. split; [reflexivity|].
  destruct C9_orderBy_single_or_sequence as (_ & _ & Hstored).
  exact (Hstored false cst_order_by_two _ _ _ eq_refl eq_refl).
Defined.

(** ** Further properties of the builder *)

(** *** Projected fields: paths, variants and order *)

Lemma join_split (s : string) : join_dot (split dot s) = s.
Proof.
  unfold join_dot. induction s as [|a r IH]; [reflexivity|].
  cbn [split].
  pose proof (split_not_nil dot r) as Hne.
  destruct (Ascii.eqb_spec a dot) as [->|Hd].
  - destruct (split dot r) as [|h t] eqn:Hs; [congruence|].
    change (String.concat "." ("" :: h :: t)) with ("" ++ "." ++ String.concat "." (h :: t)).
    rewrite IH. reflexivity.
  - destruct (split dot r) as [|h t] eqn:Hs; [congruence|].
    destruct t as [|h' t].
    + simpl in *. rewrite IH. reflexivity.
    + change (String.concat "." (String a h :: h' :: t)) with (String a h ++ "." ++ String.concat "." (h' :: t)).
      change (String.concat "." (h :: h' :: t)) with (h ++ "." ++ String.concat "." (h' :: t)) in IH.
      rewrite <- IH. reflexivity.
Qed.

Lemma split_segments_no_separator (c : ascii) (s : string) :
  Forall (fun seg => includes c seg = false) (split c s).
Proof.
  induction s as [|a r IH]; simpl.
  - repeat constructor.
  - destruct (Ascii.eqb a c) eqn:Ha.
    + constructor; [reflexivity | exact IH].
    + pose proof (split_not_nil c r) as Hne.
      destruct (split c r) as [|h t]; [congruence|].
      inversion IH as [|? ? Hh Ht]; subst.
      constructor; [simpl; rewrite Ha; exact Hh | exact Ht].
Qed.

Lemma field_path_field_of_image (raw : string) :
  join_dot (field_path (field_of_image raw)) = raw.
Proof.
  unfold field_of_image, field_path.
  destruct (includes dot raw) eqn:Hi; simpl.
  - rewrite <- snoc_decompose by apply split_not_nil. apply join_split.
  - reflexivity.
Qed.

Lemma field_path_resolve_alias_node (A : string) (n : FieldNode) :
  f_objectPrefix n = None ->
  field_path (resolve_alias_node A n) = field_path n.
Proof.
  destruct n as [t f rels p al raw]. simpl. intros ->.
  unfold resolve_alias_node, field_path. simpl.
  destruct rels as [[|r0 rest]|]; simpl; try reflexivity.
  destruct (String.eqb_spec r0 A) as [->|Hne]; simpl; [|reflexivity].
  destruct rest; reflexivity.
Qed.

Lemma rawValue_resolve_alias_node (A : string) (n : FieldNode) :
  f_rawValue (resolve_alias_node A n) = f_rawValue n.
Proof.
  destruct n as [t f rels p al raw]. unfold resolve_alias_node. simpl.
  destruct rels as [[|r0 rest]|]; simpl; try reflexivity.
  destruct (String.eqb r0 A); simpl; [|reflexivity].
  destruct rest; reflexivity.
Qed.

Lemma alias_pass_lookup {Q} (al : option string) (fs : list (FieldType Q)) (i : nat)
    (n : FieldNode) :
  fs !! i = Some (FieldOrRelationship n) ->
  exists n', alias_pass al fs !! i = Some (FieldOrRelationship n')
    /\ (n' = n \/ exists A, truthy_alias al = Some A /\ n' = resolve_alias_node A n).
Proof.
  intros Hi. unfold alias_pass. destruct (truthy_alias al) as [A|] eqn:HA.
  - exists (resolve_alias_node A n). split; [|right; eauto].
    change (map (resolve_alias A) fs) with (resolve_alias A <$> fs).
    rewrite list_lookup_fmap, Hi. reflexivity.
  - exists n. auto.
Qed.

(** X1.  The dotted path of a projected identifier can be put together
    again from the node built for it.  For the identifier at position [i]
    of the projection list, written [raw], the query holds at position [i]
    a field node whose [objectPrefix] (if any), [relationships] (if any)
    and [field], joined by ['.'], give [raw]; none of these segments
    contains a dot; and [rawValue] is [raw] when [raw] is dotted and absent
    otherwise.  This holds with and without a FROM alias: the alias pass
    moves the first segment to [objectPrefix] and loses none. *)
Theorem X1_projected_path_round_trip (isSubquery : bool) (node : SelectStatementContext)
    (q : Query) (i : nat) (item : SelectItem SelectStatementContext) (raw : string) :
  selectStatement isSubquery node = Normal q ->
  select_items node !! i = Some item ->
  item_image item = Some raw ->
  exists n,
    fields (shape q) !! i = Some (FieldOrRelationship n)
    /\ join_dot (field_path n) = raw
    /\ Forall (fun seg => includes dot seg = false) (field_path n)
    /\ f_rawValue n = (if includes dot raw then Some raw else None).
Proof.
  intros Hq Hi Himg. apply selectStatement_Normal in Hq.
  apply selectStatement_body_Normal in Hq as (fs0 & Hsel & Hf & _).
  unfold selectClause in Hsel.
  destruct (mapC_Normal _ _ _ Hsel) as [_ Hnth].
  destruct (Hnth i item Hi) as (f0 & Hf0 & Hitem).
  destruct (selectItem_identifier _ _ _ _ Himg Hitem) as (n0 & -> & Hb).
  assert (field_path n0 = field_path (field_of_image raw)
          /\ f_objectPrefix n0 = None
          /\ f_rawValue n0 = f_rawValue (field_of_image raw)) as (Hpath & Hp & Hraw).
  { destruct Hb as [->|[a ->]]; repeat split;
      unfold field_of_image; destruct (includes dot raw); reflexivity. }
  destruct (alias_pass_lookup (truthy_alias (fr_alias (fromClause (ss_fromClause (statement_ctx node)))))
              fs0 i n0 Hf0) as (n' & Hn' & Hcase).
  exists n'. rewrite Hf. split; [exact Hn'|].
  assert (field_path n' = field_path (field_of_image raw)
          /\ f_rawValue n' = f_rawValue (field_of_image raw)) as [-> ->].
  { destruct Hcase as [->|(A & _ & ->)]; [auto|].
    rewrite field_path_resolve_alias_node, rawValue_resolve_alias_node by exact Hp. auto. }
  split; [apply field_path_field_of_image|]. split.
  - unfold field_of_image, field_path. destruct (includes dot raw) eqn:Hinc; simpl.
    + rewrite <- snoc_decompose by apply split_not_nil. apply split_segments_no_separator.
    + repeat constructor. exact Hinc.
  - unfold field_of_image. destruct (includes dot raw); reflexivity.
Qed.

(** X1, witness: [a.Owner.Name] in
    [SELECT a.Id, a.Owner.Name, Id FROM Account a]. *)
Lemma X1_projected_path_round_trip_witness :
  exists q,
    selectStatement false cst_alias = Normal q
    /\ exists n,
         fields (shape q) !! 1 = Some (FieldOrRelationship n)
         /\ join_dot (field_path n) = "a.Owner.Name"
         /\ Forall (fun seg => includes dot seg = false) (field_path n)
         /\ f_rawValue n = Some "a.Owner.Name".
Proof.
  eexists. split; [reflexivity|].
  apply (X1_projected_path_round_trip false cst_alias _ 1
           (SelectToken (ident "a.Owner.Name")) "a.Owner.Name"); reflexivity.
Defined.

Lemma field_of_image_shape (raw : string) :
  let n := field_of_image raw in
  f_objectPrefix n = None
  /\ ((f_type n = "Field" /\ f_relationships n = None)
      \/ (f_type n = "FieldRelationship"
          /\ exists r rs, f_relationships n = Some (r :: rs))).
Proof.
  unfold field_of_image. destruct (includes dot raw) eqn:Hinc; simpl.
  - split; [reflexivity|]. right. split; [reflexivity|].
    apply includes_split in Hinc.
    pose proof (snoc_decompose (split dot raw) (split_not_nil dot raw)) as Hd.
    destruct (init_segments (split dot raw)) as [|r rs]; [|eauto].
    rewrite Hd in Hinc. simpl in Hinc. lia.
  - split; [reflexivity|]. left. split; reflexivity.
Qed.

Lemma resolve_alias_node_shape (A : string) (n : FieldNode) :
  f_objectPrefix n = None ->
  (f_type n = "Field" /\ f_relationships n = None)
  \/ (f_type n = "FieldRelationship" /\ exists r rs, f_relationships n = Some (r :: rs)) ->
  let n' := resolve_alias_node A n in
  ((f_type n' = "Field" /\ f_relationships n' = None)
   \/ (f_type n' = "FieldRelationship" /\ exists r rs, f_relationships n' = Some (r :: rs)))
  /\ (forall p, f_objectPrefix n' = Some p ->
        p = A /\ f_relationships n = Some (A :: default [] (f_relationships n'))).
Proof.
  destruct n as [t f rels p al raw]. simpl. intros -> Hshape.
  unfold resolve_alias_node. simpl.
  destruct Hshape as [[-> ->]|[-> (r & rs & ->)]]; simpl.
  - split; [left; auto | discriminate].
  - destruct (String.eqb_spec r A) as [->|Hne]; simpl.
    + destruct rs as [|r' rs]; simpl.
      * split; [left; auto|]. intros p [= <-]. auto.
      * split; [right; eauto|]. intros p [= <-]. auto.
    + split; [right; eauto | discriminate].
Qed.

(** X2.  Every field node of a built query is of one of two variants: a
    ['Field'] without [relationships], or a ['FieldRelationship'] whose
    [relationships] is a non-empty array (the alias pass deletes an array
    it has emptied and retags the node).  A node has an [objectPrefix]
    only in a query with a FROM alias: the prefix is that alias, it is not
    the empty string, and the path written in the query, kept in
    [rawValue], is the prefix followed by the remaining relationships and
    the field. *)
Theorem X2_projected_field_invariant (isSubquery : bool) (node : SelectStatementContext)
    (q : Query) (n : FieldNode) :
  selectStatement isSubquery node = Normal q ->
  FieldOrRelationship n ∈ fields (shape q) ->
  ((f_type n = "Field" /\ f_relationships n = None)
   \/ (f_type n = "FieldRelationship" /\ exists r rs, f_relationships n = Some (r :: rs)))
  /\ (forall p, f_objectPrefix n = Some p ->
        sObjectAlias (shape q) = Some p /\ p <> ""
        /\ exists raw, f_rawValue n = Some raw
             /\ split dot raw = (p :: default [] (f_relationships n) ++ [f_field n])%list).
Proof.
  intros Hq Hin. apply selectStatement_Normal in Hq.
  apply selectStatement_body_Normal in Hq as (fs0 & Hsel & Hf & Hal & _).
  unfold selectClause in Hsel. rewrite Hf in Hin. unfold alias_pass in Hin.
  assert (forall n0, FieldOrRelationship n0 ∈ fs0 ->
            exists raw, built_from raw n0) as Hbuilt.
  { intros n0 Hn0. destruct (mapC_elem_of _ _ _ _ Hsel Hn0) as (item & _ & Hitem).
    destruct (selectItem_node _ _ _ Hitem) as (raw & _ & Hb). eauto. }
  assert (forall n0 raw, built_from raw n0 ->
            f_objectPrefix n0 = None
            /\ ((f_type n0 = "Field" /\ f_relationships n0 = None)
                \/ (f_type n0 = "FieldRelationship"
                    /\ exists r rs, f_relationships n0 = Some (r :: rs)))) as Hshape.
  { intros n0 raw Hb. apply built_from_fields in Hb as (Ht & _ & Hr & Hp & _).
    destruct (field_of_image_shape raw) as [_ Hs]. rewrite Ht, Hr. auto. }
  destruct (truthy_alias (truthy_alias (fr_alias (fromClause (ss_fromClause (statement_ctx node))))))
    as [A|] eqn:HA.
  - apply truthy_alias_Some in HA as [HA Htr]. rewrite HA in Hal.
    change (map (resolve_alias A) fs0) with (resolve_alias A <$> fs0) in Hin.
    apply list_elem_of_fmap in Hin as (f0 & Hf0 & Hin0).
    destruct f0 as [n0| | |]; simpl in Hf0; try discriminate. injection Hf0 as ->.
    destruct (Hbuilt n0 Hin0) as (raw & Hb).
    destruct (Hshape n0 raw Hb) as [Hp Hs].
    destruct (resolve_alias_node_shape A n0 Hp Hs) as [Hs' Hpre].
    split; [exact Hs'|]. intros p Hp'. destruct (Hpre p Hp') as [-> Hr0].
    split; [exact Hal|]. split; [intros ->; discriminate|].
    apply built_from_fields in Hb as (_ & Hfd & Hrel & _ & Hraw).
    rewrite Hr0 in Hrel. symmetry in Hrel.
    apply field_of_image_relationships in Hrel as (Hsplit & _ & Hraw' & _).
    exists raw. rewrite rawValue_resolve_alias_node. split; [congruence|].
    destruct (resolve_alias_node_head A n0 _ Hr0) as (_ & Hfd' & _).
    rewrite Hsplit, Hfd', Hfd. reflexivity.
  - destruct (Hbuilt n Hin) as (raw & Hb). destruct (Hshape n raw Hb) as [Hp Hs].
    split; [exact Hs|]. intros p Hp'. congruence.
Qed.

(** X2, witness: [a.Id] in [SELECT a.Id, a.Owner.Name, Id FROM Account a]. *)
Lemma X2_projected_field_invariant_witness :
  exists q n,
    selectStatement false cst_alias = Normal q
    /\ FieldOrRelationship n ∈ fields (shape q)
    /\ f_objectPrefix n = Some "a"
    /\ ((f_type n = "Field" /\ f_relationships n = None)
        \/ (f_type n = "FieldRelationship"
            /\ exists r rs, f_relationships n = Some (r :: rs)))
    /\ (forall p, f_objectPrefix n = Some p ->
          sObjectAlias (shape q) = Some p /\ p <> ""
          /\ exists raw, f_rawValue n = Some raw
               /\ split dot raw = (p :: default [] (f_relationships n) ++ [f_field n])%list).
Proof.
  eexists.
  exists (mkFieldNode "Field" "Id" None (Some "a") None (Some "a.Id")).
  split; [reflexivity|]. split; [left|]. split; [reflexivity|].
  apply (X2_projected_field_invariant false cst_alias _ _ eq_refl). left.
Defined.

(** X3.  [fields] has one entry per element of the projection list, in
    source order: entry [i] is what the visitor builds for element [i],
    after the alias pass when the FROM clause has an alias, and the alias
    pass leaves every entry that is not a plain identifier (a function, a
    subquery, a TYPEOF) as it was built. *)
Theorem X3_fields_in_source_order (isSubquery : bool) (node : SelectStatementContext)
    (q : Query) :
  selectStatement isSubquery node = Normal q ->
  List.length (fields (shape q)) = List.length (select_items node)
  /\ forall i item,
       select_items node !! i = Some item ->
       exists f0,
         selectItem selectStatement item = Normal f0
         /\ fields (shape q) !! i
            = Some (match sObjectAlias (shape q) with
                    | Some A => resolve_alias A f0
                    | None => f0
                    end)
         /\ (item_image item = None -> fields (shape q) !! i = Some f0).
Proof.
  intros Hq. apply selectStatement_Normal in Hq.
  apply selectStatement_body_Normal in Hq as (fs0 & Hsel & Hf & Hal & _).
  unfold selectClause in Hsel. destruct (mapC_Normal _ _ _ Hsel) as [Hlen Hnth].
  assert (fields (shape q)
          = (fun f0 => match sObjectAlias (shape q) with
                       | Some A => resolve_alias A f0
                       | None => f0
                       end) <$> fs0) as Hfields.
  { rewrite Hf, Hal.
    destruct (truthy_alias (fr_alias _)) as [A|] eqn:HA.
    - apply truthy_alias_Some in HA as [_ Htr]. unfold alias_pass. simpl.
      rewrite Htr. reflexivity.
    - unfold alias_pass. simpl. symmetry. apply list_fmap_id. }
  split.
  - rewrite Hfields, length_fmap. exact Hlen.
  - intros i item Hi. destruct (Hnth i item Hi) as (f0 & Hf0 & Hitem).
    exists f0. split; [exact Hitem|].
    assert (fields (shape q) !! i
            = Some (match sObjectAlias (shape q) with
                    | Some A => resolve_alias A f0
                    | None => f0
                    end)) as Hlook.
    { rewrite Hfields, list_lookup_fmap, Hf0. reflexivity. }
    split; [exact Hlook|]. intros Hnone. rewrite Hlook.
    destruct (sObjectAlias (shape q)); [|reflexivity].
    destruct f0 as [n| | |]; try reflexivity.
    destruct (selectItem_node _ _ _ Hitem) as (raw & Hraw & _). congruence.
Qed.

(** X3, witness: the two projected items of
    [SELECT Id, (SELECT Id FROM Contacts) FROM Account WHERE ...]. *)
Lemma X3_fields_in_source_order_witness :
  exists q,
    selectStatement false cst_nested = Normal q
    /\ List.length (fields (shape q)) = 2.
Proof.
  eexists. split; [reflexivity|].
  apply (X3_fields_in_source_order false cst_nested _ eq_refl).
Defined.

(** *** The FROM target *)

Lemma last_segment_no_separator (s : string) :
  includes dot (last_segment (split dot s)) = false.
Proof.
  pose proof (split_segments_no_separator dot s) as Hall.
  rewrite (snoc_decompose (split dot s) (split_not_nil dot s)) in Hall.
  apply Forall_app in Hall as [_ Hlast]. inversion Hlast; subst. assumption.
Qed.

(** X4.  The name stored from the FROM clause ([sObject] of a query,
    [relationshipName] of a subquery; the other of the two is absent)
    never contains a dot.  For a subquery the FROM target as written is
    [sObjectPrefix] followed by [relationshipName], joined by ['.']; when
    the target has no dot the name is the target and there is no
    [sObjectPrefix]. *)
Theorem X4_from_target_round_trip (isSubquery : bool) (node : SelectStatementContext)
    (q : Query) :
  selectStatement isSubquery node = Normal q ->
  let target := image (fc_Identifier (ss_fromClause (statement_ctx node))) in
  exists name,
    (if isSubquery then relationshipName (shape q) else sObject (shape q)) = Some name
    /\ (if isSubquery then sObject (shape q) else relationshipName (shape q)) = None
    /\ includes dot name = false
    /\ (isSubquery = true ->
        join_dot (default [] (sObjectPrefix (shape q)) ++ [name]) = target)
    /\ (includes dot target = false -> name = target /\ sObjectPrefix (shape q) = None).
Proof.
  intros Hq target. apply selectStatement_Normal in Hq.
  apply selectStatement_body_Normal in Hq as (fs0 & _ & _ & _ & Hs & Hr & Hp).
  exists (fr_sObject (fromClause (ss_fromClause (statement_ctx node)))).
  split; [destruct isSubquery; assumption|].
  split; [destruct isSubquery; assumption|].
  unfold fromClause in *. fold target in Hp |- *.
  destruct (includes dot target) eqn:Hinc; simpl in *.
  - split; [apply last_segment_no_separator|]. split; [|discriminate].
    intros ->. rewrite Hp. simpl.
    rewrite <- snoc_decompose by apply split_not_nil. apply join_split.
  - split; [exact Hinc|]. split.
    + intros ->. rewrite Hp. reflexivity.
    + intros _. split; [reflexivity|]. destruct isSubquery; exact Hp.
Qed.

(** X4, witness: [FROM ns.Account] in a subquery. *)
Lemma X4_from_target_round_trip_witness :
  exists q name,
    selectStatement true cst_dotted_from = Normal q
    /\ relationshipName (shape q) = Some name
    /\ join_dot (default [] (sObjectPrefix (shape q)) ++ [name]) = "ns.Account".
Proof.
  eexists.
  destruct (X4_from_target_round_trip true cst_dotted_from _ eq_refl)
    as (name & Hn & _ & _ & Hj & _).
  exists name. split; [reflexivity|]. split; [exact Hn | exact (Hj eq_refl)].
Defined.

(** *** Conditions and their chains *)

Section ChainNodes.
Context {S Q : Type} (visit : bool -> S -> Completion Q).

Lemma chain_nodes_set_last_operator (op : string) (tree : WhereClause Q)
    (pre : list (Condition Q * option string)) (l : Condition Q) (o : option string) :
  chain_nodes tree = (pre ++ [(l, o)])%list ->
  chain_nodes (set_last_operator op tree) = (pre ++ [(l, Some op)])%list.
Proof.
  revert pre. induction tree as [l0 o0|l0 o0 r IH] using WhereClause_chain_ind;
    intros pre; simpl.
  - destruct pre as [|p [|p' pre]]; simpl; intros [= -> ->]; reflexivity.
  - destruct pre as [|p pre]; simpl.
    + intros [= -> -> Hnil]. destruct r; discriminate.
    + intros [= -> Hr]. rewrite (IH _ Hr). reflexivity.
Qed.

Lemma chain_nodes_set_last_right (node tree : WhereClause Q) :
  chain_nodes (set_last_right node tree) = (chain_nodes tree ++ chain_nodes node)%list.
Proof.
  induction tree as [l0 o0|l0 o0 r IH] using WhereClause_chain_ind; simpl.
  - reflexivity.
  - rewrite IH. reflexivity.
Qed.

Lemma reduce_Throw (cs : list (ConditionExpressionContext S)) (e : Exn) :
  fold_left (reduce_step visit) cs (Throw e) = Throw e.
Proof. induction cs as [|c cs IH]; [reflexivity | exact IH]. Qed.

Lemma reduce_chain_nodes (cs : list (ConditionExpressionContext S))
    (tree : WhereClause Q) (res : option (WhereClause Q))
    (pre : list (Condition Q * option string)) (l : Condition Q) :
  fold_left (reduce_step visit) cs (Normal (Some tree)) = Normal res ->
  chain_nodes tree = (pre ++ [(l, None)])%list ->
  exists tree' conds,
    res = Some tree'
    /\ mapC (fun c => expression visit (ce_expression c)) cs = Normal conds
    /\ (chain_nodes tree').*1 = (pre.*1 ++ l :: conds)%list
    /\ (chain_nodes tree').*2
       = (pre.*2 ++ map (fun c => first_tokenTypeName (ce_logicalOperator c)) cs
            ++ [None])%list.
Proof.
  revert tree pre l. induction cs as [|c cs IH]; intros tree pre l H Hn;
    cbn [fold_left] in H.
  - injection H as <-. exists tree, []. rewrite Hn, !fmap_app. simpl. auto.
  - destruct (reduce_step visit (Normal (Some tree)) c) as [acc|e] eqn:Hstep;
      [|rewrite reduce_Throw in H; discriminate].
    unfold reduce_step, conditionExpression in Hstep. simpl in Hstep.
    inv_bind Hstep. destruct a as [t' node]. injection Hstep as <-.
    inv_bind Ha. injection Ha as <- <-.
    assert (exists t',
              match ce_logicalOperator c with
              | [] => Some tree
              | op :: _ => Some (set_last_operator (tokenTypeName op) tree)
              end = Some t'
              /\ chain_nodes t'
                 = (pre ++ [(l, first_tokenTypeName (ce_logicalOperator c))])%list)
      as (t' & Ht' & Hn').
    { destruct (ce_logicalOperator c) as [|op ops]; eexists; (split; [reflexivity|]).
      - exact Hn.
      - apply (chain_nodes_set_last_operator _ _ _ _ _ Hn). }
    rewrite Ht' in H. simpl in H.
    edestruct (IH (set_last_right (mkWhere a None None) t')
                 (pre ++ [(l, first_tokenTypeName (ce_logicalOperator c))])%list a H)
      as (tree' & conds & -> & Hm & H1 & H2).
    { rewrite chain_nodes_set_last_right, Hn'. reflexivity. }
    exists tree', (a :: conds). split; [reflexivity|].
    split; [simpl; rewrite Ha0; simpl; rewrite Hm; reflexivity|].
    rewrite H1, H2, !fmap_app. simpl. rewrite <- !app_assoc. auto.
Qed.

End ChainNodes.

Lemma whereClause_chain_nodes {S Q} (visit : bool -> S -> Completion Q)
    (ctx : ConditionsContext S) (res : option (WhereClause Q)) :
  whereClause visit ctx = Normal res ->
  exists tree, res = Some tree /\ chain_built_from visit ctx tree.
Proof.
  intros H. unfold whereClause in H. unfold chain_built_from.
  destruct (cs_conditionExpression ctx) as [|c cs]; [discriminate|].
  cbn [fold_left] in H.
  destruct (reduce_step visit (Normal None) c) as [acc|e] eqn:Hstep;
    [|rewrite reduce_Throw in H; discriminate].
  unfold reduce_step, conditionExpression in Hstep. simpl in Hstep.
  inv_bind Hstep. destruct a as [t' node]. injection Hstep as <-.
  inv_bind Ha. injection Ha as _ <-.
  destruct (reduce_chain_nodes visit cs (mkWhere a None None) res [] a H eq_refl)
    as (tree & conds & -> & Hm & H1 & H2).
  exists tree. split; [reflexivity|].
  split; [simpl; rewrite Ha0; simpl; rewrite Hm, H1; reflexivity | exact H2].
Qed.

(** X5.  The [where] chain of a query and the [having] chain of its
    [groupBy] hold the conditions of their clause in source order, one
    node per condition expression: node [i] has as [left] the condition
    built from expression [i], as [operator] the token type of the logical
    operator written before expression [i + 1] (absent when none is
    written), and the last node has neither [operator] nor [right].  A
    logical operator before the first expression is ignored. *)
Theorem X5_chains_in_source_order (isSubquery : bool) (node : SelectStatementContext)
    (q : Query) :
  selectStatement isSubquery node = Normal q ->
  (forall w ws, ss_whereClause (statement_ctx node) = w :: ws ->
     exists tree,
       where_ (shape q) = Some tree /\ chain_built_from selectStatement w tree)
  /\ (forall g gs h hs,
        ss_groupByClause (statement_ctx node) = g :: gs -> g_havingClause g = h :: hs ->
        exists gb tree,
          groupBy (shape q) = Some gb /\ gb_having gb = Some tree
          /\ chain_built_from selectStatement h tree).
Proof.
  intros Hq. apply selectStatement_Normal in Hq.
  apply selectStatement_body_clauses in Hq as [Hw Hg]. split.
  - intros w ws Hws. rewrite Hws in Hw.
    destruct (whereClause_chain_nodes _ _ _ Hw) as (tree & Hres & Hc). eauto.
  - intros g gs h hs Hgs Hhs. rewrite Hgs in Hg. destruct Hg as (gb & Hgb & Hh).
    rewrite Hhs in Hh. unfold havingClause in Hh.
    destruct (whereClause_chain_nodes _ _ _ Hh) as (tree & Hres & Hc). eauto.
Qed.

(** X5, witness: [WHERE (A = 'x' AND (B = 'y' OR C = 'z'))]. *)
Lemma X5_chains_in_source_order_witness :
  exists q tree,
    selectStatement false cst_where = Normal q
    /\ where_ (shape q) = Some tree
    /\ (chain_nodes tree).*2 = [Some "AND"; Some "OR"; None].
Proof.
  eexists.
  destruct (X5_chains_in_source_order false cst_where _ eq_refl) as [Hw _].
  destruct (Hw conditions_cst [] eq_refl) as (tree & Htree & _ & Hops).
  exists tree. split; [reflexivity|]. split; [exact Htree | exact Hops].
Defined.

Lemma getLiteralTypeFromTokenType_not_SUBQUERY (n : string) :
  String.eqb (getLiteralTypeFromTokenType n) "SUBQUERY" = false.
Proof. apply (getLiteralTypeFromType_cases (Some n)). Qed.

(** A right-hand side is tagged [SUBQUERY] only by the branch of
    [whereClauseSubqueryIdentifier]. *)
Lemma atomicExpression_SUBQUERY {S Q} (visit : bool -> S -> Completion Q)
    (ctx : AtomicExpressionContext S) (r : AtomicResult Q) :
  atomicExpression visit ctx = Normal r ->
  (is_SUBQUERY (ar_literalType r) = true ->
   exists s q, s ∈ a_whereClauseSubqueryIdentifier ctx /\ visit false s = Normal q
     /\ ar_value r = Some (V_query q) /\ ar_dateLiteralVariable r = None)
  /\ (is_Some (ar_value r) <-> is_Some (ar_literalType r))
  /\ (forall q, ar_value r = Some (V_query q) -> is_SUBQUERY (ar_literalType r) = true).
Proof.
  unfold atomicExpression, scalar.
  repeat match goal with
         | |- context [match ?l with [] => _ | _ :: _ => _ end] => destruct l
         end;
    intros H;
    try (inv_bind H);
    try discriminate;
    injection H as <-;
    rewrite ?atomicExpression_array_not_SUBQUERY; simpl;
    rewrite ?getLiteralTypeFromTokenType_not_SUBQUERY;
    (split; [try discriminate
            | split; [split; intros [? ?]; try discriminate; eauto
                     | try discriminate; try reflexivity]]).
  intros _. eexists _, _. split; [left|]. eauto.
Qed.

(** The condition built around a right-hand side tagged [SUBQUERY]. *)
Lemma expression_valueQuery {S Q} (visit : bool -> S -> Completion Q)
    (ctx : ExpressionContext S) (c : Condition Q) (v : RhsValue Q) :
  expression visit ctx = Normal c -> c_valueQuery c = Some v ->
  (exists s q, visit false s = Normal q /\ v = V_query q)
  /\ c_value c = None /\ c_literalType c = None /\ c_dateLiteralVariable c = None.
Proof.
  unfold expression. intros H. inv_bind H. destruct a as [op r].
  injection H as <-. simpl.
  unfold expressionWithOperator in Ha. inv_bind Ha. injection Ha as _ <-.
  destruct (atomicExpression_SUBQUERY visit _ _ Ha0) as (Hsub & _ & _).
  intros Hv. destruct (is_SUBQUERY (ar_literalType a)) eqn:Hs; [|discriminate].
  destruct (Hsub eq_refl) as (s & q & _ & Hvis & Hval & Hd).
  rewrite Hd. simpl. repeat split; try reflexivity.
  exists s, q. split; [exact Hvis | congruence].
Qed.

(** X6.  In every condition that [expression] builds: exactly one of
    [field] and [fn] is present; [value] is present exactly when
    [literalType] is; [value] is never a query; and when [valueQuery] is
    present it is a query and [value], [literalType] and
    [dateLiteralVariable] are absent. *)
Theorem X6_condition_sides {S Q} (visit : bool -> S -> Completion Q)
    (ctx : ExpressionContext S) (c : Condition Q) :
  expression visit ctx = Normal c ->
  (is_Some (c_field c) <-> c_fn c = None)
  /\ (is_Some (c_value c) <-> is_Some (c_literalType c))
  /\ (forall q, c_value c <> Some (V_query q))
  /\ (forall v, c_valueQuery c = Some v ->
        (exists q, v = V_query q)
        /\ c_value c = None /\ c_literalType c = None
        /\ c_dateLiteralVariable c = None).
Proof.
  intros H. split; [|split; [|split]].
  4: { intros v Hv. destruct (expression_valueQuery _ _ _ _ H Hv) as ((s & q & _ & ->) & ?).
       split; [eauto | assumption]. }
  all: unfold expression in H; inv_bind H; destruct a as [op r];
    injection H as <-; simpl;
    unfold expressionWithOperator in Ha; inv_bind Ha; injection Ha as _ <-;
    destruct (atomicExpression_SUBQUERY visit _ _ Ha0) as (Hsub & Hiff & Hq).
  - destruct (e_lhs ctx); split; intros H; try reflexivity; try discriminate; eauto.
    destruct H; discriminate.
  - destruct (is_SUBQUERY (ar_literalType a)); [|exact Hiff].
    split; intros [? ?]; discriminate.
  - intros q Hv. destruct (is_SUBQUERY (ar_literalType a)) eqn:Hs; [discriminate|].
    discriminate (Hq q Hv).
Qed.

(** X6, witness: [Stage IN ('a', 1)]. *)
Lemma X6_condition_sides_witness :
  exists c,
    expression selectStatement (in_expression_cst (atom_array array_string_integer))
    = Normal c
    /\ (is_Some (c_field c) <-> c_fn c = None)
    /\ (is_Some (c_value c) <-> is_Some (c_literalType c)).
Proof.
  eexists. split; [reflexivity|].
  destruct (X6_condition_sides selectStatement
              (in_expression_cst (atom_array array_string_integer)) _ eq_refl)
    as (H1 & H2 & _).
  split; [exact H1 | exact H2].
Defined.

Lemma replace_first_absent (c d : ascii) (s : string) :
  includes c s = false -> replace_first c d s = s.
Proof.
  induction s as [|a r IH]; simpl; [reflexivity|].
  destruct (Ascii.eqb a c); [discriminate|]. intros H. rewrite (IH H). reflexivity.
Qed.

Lemma replace_first_present (c d : ascii) (a b : string) :
  includes c a = false ->
  replace_first c d (a ++ String c b) = (a ++ String d b)%string.
Proof.
  induction a as [|x a IH]; simpl.
  - rewrite Ascii.eqb_refl. reflexivity.
  - destruct (Ascii.eqb x c); [discriminate|]. intros H. rewrite (IH H). reflexivity.
Qed.

Lemma replace_first_length (c d : ascii) (s : string) :
  String.length (replace_first c d s) = String.length s.
Proof.
  induction s as [|a r IH]; simpl; [reflexivity|].
  destruct (Ascii.eqb a c); simpl; [reflexivity | rewrite IH; reflexivity].
Qed.

(** X7.  The [operator] of a condition: with a relational operator it is
    the image of the token as written; with a set operator it is the token
    type name with its first underscore, and only that one, replaced by a
    space (the name itself when it has no underscore), of the same length;
    with neither it is absent. *)
Theorem X7_condition_operator {S Q} (visit : bool -> S -> Completion Q)
    (ctx : ExpressionContext S) (c : Condition Q) :
  expression visit ctx = Normal c ->
  (forall t ts, eo_relationalOperator (e_operator ctx) = t :: ts -> image t <> "" ->
     c_operator c = Some (image t))
  /\ (forall t ts, eo_relationalOperator (e_operator ctx) = [] ->
        eo_setOperator (e_operator ctx) = t :: ts ->
        exists op,
          c_operator c = Some op
          /\ String.length op = String.length (tokenTypeName t)
          /\ (includes "_" (tokenTypeName t) = false -> op = tokenTypeName t)
          /\ (forall a b, tokenTypeName t = (a ++ String "_" b)%string ->
                includes "_" a = false -> op = (a ++ String " " b)%string))
  /\ (eo_relationalOperator (e_operator ctx) = [] ->
      eo_setOperator (e_operator ctx) = [] -> c_operator c = None).
Proof.
  unfold expression. intros H. inv_bind H. destruct a as [op r].
  injection H as <-. simpl.
  unfold expressionWithOperator in Ha. inv_bind Ha. injection Ha as <- _.
  unfold visit_operator, relationalOperator, setOperator.
  split; [|split].
  - intros t ts -> Hne. destruct (image t); [congruence | reflexivity].
  - intros t ts -> ->. eexists. split; [reflexivity|].
    split; [apply replace_first_length|]. split.
    + apply replace_first_absent.
    + intros pre post -> Hpre. apply replace_first_present. exact Hpre.
  - intros -> ->. reflexivity.
Qed.

(** X7, witness: the token type [NOT_IN] gives the operator [NOT IN]. *)
Lemma X7_condition_operator_witness :
  exists c,
    expression selectStatement
      (mkExpressionContext [] (IsTok (ident "Stage"))
         (mkExpressionOperatorContext [] [mkToken "NOT IN" "NOT_IN"]
            (atom_array array_string_integer)) [] [])
    = Normal c
    /\ c_operator c = Some "NOT IN".
Proof.
  eexists. split; [reflexivity|].
  destruct (X7_condition_operator selectStatement
              (mkExpressionContext [] (IsTok (ident "Stage"))
                 (mkExpressionOperatorContext [] [mkToken "NOT IN" "NOT_IN"]
                    (atom_array array_string_integer)) [] []) _ eq_refl)
    as (_ & Hset & _).
  destruct (Hset (mkToken "NOT IN" "NOT_IN") [] eq_refl eq_refl) as (op & Hop & _ & _ & Hu).
  rewrite Hop. f_equal. apply (Hu "NOT" "IN"); reflexivity.
Defined.




Lemma resolve_alias_FieldSubquery {Q} (A : string) (f : FieldType Q) (sub : Q) :
  resolve_alias A f = FieldSubquery sub -> f = FieldSubquery sub.
Proof. destruct f; simpl; intros H; (discriminate || exact H). Qed.

Lemma alias_pass_FieldSubquery {Q} (al : option string) (fs : list (FieldType Q)) (sub : Q) :
  FieldSubquery sub ∈ alias_pass al fs -> FieldSubquery sub ∈ fs.
Proof.
  unfold alias_pass. destruct (truthy_alias al) as [A|]; [|auto].
  change (map (resolve_alias A) fs) with (resolve_alias A <$> fs).
  intros H. apply list_elem_of_fmap in H as (f & Hf & Hin).
  symmetry in Hf. apply resolve_alias_FieldSubquery in Hf as ->. exact Hin.
Qed.

Lemma selectItem_FieldSubquery {S Q} (visit : bool -> S -> Completion Q)
    (item : SelectItem S) (sub : Q) :
  selectItem visit item = Normal (FieldSubquery sub) ->
  exists s, item = selectClauseSubqueryIdentifierNode s /\ visit true s = Normal sub.
Proof.
  destruct item as [t|fn al|s|c|t al]; simpl; try discriminate.
  - intros H. inv_bind H. injection H as <-. eauto.
  - unfold selectClauseTypeOf. destruct (to_selectClauseTypeOfThen c); [discriminate|].
    intros H. inv_bind H. destruct (to_selectClauseTypeOfElse c).
    + discriminate.
    + inv_bind H. discriminate.
Qed.

(** X9.  The two kinds of nested queries.  A subquery of the projection
    list is built as a [Subquery]: it has [relationshipName] and no
    [sObject].  A subquery on the right-hand side of a WHERE condition
    ([valueQuery]) is built as a [Query]: it has [sObject] and neither
    [relationshipName] nor [sObjectPrefix]. *)
Theorem X9_nested_query_kinds (isSubquery : bool) (node : SelectStatementContext)
    (q : Query) :
  selectStatement isSubquery node = Normal q ->
  (forall sub, FieldSubquery sub ∈ fields (shape q) ->
     is_Some (relationshipName (shape sub)) /\ sObject (shape sub) = None)
  /\ (forall tree c o sq,
        where_ (shape q) = Some tree -> (c, o) ∈ chain_nodes tree ->
        c_valueQuery c = Some (V_query sq) ->
        is_Some (sObject (shape sq)) /\ relationshipName (shape sq) = None
        /\ sObjectPrefix (shape sq) = None).
Proof.
  intros Hq. apply selectStatement_Normal in Hq. split.
  - intros sub Hin.
    apply selectStatement_body_Normal in Hq as (fs0 & Hsel & Hf & _).
    rewrite Hf in Hin. apply alias_pass_FieldSubquery in Hin.
    destruct (mapC_elem_of _ _ _ _ Hsel Hin) as (item & _ & Hitem).
    apply selectItem_FieldSubquery in Hitem as (s & _ & Hs).
    apply selectStatement_Normal, selectStatement_body_Normal in Hs
      as (_ & _ & _ & _ & Hso & Hrn & _).
    rewrite Hso, Hrn. split; [eexists; reflexivity | reflexivity].
  - intros tree c o sq Hw Hin Hv.
    apply selectStatement_body_clauses in Hq as [Hwc _].
    destruct (ss_whereClause (statement_ctx node)) as [|w ws]; [congruence|].
    destruct (whereClause_chain_nodes _ _ _ Hwc) as (tree' & Heq & Hm & _).
    rewrite Hw in Heq. injection Heq as <-.
    assert (c ∈ (chain_nodes tree).*1) as Hc.
    { apply list_elem_of_fmap. exists (c, o). split; [reflexivity | exact Hin]. }
    destruct (mapC_elem_of _ _ _ _ Hm Hc) as (ce & _ & He).
    destruct (expression_valueQuery _ _ _ _ He Hv) as ((s & sq' & Hs & Hsq) & _).
    injection Hsq as ->.
    apply selectStatement_Normal, selectStatement_body_Normal in Hs
      as (_ & _ & _ & _ & Hso & Hrn & Hpre).
    rewrite Hso, Hrn, Hpre. split; [eexists; reflexivity | split; reflexivity].
Qed.

(** X9, witness: the projected subquery of
    [SELECT Id, (SELECT Id FROM Contacts) FROM Account WHERE ...]. *)
Lemma X9_nested_query_kinds_witness :
  exists q sub,
    selectStatement false cst_nested = Normal q
    /\ fields (shape q) !! 1 = Some (FieldSubquery sub)
    /\ is_Some (relationshipName (shape sub)) /\ sObject (shape sub) = None.
Proof.
  eexists. eexists. split; [reflexivity|]. split; [reflexivity|].
  refine (proj1 (X9_nested_query_kinds false cst_nested _ eq_refl) _ _).
  right. left.
Defined.

(** X10.  [$_getLiteralTypeFromTokenType] returns a value of the
    [LiteralType] enumeration, never ['SUBQUERY'] nor
    ['APEX_BIND_VARIABLE']; it returns ['BOOLEAN'], ['DATE_LITERAL'] and
    ['DATE_N_LITERAL'] exactly on the names of the tables [BOOLEANS],
    [DATE_LITERALS] and [DATE_N_LITERALS]: no name of a table is caught by
    an earlier comparison or by another table. *)
Theorem X10_literalType_of_token_type (name : string) :
  getLiteralTypeFromTokenType name ∈ LiteralType_values
  /\ getLiteralTypeFromTokenType name <> "SUBQUERY"
  /\ getLiteralTypeFromTokenType name <> "APEX_BIND_VARIABLE"
  /\ (getLiteralTypeFromTokenType name = "BOOLEAN" <-> name ∈ BOOLEANS)
  /\ (getLiteralTypeFromTokenType name = "DATE_LITERAL" <-> name ∈ DATE_LITERALS)
  /\ (getLiteralTypeFromTokenType name = "DATE_N_LITERAL" <-> name ∈ DATE_N_LITERALS).
Proof.
  assert (forall l, array_includes l name = true <-> name ∈ l) as Hinc.
  { intros l. unfold array_includes. rewrite existsb_exists. split.
    - intros (x & Hx & Heq). apply String.eqb_eq in Heq as ->.
      apply list_elem_of_In. exact Hx.
    - intros Hin. exists name. split; [apply list_elem_of_In; exact Hin|].
      apply String.eqb_refl. }
  split; [apply (getLiteralTypeFromType_cases (Some name))|].
  assert (Forall (fun n => getLiteralTypeFromTokenType n = "BOOLEAN") BOOLEANS) as HB
    by (repeat constructor).
  assert (Forall (fun n => getLiteralTypeFromTokenType n = "DATE_LITERAL") DATE_LITERALS)
    as HD by (repeat constructor).
  assert (Forall (fun n => getLiteralTypeFromTokenType n = "DATE_N_LITERAL") DATE_N_LITERALS)
    as HN by (repeat constructor).
  rewrite Forall_forall in HB, HD, HN.
  split; [|split; [|split; [|split]]].
  4: split; [|apply HD].
  3: split; [|apply HB].
  5: split; [|apply HN].
  all: unfold getLiteralTypeFromTokenType;
    repeat match goal with
           | |- context [if ?b then _ else _] => destruct b eqn:?
           end;
    try discriminate;
    try (intros _; apply Hinc; assumption).
Qed.

(** *** Function expressions *)

Lemma existsb_concat_false {A} (p : A -> bool) (ls : list (list A)) :
  Forall (fun l => existsb p l = false) ls -> existsb p (List.concat ls) = false.
Proof.
  induction 1 as [|l ls Hl _ IH]; simpl; [reflexivity|].
  rewrite existsb_app, Hl, IH. reflexivity.
Qed.

Lemma visitFn_untyped :
  forall (n : FnNode) (o : option Options),
    includeType (options_or_default o) = false ->
    typed_anywhere (visitFn o n) = false.
Proof.
  fix IH 1. intros [kind fn fes|l1 l2 u|lat lon] o Ho.
  - assert (forall fe, existsb (fun p => match p with
                                        | PString _ => false
                                        | PFunction g => typed_anywhere g
                                        end)
                         (functionExpression (mkOptions false) fe) = false) as Hfe.
    { intros [params]. simpl.
      induction params as [|[t|g] params IHp]; simpl; [reflexivity | exact IHp |].
      rewrite IHp, (IH g (Some (mkOptions false)) eq_refl). reflexivity. }
    assert (forall it, it = false ->
              existsb (fun p => match p with
                                | PString _ => false
                                | PFunction g => typed_anywhere g
                                end)
                (match fes with
                 | [] => []
                 | fe0 :: _ =>
                     List.concat (map (fun _ => functionExpression (mkOptions it) fe0) fes)
                 end) = false) as Hargs.
    { intros it ->. destruct fes as [|fe0 rest]; [reflexivity|].
      apply existsb_concat_false. apply Forall_forall. intros l Hl.
      apply list_elem_of_In, in_map_iff in Hl as (x & <- & _). apply Hfe. }
    simpl. destruct kind; rewrite ?Ho; simpl; rewrite Hargs; reflexivity.
  - simpl. rewrite Ho. simpl. destruct l2 as [t|g]; simpl; [reflexivity|].
    rewrite (IH g (Some (options_or_default o)) Ho). reflexivity.
  - simpl. rewrite Ho. reflexivity.
Qed.

(** X11.  Outside the projection list no function expression has the
    property [type] or [isAggregateFn], at any depth of its parameters:
    this holds for the [fn] of a condition, of an ORDER BY criterion and
    of GROUP BY. *)
Theorem X11_functions_outside_projection_untyped {S Q} (visit : bool -> S -> Completion Q) :
  (forall (ctx : ExpressionContext S) c f,
      expression visit ctx = Normal c -> c_fn c = Some f -> typed_anywhere f = false)
  /\ (forall ctx v c f,
        orderByClause ctx = Normal v -> c ∈ orderBy_list v -> ob_fn c = Some f ->
        typed_anywhere f = false)
  /\ (forall (ctx : GroupByClauseContext S) gb f,
        groupByClause visit ctx = Normal gb -> gb_fn gb = Some f ->
        typed_anywhere f = false).
Proof.
  split; [|split].
  - intros ctx c f H Hf. unfold expression in H. inv_bind H. destruct a as [op r].
    injection H as <-. simpl in Hf. destruct (e_lhs ctx) as [t|n]; [discriminate|].
    injection Hf as <-. apply visitFn_untyped. reflexivity.
  - intros ctx v c f H Hc Hf.
    assert (exists item, c = visitOrderByItem item) as [item ->].
    { unfold orderByClause in H.
      destruct (o_orderByExpressionOrFn ctx) as [|i1 [|i2 rest]]; [discriminate| |];
        injection H as <-; simpl in Hc.
      - apply list_elem_of_singleton in Hc. eauto.
      - change (visitOrderByItem i1 :: visitOrderByItem i2 :: map visitOrderByItem rest)
          with (visitOrderByItem <$> (i1 :: i2 :: rest)) in Hc.
        apply list_elem_of_fmap in Hc as (item & -> & _). eauto. }
    destruct item as [t o n|fn fes o n|lf o n]; simpl in Hf; [discriminate| |];
      injection Hf as <-.
    + apply (visitFn_untyped (FieldFunctionNode otherFunctionK fn fes)
               (Some (mkOptions false)) eq_refl).
    + apply visitFn_untyped. reflexivity.
  - intros ctx gb f H Hf. unfold groupByClause in H. inv_bind H. inv_bind H.
    injection H as <-. simpl in Hf. destruct (g_fn ctx) as [|n ns]; [discriminate|].
    injection Hf as <-. apply visitFn_untyped. reflexivity.
Qed.

(** X11, witness: the condition
    [DISTANCE(Location__c, GEOLOCATION(37.775, -122.418), 'mi') < 20]. *)
Lemma X11_functions_outside_projection_untyped_witness :
  exists c f,
    expression selectStatement
      (mkExpressionContext [] (IsFn distance_cst)
         (mkExpressionOperatorContext [mkToken "<" "LESS_THAN"] [] (atom_string "20"))
         [] [])
    = Normal c
    /\ c_fn c = Some f
    /\ fn_functionName f = "DISTANCE"
    /\ typed_anywhere f = false.
Proof.
  eexists. eexists. split; [reflexivity|]. split; [reflexivity|].
  split; [reflexivity|].
  apply (proj1 (X11_functions_outside_projection_untyped selectStatement)
           (mkExpressionContext [] (IsFn distance_cst)
              (mkExpressionOperatorContext [mkToken "<" "LESS_THAN"] []
                 (atom_string "20")) [] []) _ _ eq_refl eq_refl).
Defined.

Lemma visitFn_projection (fn : FnNode) :
  let f := visitFn None fn in
  fn_isAggregateFn f <> Some false
  /\ (fn_type f = None <->
      exists kind t fes,
        fn = FieldFunctionNode kind t fes
        /\ (kind = cubeFunctionK \/ kind = rollupFunctionK))
  /\ (fn_type f <> None -> fn_type f = Some "FieldFunctionExpression")
  /\ (fn_isAggregateFn f = Some true <->
      (exists t fes, fn = FieldFunctionNode aggregateFunctionK t fes)
      \/ (exists l1 l2 u, fn = LocationFunctionNode l1 l2 u))
  /\ fn_alias f = None.
Proof.
  destruct fn as [[] t fes|l1 l2 u|lat lon]; simpl;
    (split; [discriminate|]);
    (split; [split;
             [first [discriminate | intros _; eauto 10]
             |first [reflexivity
                    |intros (k & t' & f' & Heq & [ -> | -> ]); discriminate Heq]]|]);
    (split; [first [intros _; reflexivity | intros H; exfalso; apply H; reflexivity]|]);
    (split; [split;
             [first [discriminate | intros _; eauto 10]
             |first [reflexivity
                    |intros [(t' & f' & Heq)|(a & b & c & Heq)]; discriminate Heq]]|]);
    reflexivity.
Qed.

(** X12.  A function of the projection list: [isAggregateFn] is [true]
    or absent, never [false], and it is [true] exactly for an aggregate
    function and for DISTANCE; [type] is ['FieldFunctionExpression'],
    absent exactly for CUBE and ROLLUP; [alias] is the image of the alias
    token when there is one. *)
Theorem X12_projected_function_type (fn : FnNode) (alias : list IToken) :
  let f := selectClauseFunctionIdentifier fn alias in
  fn_isAggregateFn f <> Some false
  /\ (fn_type f = None <->
      exists kind t fes,
        fn = FieldFunctionNode kind t fes
        /\ (kind = cubeFunctionK \/ kind = rollupFunctionK))
  /\ (fn_type f <> None -> fn_type f = Some "FieldFunctionExpression")
  /\ (fn_isAggregateFn f = Some true <->
      (exists t fes, fn = FieldFunctionNode aggregateFunctionK t fes)
      \/ (exists l1 l2 u, fn = LocationFunctionNode l1 l2 u))
  /\ fn_alias f = first_image alias.
Proof.
  unfold selectClauseFunctionIdentifier.
  destruct (visitFn_projection fn) as (H1 & H2 & H3 & H4 & H5).
  destruct alias as [|a al]; simpl; [auto 10|].
  assert (forall g, fn_type (fn_set_alias (image a) g) = fn_type g
                    /\ fn_isAggregateFn (fn_set_alias (image a) g) = fn_isAggregateFn g
                    /\ fn_alias (fn_set_alias (image a) g) = Some (image a)) as Hset
    by (intros [? ? ? ? ? ?]; auto).
  destruct (Hset (visitFn None fn)) as (-> & -> & ->). auto 10.
Qed.

Lemma erase_types_rawValue (f : FunctionExp) : fn_rawValue (erase_types f) = fn_rawValue f.
Proof. destruct f; reflexivity. Qed.

Lemma param_text_erase (ps : list FnParam) :
  map param_text
    (map (fun p => match p with
                   | PString s => PString s
                   | PFunction g => PFunction (erase_types g)
                   end) ps)
  = map param_text ps.
Proof.
  induction ps as [|[s|g] ps IH]; simpl; [reflexivity | rewrite IH; reflexivity|].
  rewrite IH, erase_types_rawValue. reflexivity.
Qed.

Lemma visitFn_erase_types :
  forall (n : FnNode) (o : option Options),
    erase_types (visitFn o n) = visitFn (Some (mkOptions false)) n.
Proof.
  fix IH 1. intros [kind fn fes|l1 l2 u|lat lon] o.
  - assert (forall it fe,
              map (fun p => match p with
                            | PString s => PString s
                            | PFunction g => PFunction (erase_types g)
                            end) (functionExpression (mkOptions it) fe)
              = functionExpression (mkOptions false) fe) as Hfe.
    { intros it [params]. simpl.
      induction params as [|[t|g] params IHp]; simpl; [reflexivity| |].
      - rewrite IHp. reflexivity.
      - rewrite IHp, (IH g (Some (mkOptions it))). reflexivity. }
    assert (forall it,
              map (fun p => match p with
                            | PString s => PString s
                            | PFunction g => PFunction (erase_types g)
                            end)
                (match fes with
                 | [] => []
                 | fe0 :: _ =>
                     List.concat (map (fun _ => functionExpression (mkOptions it) fe0) fes)
                 end)
              = match fes with
                | [] => []
                | fe0 :: _ =>
                    List.concat (map (fun _ => functionExpression (mkOptions false) fe0) fes)
                end) as Hargs.
    { intros it. destruct fes as [|fe0 rest]; [reflexivity|].
      generalize (fe0 :: rest). intros l.
      induction l as [|x l IHl]; simpl; [reflexivity|].
      rewrite map_app, IHl, Hfe. reflexivity. }
    assert (forall it agg,
              erase_types
                (getFieldFunction_output fn
                   (match fes with
                    | [] => []
                    | fe0 :: _ =>
                        List.concat
                          (map (fun _ => functionExpression (mkOptions it) fe0) fes)
                    end) agg it)
              = getFieldFunction_output fn
                  (match fes with
                   | [] => []
                   | fe0 :: _ =>
                       List.concat
                         (map (fun _ => functionExpression (mkOptions false) fe0) fes)
                   end) false false) as Hout.
    { intros it agg. unfold getFieldFunction_output. simpl.
      rewrite <- (Hargs it), param_text_erase. reflexivity. }
    destruct kind;
      [exact (Hout (includeType (options_or_default o)) false)
      |exact (Hout (includeType (options_or_default o)) true)
      |exact (Hout (includeType (options_or_default o)) false)
      |exact (Hout false false)
      |exact (Hout false false)].
  - simpl. unfold locationFunction_output. destruct l2 as [t|g]; simpl; [reflexivity|].
    pose proof (IH g (Some (options_or_default o))) as Hg.
    assert (fn_rawValue (visitFn (Some (options_or_default o)) g)
            = fn_rawValue (visitFn (Some (mkOptions false)) g)) as Hraw
      by (rewrite <- Hg; symmetry; apply erase_types_rawValue).
    rewrite Hg, Hraw. reflexivity.
  - reflexivity.
Qed.

(** X13.  The function expression built in the projection list and the
    one built for the same syntax tree elsewhere (condition, ORDER BY,
    GROUP BY) differ by [type], [isAggregateFn] and the alias only, at
    every depth: the same [functionName], the same [rawValue], the same
    parameters as text. *)
Theorem X13_function_same_in_every_context (n : FnNode) (alias : list IToken) :
  let projected := selectClauseFunctionIdentifier n alias in
  let elsewhere := visitFn (Some (mkOptions false)) n in
  erase_types projected
  = match alias with
    | t :: _ => fn_set_alias (image t) elsewhere
    | [] => elsewhere
    end
  /\ fn_rawValue projected = fn_rawValue elsewhere
  /\ fn_functionName projected = fn_functionName elsewhere
  /\ List.length (fn_parameters projected) = List.length (fn_parameters elsewhere)
  /\ map param_text (fn_parameters projected) = map param_text (fn_parameters elsewhere)
  /\ erase_types elsewhere = elsewhere.
Proof.
  unfold selectClauseFunctionIdentifier.
  pose proof (visitFn_erase_types n None) as He.
  pose proof (visitFn_erase_types n (Some (mkOptions false))) as He'.
  assert (forall f,
            fn_rawValue f = fn_rawValue (erase_types f)
            /\ fn_functionName f = fn_functionName (erase_types f)
            /\ List.length (fn_parameters f) = List.length (fn_parameters (erase_types f))
            /\ map param_text (fn_parameters f)
               = map param_text (fn_parameters (erase_types f))) as Hinv.
  { intros [t name ps a r al]. simpl. rewrite length_map, param_text_erase. auto. }
  assert (forall a f,
            erase_types (fn_set_alias a f) = fn_set_alias a (erase_types f)
            /\ fn_rawValue (fn_set_alias a f) = fn_rawValue f
            /\ fn_functionName (fn_set_alias a f) = fn_functionName f
            /\ fn_parameters (fn_set_alias a f) = fn_parameters f) as Hset
    by (intros a [? ? ? ? ? ?]; auto).
  destruct (Hinv (visitFn None n)) as (H1 & H2 & H3 & H4).
  rewrite He in H1, H2, H3, H4.
  destruct alias as [|a al]; simpl; [auto 10|].
  destruct (Hset (image a) (visitFn None n)) as (-> & -> & -> & ->).
  rewrite He. auto 10.
Qed.

(** *** TYPEOF, GROUP BY, WITH, ORDER BY and the optional clauses *)

(** X14.  The [conditions] of a TYPEOF: one ['WHEN'] per WHEN branch, in
    source order, with the branch's object type and field names; then one
    ['ELSE'] without [objectType] when there is an ELSE branch, in last
    position; nothing else.  There is at least one WHEN branch and no
    [fieldList] is empty, or the visitor has thrown. *)
Theorem X14_typeOf_conditions_order {Q} (ctx : SelectClauseTypeOfContext) (f : FieldType Q) :
  selectClauseTypeOf ctx = Normal f ->
  exists conds,
    f = FieldTypeof (image (to_typeOfField ctx)) conds
    /\ to_selectClauseTypeOfThen ctx <> []
    /\ List.length conds
       = List.length (to_selectClauseTypeOfThen ctx)
         + (match to_selectClauseTypeOfElse ctx with [] => 0 | _ :: _ => 1 end)
    /\ (forall i t, to_selectClauseTypeOfThen ctx !! i = Some t ->
          conds !! i = Some {| toc_type := "WHEN";
                               toc_objectType := Some (image (tt_typeOfField t));
                               toc_fieldList := map image (tt_field t) |})
    /\ (forall e es, to_selectClauseTypeOfElse ctx = e :: es ->
          conds !! List.length (to_selectClauseTypeOfThen ctx)
          = Some {| toc_type := "ELSE"; toc_objectType := None;
                    toc_fieldList := map image (te_field e) |})
    /\ Forall (fun c => toc_fieldList c <> []) conds.
Proof.
  unfold selectClauseTypeOf.
  destruct (to_selectClauseTypeOfThen ctx) as [|t0 ts] eqn:Hthens; [discriminate|].
  rewrite <- Hthens. intros H. inv_bind H.
  destruct (mapC_Normal _ _ _ Ha) as [Hlen Hnth].
  assert (forall i t, to_selectClauseTypeOfThen ctx !! i = Some t ->
            a !! i = Some {| toc_type := "WHEN";
                             toc_objectType := Some (image (tt_typeOfField t));
                             toc_fieldList := map image (tt_field t) |}
            /\ tt_field t <> []) as Hwhen.
  { intros i t Hi. destruct (Hnth i t Hi) as (y & Hy & Ht).
    unfold selectClauseTypeOfThen, map_present in Ht.
    destruct (tt_field t) as [|x xs]; [discriminate|]. simpl in Ht.
    injection Ht as <-. split; [exact Hy | discriminate]. }
  assert (Forall (fun c => toc_fieldList c <> []) a) as Hall.
  { apply Forall_forall. intros c Hc.
    destruct (mapC_elem_of _ _ _ _ Ha Hc) as (t & _ & Ht).
    unfold selectClauseTypeOfThen, map_present in Ht.
    destruct (tt_field t) as [|x xs]; [discriminate|]. simpl in Ht.
    injection Ht as <-. discriminate. }
  assert (to_selectClauseTypeOfThen ctx <> []) as Hne by (rewrite Hthens; discriminate).
  destruct (to_selectClauseTypeOfElse ctx) as [|e es].
  - injection H as <-. exists a. split; [reflexivity|]. split; [exact Hne|].
    split; [lia|]. split; [intros i t Hi; apply (Hwhen i t Hi)|].
    split; [discriminate | exact Hall].
  - inv_bind H. injection H as <-.
    unfold selectClauseTypeOfElse, map_present in Ha0.
    destruct (te_field e) as [|x xs] eqn:He; [discriminate|]. simpl in Ha0.
    injection Ha0 as <-.
    eexists. split; [reflexivity|]. split; [exact Hne|].
    split; [rewrite length_app; simpl; lia|]. split; [|split].
    + intros i t Hi. destruct (Hwhen i t Hi) as [Hy _].
      rewrite lookup_app_l; [exact Hy|]. apply lookup_lt_Some in Hy. exact Hy.
    + intros e' es' [= <- <-]. rewrite <- Hlen, lookup_app_r by lia.
      rewrite Nat.sub_diag, He. reflexivity.
    + apply Forall_app. split; [exact Hall|]. repeat constructor. discriminate.
Qed.

(** X14, witness:
    [TYPEOF What WHEN Account THEN Phone, Name ELSE Id END]. *)
Lemma X14_typeOf_conditions_order_witness :
  exists conds,
    selectClauseTypeOf (Q:=Query)
      (mkSelectClauseTypeOfContext (ident "What")
         [mkSelectClauseTypeOfThenContext (ident "Account") [ident "Phone"; ident "Name"]]
         [mkSelectClauseTypeOfElseContext [ident "Id"]])
    = Normal (FieldTypeof "What" conds)
    /\ List.length conds = 2.
Proof.
  destruct (X14_typeOf_conditions_order (Q:=Query)
              (mkSelectClauseTypeOfContext (ident "What")
                 [mkSelectClauseTypeOfThenContext (ident "Account") [ident "Phone"; ident "Name"]]
                 [mkSelectClauseTypeOfElseContext [ident "Id"]]) _ eq_refl)
    as (conds & Hf & _ & Hlen & _).
  exists conds. split; [exact (f_equal Normal Hf) | exact Hlen].
Defined.

Lemma groupByFieldList_Normal (l : GroupByFieldListContext) (f : GroupByField) :
  groupByFieldList l = Normal f ->
  groupByField_list f = map image (gfl_field l) /\ gfl_field l <> []
  /\ (forall s, f = GBF_string s -> exists t, gfl_field l = [t] /\ s = image t).
Proof.
  unfold groupByFieldList. destruct (gfl_field l) as [|t [|t' ts]]; [discriminate| |];
    intros [= <-]; (split; [reflexivity|]); (split; [discriminate|]).
  - intros s [= <-]. eauto.
  - discriminate.
Qed.

Lemma mapC_groupByFieldList (lists : list GroupByFieldListContext) (fs : list GroupByField) :
  mapC groupByFieldList lists = Normal fs ->
  List.concat (map groupByField_list fs) = List.concat (map (fun l => map image (gfl_field l)) lists).
Proof.
  revert fs. induction lists as [|l lists IH]; intros fs H; simpl in H.
  - injection H as <-. reflexivity.
  - inv_bind H. inv_bind H. injection H as <-. simpl.
    destruct (groupByFieldList_Normal _ _ Ha) as (-> & _). rewrite (IH _ Ha0). reflexivity.
Qed.

(** X15.  The fields of GROUP BY, whatever the shape of [field] (a
    string, an array of strings, or an array of these), are the images of
    the field tokens of the field lists in source order; [field] is absent
    exactly when there is no field list, and is not wrapped in an array
    exactly when there is one field list.  This holds provided no field
    token has an empty image (a single empty string is falsy and would be
    dropped). *)
Theorem X15_groupBy_fields_in_source_order {S Q} (visit : bool -> S -> Completion Q)
    (ctx : GroupByClauseContext S) (gb : GroupByClause Q) :
  groupByClause visit ctx = Normal gb ->
  (forall l t, l ∈ g_groupByFieldList ctx -> t ∈ gfl_field l -> image t <> "") ->
  groupBy_fields (gb_field gb)
  = List.concat (map (fun l => map image (gfl_field l)) (g_groupByFieldList ctx))
  /\ (gb_field gb = None <-> g_groupByFieldList ctx = [])
  /\ ((exists f, gb_field gb = Some (GB_single f)) <->
      List.length (g_groupByFieldList ctx) = 1).
Proof.
  unfold groupByClause. intros H Himg. inv_bind H. inv_bind H. injection H as <-. simpl.
  destruct (g_groupByFieldList ctx) as [|l0 lists] eqn:Hl.
  - injection Ha as <-. simpl. split; [reflexivity|]. split; [tauto|].
    split; [intros [f Hf]; discriminate | discriminate].
  - rewrite <- Hl in Ha. inv_bind Ha. injection Ha as <-.
    pose proof (mapC_groupByFieldList _ _ Ha1) as Hflat.
    destruct (mapC_Normal _ _ _ Ha1) as [Hlen Hnth]. rewrite Hl in Hlen, Hflat, Hnth.
    destruct a1 as [|f [|f' fs]]; simpl in Hlen; try discriminate.
    + destruct lists; [|discriminate].
      assert (truthy_groupByField (GB_single f) = true) as Htr.
      { destruct f as [s|ss]; [|reflexivity]. simpl.
        destruct (Hnth 0 l0 eq_refl) as (y & [= <-] & Hy).
        destruct (groupByFieldList_Normal _ _ Hy) as (_ & _ & Hs).
        destruct (Hs s eq_refl) as (t & Ht & ->).
        assert (image t <> "") as Hne.
        { apply (Himg l0 t); [left | rewrite Ht; left]. }
        destruct (image t); [congruence | reflexivity]. }
      rewrite Htr. simpl in Hflat |- *. rewrite app_nil_r in Hflat.
      split; [exact Hflat|]. split; [split; discriminate|].
      split; [reflexivity | eauto].
    + simpl truthy_groupByField. cbn iota. split; [exact Hflat|].
      split; [split; discriminate|].
      split; [intros [g Hg]; discriminate|].
      intros H1. destruct lists; simpl in *; lia.
Qed.

(** X15, witness: [GROUP BY Name, Industry]. *)
Lemma X15_groupBy_fields_in_source_order_witness :
  exists gb,
    groupByClause selectStatement
      (mkGroupByClauseContext
         [mkGroupByFieldListContext [ident "Name"; ident "Industry"]] [] [])
    = Normal gb
    /\ groupBy_fields (gb_field gb) = ["Name"; "Industry"].
Proof.
  eexists. split; [reflexivity|].
  apply (X15_groupBy_fields_in_source_order selectStatement
           (mkGroupByClauseContext
              [mkGroupByFieldListContext [ident "Name"; ident "Industry"]] [] []) _ eq_refl).
  intros l t Hl Ht. apply list_elem_of_singleton in Hl as ->.
  simpl in Ht. apply elem_of_cons in Ht as [->|Ht]; [discriminate|].
  apply list_elem_of_singleton in Ht as ->. discriminate.
Defined.

Lemma apply_withClauses_snoc (rs : list WithClauseResult) (r : WithClauseResult) :
  apply_withClauses (rs ++ [r])
  = (match wr_withSecurityEnforced r with
     | Some true => Some true
     | _ => fst (apply_withClauses rs)
     end,
     match wr_withDataCategory r with
     | Some d => Some d
     | None => snd (apply_withClauses rs)
     end).
Proof. unfold apply_withClauses. rewrite fold_left_app. reflexivity. Qed.

Lemma withClause_Normal (w : WithClauseContext) (r : WithClauseResult) :
  withClause w = Normal r ->
  wr_withSecurityEnforced r = (if is_securityEnforced w then Some true else None)
  /\ (is_securityEnforced w = true <-> wr_withDataCategory r = None).
Proof.
  unfold withClause, is_securityEnforced.
  destruct (wc_withSecurityEnforced w) as [|t ts].
  - destruct (wc_withDataCategory w) as [|c cs]; intros H.
    + injection H as <-. simpl. split; [reflexivity|]. split; discriminate.
    + inv_bind H. injection H as <-. simpl. split; [reflexivity|]. split; discriminate.
  - intros [= <-]. simpl. split; [reflexivity|]. split; reflexivity.
Qed.

Lemma mapC_snoc {A B} (f : A -> Completion B) (l : list A) (x : A) (ys : list B) :
  mapC f (l ++ [x]) = Normal ys ->
  exists ys' y, ys = (ys' ++ [y])%list /\ mapC f l = Normal ys' /\ f x = Normal y.
Proof.
  revert ys. induction l as [|a l IH]; intros ys H; simpl in H.
  - inv_bind H. injection H as <-. exists [], a. auto.
  - inv_bind H. inv_bind H. injection H as <-.
    destruct (IH _ Ha0) as (ys' & y & -> & Hm & Hy).
    exists (a0 :: ys'), y. split; [reflexivity|]. split; [|exact Hy].
    simpl. rewrite Ha. simpl. rewrite Hm. reflexivity.
Qed.

Lemma apply_withClauses_built (ws : list WithClauseContext) (rs : list WithClauseResult) :
  mapC withClause ws = Normal rs ->
  fst (apply_withClauses rs) = (if existsb is_securityEnforced ws then Some true else None)
  /\ (snd (apply_withClauses rs) = None <-> forallb is_securityEnforced ws = true)
  /\ (forall pre w post,
        ws = (pre ++ w :: post)%list -> is_securityEnforced w = false ->
        forallb is_securityEnforced post = true ->
        exists r, withClause w = Normal r
                  /\ snd (apply_withClauses rs) = wr_withDataCategory r).
Proof.
  revert rs. induction ws as [|w ws IH] using rev_ind; intros rs H.
  - injection H as <-. simpl. split; [reflexivity|]. split; [tauto|].
    intros [|? ?] ? ? ?; discriminate.
  - apply mapC_snoc in H as (rs' & r & -> & Hm & Hr).
    destruct (IH _ Hm) as (Hsec & Hnone & Hlast).
    destruct (withClause_Normal _ _ Hr) as [Hrs Hrd].
    rewrite apply_withClauses_snoc, existsb_app, forallb_app. simpl.
    rewrite Hrs, Hsec, orb_false_r, andb_true_r.
    split; [|split].
    + destruct (is_securityEnforced w); [rewrite orb_true_r | rewrite orb_false_r];
        reflexivity.
    + destruct (wr_withDataCategory r) as [d|] eqn:Hd.
      * split; [discriminate|]. intros Hall. apply andb_true_iff in Hall as [_ Hw].
        apply Hrd in Hw. discriminate.
      * rewrite Hnone. destruct Hrd as [_ Hrd]. rewrite (Hrd eq_refl), andb_true_r.
        reflexivity.
    + intros pre w' post Heq Hw' Hpost.
      destruct post as [|p post _] using rev_ind.
      * apply app_inj_tail in Heq as [_ <-]. exists r. split; [exact Hr|].
        destruct (wr_withDataCategory r) eqn:Hd; [reflexivity|].
        destruct Hrd as [_ Hrd]. rewrite (Hrd eq_refl) in Hw'. discriminate.
      * rewrite app_comm_cons, app_assoc in Heq. apply app_inj_tail in Heq as [-> <-].
        rewrite forallb_app in Hpost. simpl in Hpost.
        apply andb_true_iff in Hpost as [Hpost Hp]. rewrite andb_true_r in Hp.
        destruct (Hlast pre w' post eq_refl Hw' Hpost) as (r' & Hr' & Hsnd).
        exists r'. split; [exact Hr'|].
        destruct Hrd as [Hrd _]. rewrite (Hrd Hp). exact Hsnd.
Qed.

(** X16.  Over the WITH clauses of a statement: [withSecurityEnforced] is
    [true] when one of them is [WITH SECURITY_ENFORCED] and is absent
    otherwise (never [false]); [withDataCategory] is absent exactly when
    all of them are, and otherwise it is the filter of the last clause
    that is not. *)
Theorem X16_with_clauses_accumulate (isSubquery : bool) (node : SelectStatementContext)
    (q : Query) :
  selectStatement isSubquery node = Normal q ->
  let ws := ss_withClause (statement_ctx node) in
  withSecurityEnforced (shape q)
  = (if existsb is_securityEnforced ws then Some true else None)
  /\ (withDataCategory (shape q) = None <-> forallb is_securityEnforced ws = true)
  /\ (forall pre w post,
        ws = (pre ++ w :: post)%list -> is_securityEnforced w = false ->
        forallb is_securityEnforced post = true ->
        exists r, withClause w = Normal r
                  /\ withDataCategory (shape q) = wr_withDataCategory r).
Proof.
  intros Hq. apply selectStatement_Normal in Hq.
  unfold selectStatement_body in Hq.
  inv_bind Hq. inv_bind Hq. inv_bind Hq. inv_bind Hq. inv_bind Hq.
  injection Hq as Hq. rewrite <- Hq. simpl.
  apply apply_withClauses_built. exact Ha1.
Qed.

(** X16, witness:
    [... WITH DATA CATEGORY Geography__c AT usa__c WITH SECURITY_ENFORCED]. *)
Lemma X16_with_clauses_accumulate_witness :
  exists q,
    selectStatement false cst_with = Normal q
    /\ withSecurityEnforced (shape q) = Some true
    /\ is_Some (withDataCategory (shape q)).
Proof.
  eexists. split; [reflexivity|].
  destruct (X16_with_clauses_accumulate false cst_with _ eq_refl) as (Hsec & _ & _).
  split; [exact Hsec | eexists; reflexivity].
Defined.

(** X17.  The criteria of [orderBy], whatever its shape, are one per
    ORDER BY element in source order; each has exactly one of [field] and
    [fn], [field] exactly for a plain identifier; [order] and [nulls] are
    the token type names of the element's tokens, absent when not
    written. *)
Theorem X17_orderBy_criteria_in_source_order (ctx : OrderByClauseContext) (v : OrderByValue) :
  orderByClause ctx = Normal v ->
  List.length (orderBy_list v) = List.length (o_orderByExpressionOrFn ctx)
  /\ forall i item,
       o_orderByExpressionOrFn ctx !! i = Some item ->
       exists c,
         orderBy_list v !! i = Some c
         /\ (is_Some (ob_field c) <-> ob_fn c = None)
         /\ (is_Some (ob_field c) <->
             exists t o n, item = orderByExpressionNode t o n)
         /\ ob_order c
            = first_tokenTypeName match item with
                                  | orderByExpressionNode _ o _ => o
                                  | orderByFunctionExpressionNode _ _ o _ => o
                                  | orderByLocationExpressionNode _ o _ => o
                                  end
         /\ ob_nulls c
            = first_tokenTypeName match item with
                                  | orderByExpressionNode _ _ n => n
                                  | orderByFunctionExpressionNode _ _ _ n => n
                                  | orderByLocationExpressionNode _ _ n => n
                                  end.
Proof.
  intros H.
  assert (orderBy_list v = visitOrderByItem <$> o_orderByExpressionOrFn ctx) as ->.
  { unfold orderByClause in H.
    destruct (o_orderByExpressionOrFn ctx) as [|i1 [|i2 rest]]; [discriminate| |];
      injection H as <-; reflexivity. }
  split; [apply length_fmap|].
  intros i item Hi. exists (visitOrderByItem item).
  split; [rewrite list_lookup_fmap, Hi; reflexivity|].
  destruct item as [t o n|fn fes o n|lf o n]; simpl;
    (split; [split; [try (intros [? ?]); try discriminate; reflexivity
                    |try discriminate; eauto]|]);
    (split; [split; [try (intros [? ?]; discriminate); eauto
                    |try (intros (? & ? & ? & ?); discriminate); eauto]|]);
    split; reflexivity.
Qed.

(** X17, witness: [ORDER BY Name, DISTANCE(...) DESC]. *)
Lemma X17_orderBy_criteria_in_source_order_witness :
  exists v,
    orderByClause
      (mkOrderByClauseContext
         [orderByExpressionNode (ident "Name") [] [];
          orderByLocationExpressionNode distance_cst [mkToken "DESC" "DESC"] []])
    = Normal v
    /\ List.length (orderBy_list v) = 2.
Proof.
  eexists. split; [reflexivity|].
  apply (X17_orderBy_criteria_in_source_order
           (mkOrderByClauseContext
              [orderByExpressionNode (ident "Name") [] [];
               orderByLocationExpressionNode distance_cst [mkToken "DESC" "DESC"] []])
           _ eq_refl).
Defined.

(** X18.  Each optional property of a built query is present exactly
    when its clause is in the syntax tree: [usingScope], [where],
    [groupBy], [orderBy], [limit], [offset], [for] and [update].  No
    clause is dropped (a LIMIT of 0 is kept) and none is invented. *)
Theorem X18_optional_clauses_present_iff (isSubquery : bool) (node : SelectStatementContext)
    (q : Query) :
  selectStatement isSubquery node = Normal q ->
  let ctx := statement_ctx node in
  (is_Some (usingScope (shape q)) <-> ss_usingScopeClause ctx <> [])
  /\ (is_Some (where_ (shape q)) <-> ss_whereClause ctx <> [])
  /\ (is_Some (groupBy (shape q)) <-> ss_groupByClause ctx <> [])
  /\ (is_Some (orderBy (shape q)) <-> ss_orderByClause ctx <> [])
  /\ (is_Some (limit (shape q)) <-> ss_limitClause ctx <> [])
  /\ (is_Some (offset (shape q)) <-> ss_offsetClause ctx <> [])
  /\ (is_Some (for_ (shape q)) <-> ss_forViewOrReference ctx <> [])
  /\ (is_Some (update (shape q)) <-> ss_updateTrackingViewstat ctx <> []).
Proof.
  intros Hq ctx. apply selectStatement_Normal in Hq. fold ctx in Hq.
  unfold selectStatement_body in Hq.
  inv_bind Hq. inv_bind Hq. inv_bind Hq. inv_bind Hq. inv_bind Hq.
  injection Hq as Hq. rewrite <- Hq. simpl.
  assert (forall A (l : list A), l <> [] <-> exists x xs, l = x :: xs) as Hne.
  { intros A [|x xs]; split; [congruence | intros (? & ? & ?); discriminate
                             | eauto | discriminate]. }
  assert (forall A (o : option A), is_Some o <-> o <> None) as Hsome.
  { intros A [x|]; split; [discriminate | eauto | intros [? ?]; discriminate | congruence]. }
  repeat split;
    try (intros [x Hx]; intros Hnil; rewrite Hnil in *; simpl in *;
         try discriminate Hx; congruence).
  - destruct (ss_usingScopeClause ctx); [congruence | eexists; reflexivity].
  - intros Hw. destruct (ss_whereClause ctx) as [|w ws]; [congruence|].
    destruct (whereClause_chain_nodes _ _ _ Ha0) as (tree & -> & _). eauto.
  - intros Hg. destruct (ss_groupByClause ctx) as [|g gs]; [congruence|].
    apply fmap_Normal in Ha2 as (gb & _ & ->). eauto.
  - intros Ho. destruct (ss_orderByClause ctx) as [|o os]; [congruence|].
    apply fmap_Normal in Ha3 as (ob & _ & ->). eauto.
  - destruct (ss_limitClause ctx); [congruence | eexists; reflexivity].
  - destruct (ss_offsetClause ctx); [congruence | eexists; reflexivity].
  - destruct (ss_forViewOrReference ctx); [congruence | eexists; reflexivity].
  - destruct (ss_updateTrackingViewstat ctx); [congruence | eexists; reflexivity].
Qed.

(** X18, witness: [SELECT Id FROM Account WITH ... LIMIT 0]. *)
Lemma X18_optional_clauses_present_iff_witness :
  exists q,
    selectStatement false cst_with = Normal q
    /\ limit (shape q) = Some (JsInt 0)
    /\ (is_Some (limit (shape q)) <-> ss_limitClause (statement_ctx cst_with) <> [])
    /\ (is_Some (offset (shape q)) <-> ss_offsetClause (statement_ctx cst_with) <> []).
Proof.
  eexists. split; [reflexivity|]. split; [reflexivity|].
  destruct (X18_optional_clauses_present_iff false cst_with _ eq_refl)
    as (_ & _ & _ & _ & Hl & Ho & _).
  split; [exact Hl | exact Ho].
Defined.

(** ** C10: the configuration object of the ANTLR facade *)

Import SoqlParser.

Lemma assign_default_lookup (k : string) (d : bool) (config : Obj) (k' : string) :
  assign_default k d config !! k'
  = if decide (k = k')
    then Some (VBool (bool_or_default config k d))
    else config !! k'.
Proof.
  unfold assign_default, bool_or_default, get.
  rewrite lookup_insert. destruct (decide (k = k')) as [->|Hne]; [|reflexivity].
  destruct (config !! k') as [[]|]; reflexivity.
Qed.

Lemma configureDefaults_obj_lookup (config : Obj) (k : string) :
  configureDefaults_obj config !! k
  = if decide (k = "continueIfErrors")
    then Some (VBool (bool_or_default config "continueIfErrors" false))
    else if decide (k = "logging")
    then Some (VBool (bool_or_default config "logging" false))
    else if decide (k = "includeSubqueryAsField")
    then Some (VBool (bool_or_default config "includeSubqueryAsField" true))
    else config !! k.
Proof.
  unfold configureDefaults_obj. rewrite !assign_default_lookup.
  unfold bool_or_default, get. rewrite !assign_default_lookup.
  repeat case_decide; subst; try congruence; reflexivity.
Qed.

(** C10.  [parseQuery(soql, config)] mutates the caller's object in place:
    after the call, whatever its completion, the object at the caller's
    reference has the boolean [continueIfErrors], [logging] and
    [includeSubqueryAsField], each the boolean it held before or, when it
    was missing or not a boolean, the default [false], [false] and [true];
    its other properties and the other objects are as before; and the
    object has changed whenever one of the three was not a boolean. *)
Theorem C10_parseQuery_sets_config_defaults (SoqlQuery : Type)
    (walk : string -> Obj -> Completion SoqlQuery) (soql : string)
    (l : nat) (h : Heap) (config : Obj) :
  h !! l = Some config ->
  let h' := fst (SoqlParser.parseQuery SoqlQuery walk soql (Some l) h) in
  exists config',
    h' !! l = Some config'
    /\ config' !! "continueIfErrors"
       = Some (VBool (bool_or_default config "continueIfErrors" false))
    /\ config' !! "logging" = Some (VBool (bool_or_default config "logging" false))
    /\ config' !! "includeSubqueryAsField"
       = Some (VBool (bool_or_default config "includeSubqueryAsField" true))
    /\ (forall k, k <> "continueIfErrors" -> k <> "logging" ->
                  k <> "includeSubqueryAsField" -> config' !! k = config !! k)
    /\ (forall l', l' <> l -> h' !! l' = h !! l')
    /\ (isBoolean (get config "continueIfErrors") && isBoolean (get config "logging")
          && isBoolean (get config "includeSubqueryAsField") = false ->
        config' <> config).
Proof.
  intros Hl. unfold SoqlParser.parseQuery, configureDefaults, default_param. simpl.
  rewrite Hl. simpl. exists (configureDefaults_obj config).
  split; [apply lookup_insert_eq|].
  rewrite !configureDefaults_obj_lookup. simpl.
  split; [reflexivity|]. split; [reflexivity|]. split; [reflexivity|]. split; [|split].
  - intros k H1 H2 H3. rewrite configureDefaults_obj_lookup.
    repeat case_decide; congruence.
  - intros l' Hne. apply lookup_insert_ne. congruence.
  - intros Hnot Heq.
    assert (forall k, configureDefaults_obj config !! k = config !! k) as Hk
      by (intros k; rewrite Heq; reflexivity).
    pose proof (Hk "continueIfErrors") as H1. pose proof (Hk "logging") as H2.
    pose proof (Hk "includeSubqueryAsField") as H3.
    rewrite configureDefaults_obj_lookup in H1, H2, H3. simpl in H1, H2, H3.
    unfold get in Hnot. rewrite <- H1, <- H2, <- H3 in Hnot. discriminate.
Qed.

(** C10, witness: the caller passes the empty object [{}]. *)
Lemma C10_parseQuery_sets_config_defaults_witness :
  exists config',
    fst (SoqlParser.parseQuery unit (fun _ _ => Throw (ParseError "syntax error"))
           "SELECT" (Some 0) {[0 := ∅]}) !! 0 = Some config'
    /\ config' !! "continueIfErrors" = Some (VBool false)
    /\ config' !! "logging" = Some (VBool false)
    /\ config' !! "includeSubqueryAsField" = Some (VBool true)
    /\ config' <> ∅.
Proof.
  destruct (C10_parseQuery_sets_config_defaults unit
              (fun _ _ => Throw (ParseError "syntax error")) "SELECT" 0 {[0 := ∅]} ∅)
    as (config' & Hc & H1 & H2 & H3 & _ & _ & Hchanged).
  - apply lookup_singleton_eq.
  - exists config'. split; [exact Hc|]. split; [exact H1|]. split; [exact H2|].
    split; [exact H3|]. apply Hchanged. reflexivity.
Defined.

(** ** Further properties of the ANTLR facade *)

Lemma configureDefaults_obj_idempotent (config : Obj) :
  configureDefaults_obj (configureDefaults_obj config) = configureDefaults_obj config.
Proof.
  apply map_eq. intros k. rewrite !configureDefaults_obj_lookup.
  unfold bool_or_default. rewrite !configureDefaults_obj_lookup. simpl.
  repeat case_decide; reflexivity.
Qed.

Lemma configureDefaults_obj_fixed (config : Obj) :
  isBoolean (get config "continueIfErrors") && isBoolean (get config "logging")
    && isBoolean (get config "includeSubqueryAsField") = true ->
  configureDefaults_obj config = config.
Proof.
  intros H. apply andb_true_iff in H as [H H3]. apply andb_true_iff in H as [H1 H2].
  apply map_eq. intros k. rewrite configureDefaults_obj_lookup.
  unfold bool_or_default, get in *.
  repeat case_decide; subst; try reflexivity.
  - destruct (config !! "continueIfErrors") as [[]|]; try discriminate; reflexivity.
  - destruct (config !! "logging") as [[]|]; try discriminate; reflexivity.
  - destruct (config !! "includeSubqueryAsField") as [[]|]; try discriminate; reflexivity.
Qed.

(** X19.  [configureDefaults] is idempotent.  A second call of
    [parseQuery] with the object of a first call leaves the heap as the
    first call left it, and reads the configuration that the first call
    stored; and a call with an object whose three properties are booleans
    already leaves the heap unchanged. *)
Theorem X19_parseQuery_config_stable (SoqlQuery : Type)
    (walk : string -> Obj -> Completion SoqlQuery) (soql soql' : string)
    (l : nat) (h : Heap) :
  let h1 := fst (SoqlParser.parseQuery SoqlQuery walk soql (Some l) h) in
  fst (SoqlParser.parseQuery SoqlQuery walk soql' (Some l) h1) = h1
  /\ snd (SoqlParser.parseQuery SoqlQuery walk soql' (Some l) h1)
     = walk soql' (default ∅ (h1 !! l))
  /\ (forall config,
        h !! l = Some config ->
        isBoolean (get config "continueIfErrors") && isBoolean (get config "logging")
          && isBoolean (get config "includeSubqueryAsField") = true ->
        h1 = h).
Proof.
  unfold SoqlParser.parseQuery, configureDefaults, default_param. simpl.
  destruct (h !! l) as [config|] eqn:Hl.
  - rewrite lookup_insert_eq, configureDefaults_obj_idempotent, insert_insert_eq.
    rewrite !lookup_insert_eq.
    split; [reflexivity|]. split; [reflexivity|].
    intros config' [= <-] Hb. rewrite (configureDefaults_obj_fixed _ Hb).
    apply insert_id. exact Hl.
  - rewrite Hl. simpl. rewrite ?Hl. split; [reflexivity|]. split; [reflexivity|]. discriminate.
Qed.

(** X20.  [parseQuery] called without [config] works on a new object: the
    rest of the pipeline reads the configuration [{ continueIfErrors:
    false, logging: false, includeSubqueryAsField: true }], that object is
    stored at a reference that was free, and every object of the caller
    is unchanged. *)
Theorem X20_parseQuery_default_config (SoqlQuery : Type)
    (walk : string -> Obj -> Completion SoqlQuery) (soql : string) (h : Heap) :
  let defaults : Obj :=
    {[ "continueIfErrors" := VBool false; "logging" := VBool false;
       "includeSubqueryAsField" := VBool true ]} in
  snd (SoqlParser.parseQuery SoqlQuery walk soql None h) = walk soql defaults
  /\ (exists l, h !! l = None
        /\ fst (SoqlParser.parseQuery SoqlQuery walk soql None h) = <[l := defaults]> h)
  /\ (forall l o, h !! l = Some o ->
        fst (SoqlParser.parseQuery SoqlQuery walk soql None h) !! l = Some o).
Proof.
  intros defaults.
  assert (configureDefaults_obj ∅ = defaults) as Hd.
  { apply map_eq. intros k. rewrite configureDefaults_obj_lookup. unfold defaults.
    unfold bool_or_default. rewrite !lookup_empty.
    repeat case_decide; subst; simplify_map_eq; reflexivity. }
  assert (h !! fresh (dom h) = None) as Hfresh.
  { apply not_elem_of_dom. apply is_fresh. }
  unfold SoqlParser.parseQuery, configureDefaults, default_param. simpl.
  rewrite !lookup_insert_eq, insert_insert_eq, Hd. simpl.
  rewrite ?lookup_insert_eq. simpl.
  split; [reflexivity|]. split; [eauto|].
  intros l o Hl. rewrite lookup_insert_ne; [exact Hl|]. congruence.
Qed.
